(** * pyfinding: expected tour length over random coin subsets

    A shallow embedding of the Python package [pyfinding]
    ([coin.py], [memo.py], [pathfinding.py], [alternatives.py]) and the
    properties of its distance oracle, its two tour solvers, its starting-node
    heuristic and its expectation aggregator.

    Conventions of the embedding
    - Python [int] is [Z]; grid coordinates are pairs of [Z].
    - A raised exception is the [Err] branch of [result]; every function that
      can raise returns a [result].
    - [float("inf")] mixed with ints is the type [num].
    - A [dict] is a [gmap]; a Python [list] is a [list] in the same order,
      except the explicit stack of the oracle (see [astar_state]). *)

From Stdlib Require Import ZArith List String Ascii Lia QArith_base.
From stdpp Require Import base option list gmap strings.

Local Open Scope Z_scope.

(** ** Exceptions and the error monad *)

Inductive error : Set :=
| NoPath            (* ValueError("No path!") *)
| IndexError        (* subscript of a list or a str out of range *)
| KeyError          (* subscript of a dict with a missing key *)
| EmptySequence     (* ValueError of min() on an empty iterable *)
| NegativeR         (* ValueError of itertools.combinations for r < 0 *)
| ZeroDivisionError
| FuelExhausted.    (* not a Python exception: the loop budget of the model ran out *)

Inductive result (A : Type) : Type :=
| Ok (a : A)
| Err (e : error).
Arguments Ok {A} a.
Arguments Err {A} e.

#[global] Instance result_ret : MRet result := fun _ a => Ok a.
#[global] Instance result_bind : MBind result := fun _ _ f r =>
  match r with
  | Ok a => f a
  | Err e => Err e
  end.

#[global] Instance result_fmap : FMap result := fun _ _ f r =>
  match r with
  | Ok a => Ok (f a)
  | Err e => Err e
  end.

Definition of_option {A} (e : error) (o : option A) : result A :=
  match o with
  | Some a => Ok a
  | None => Err e
  end.

(** ** Numbers that may be [float("inf")] *)

Inductive num : Set :=
| Fin (z : Z)
| Inf.

Definition num_add (x y : num) : num :=
  match x, y with
  | Fin a, Fin b => Fin (a + b)
  | _, _ => Inf
  end.

Definition num_ltb (x y : num) : bool :=
  match x, y with
  | Fin a, Fin b => a <? b
  | Fin _, Inf => true
  | Inf, _ => false
  end.

Definition num_leb (x y : num) : bool := negb (num_ltb y x).

(** [x >= y] of Python *)
Definition num_geb (x y : num) : bool := negb (num_ltb x y).

Definition num_le (x y : num) : Prop := num_leb x y = true.
Definition num_lt (x y : num) : Prop := num_ltb x y = true.

(** ** Boards and cells *)

Abbreviation coord := (Z * Z)%type.
Abbreviation board := (list string).

(** [board[r]] for an index already known to be non-negative *)
Definition board_row (b : board) (r : Z) : result string :=
  of_option IndexError (b !! Z.to_nat r).

(** [row[c]] for an index already known to be non-negative *)
Definition row_char (row : string) (c : Z) : result ascii :=
  of_option IndexError (String.get (Z.to_nat c) row).

Definition len_board (b : board) : Z := Z.of_nat (length b).
Definition len_str (s : string) : Z := Z.of_nat (String.length s).

Definition wall : ascii := "#"%char.
Definition coin_char : ascii := "*"%char.
Definition is_char (x y : ascii) : bool := Ascii.eqb x y.

(** ** pathfinding.get_movements *)

Definition offsets : list (Z * Z) := [(1, 0); (0, 1); (-1, 0); (0, -1)].

(** One turn of the [for row_offset, col_offset in ...] loop: [Ok None] is
    [continue], [Ok (Some p)] is [movements.append(p)]. *)
Definition try_offset (position : coord) (b : board) (off : Z * Z)
  : result (option coord) :=
  let new_row := position.1 + off.1 in
  if (new_row <? 0) || (new_row >=? len_board b) then Ok None
  else
    let new_col := position.2 + off.2 in
    if new_col <? 0 then Ok None
    else
      row0 ← board_row b 0;
      if new_col >=? len_str row0 then Ok None
      else
        row ← board_row b new_row;
        ch ← row_char row new_col;
        if is_char ch wall then Ok None else Ok (Some (new_row, new_col)).

Fixpoint collect_movements (position : coord) (b : board) (offs : list (Z * Z))
  : result (list coord) :=
  match offs with
  | [] => Ok []
  | off :: rest =>
      m ← try_offset position b off;
      ms ← collect_movements position b rest;
      Ok (match m with Some p => p :: ms | None => ms end)
  end.

Definition get_movements (position : coord) (b : board) : result (list coord) :=
  collect_movements position b offsets.

(** ** pathfinding.get_euclidean_distance and the sort on it

    The source sorts on [((dr)**2 + (dc)**2) ** (1/2)], a float.  The square
    root is strictly increasing on the integers a board can produce, so the
    order, and the ties, are those of the squared distance, which is the key
    used here. *)

Definition sq_distance (a b : coord) : Z :=
  (a.1 - b.1) ^ 2 + (a.2 - b.2) ^ 2.

(** [sorted(l, key=...)]: a stable sort, as an insertion sort from the right *)
Fixpoint insert_by (key : coord -> Z) (x : coord) (l : list coord) : list coord :=
  match l with
  | [] => [x]
  | y :: ys => if key x <=? key y then x :: y :: ys else y :: insert_by key x ys
  end.

Definition sorted_by (key : coord -> Z) (l : list coord) : list coord :=
  foldr (insert_by key) [] l.

Definition coord_eqb (a b : coord) : bool := bool_decide (a = b).
Definition mem (x : coord) (l : list coord) : bool := bool_decide (x ∈ l).

(** ** pathfinding.find_path_len_with_a_star *)

(** The three locals of the search.  [open] is used as a stack
    ([append]/[pop]): the head of [st_open] is the last element of the Python
    list.  [close] is only tested for membership. *)
Record astar_state : Type := mk_astar {
  st_n_movements : gmap coord Z;
  st_open : list coord;
  st_close : list coord
}.

(** The [for movement in movements] loop after the goal test *)
Fixpoint relax (next_move_distance : Z) (movements : list coord) (st : astar_state)
  : astar_state :=
  match movements with
  | [] => st
  | movement :: rest =>
      let n' := <[movement := next_move_distance]> (st_n_movements st) in
      if mem movement (st_close st) || mem movement (st_open st)
      then relax next_move_distance rest (mk_astar n' (st_open st) (st_close st))
      else relax next_move_distance rest
             (mk_astar n' (movement :: st_open st) (st_close st))
  end.

(** One turn of the [while open] loop on a non-empty stack: [inl d] is
    [return d], [inr st] is the state at the end of the turn. *)
Definition astar_turn (b : board) (goal node : coord) (st : astar_state)
  : result (Z + astar_state) :=
  d ← of_option KeyError (st_n_movements st !! node);
  let next_move_distance := d + 1 in
  let close := node :: st_close st in
  movements ← get_movements node b;
  let movements := sorted_by (sq_distance goal) movements in
  first ← of_option IndexError (head movements);
  if coord_eqb goal first then Ok (inl next_move_distance)
  else Ok (inr (relax next_move_distance movements
                  (mk_astar (st_n_movements st) (st_open st) close))).

Fixpoint astar_loop (fuel : nat) (b : board) (goal : coord) (st : astar_state)
  : result Z :=
  match st_open st with
  | [] => Err NoPath
  | node :: rest =>
      match fuel with
      | O => Err FuelExhausted
      | S fuel' =>
          r ← astar_turn b goal node
                (mk_astar (st_n_movements st) rest (st_close st));
          match r with
          | inl d => Ok d
          | inr st' => astar_loop fuel' b goal st'
          end
      end
  end.

(** Every cell enters [open] at most once, and all but the start are inside
    the [len(board)] by [len(board[0])] rectangle: that many turns plus one
    are always enough (see [astar_fuel_enough]). *)
Definition astar_fuel (b : board) : nat :=
  S (length b * match b with [] => 0 | row0 :: _ => String.length row0 end)%nat.

Definition find_path_len_with_a_star (a goal : coord) (b : board) : result Z :=
  astar_loop (astar_fuel b) b goal (mk_astar {[ a := 0 ]} [a] []).

Example oracle_branching :
  find_path_len_with_a_star (0, 0) (0, 2) ["*.*"; "..."]%string = Ok 4.
Proof. vm_compute. reflexivity. Qed.

(** ** coin.Coin *)

(** The attribute [i] of the source is the field [coin_i]. *)
Record Coin : Type := mkCoin {
  coords : coord;
  coin_i : Z;
  step_distance : gmap coord Z
}.

(** [Coin.__eq__]: two coins are equal when their coordinates are *)
Definition coin_eqb (a b : Coin) : bool := coord_eqb (coords a) (coords b).

Definition set_step_distance (c : Coin) (k : coord) (distance : Z) : Coin :=
  mkCoin (coords c) (coin_i c) (<[k := distance]> (step_distance c)).

Definition get_step_distance (c : Coin) (k : coord) : result Z :=
  of_option KeyError (step_distance c !! k).

(** ** The scan of the board in [get_expected_length] *)

Fixpoint scan_row (row_idx column_idx : Z) (row : list ascii) (coins : list Coin)
  : list Coin :=
  match row with
  | [] => coins
  | column :: rest =>
      scan_row row_idx (column_idx + 1) rest
        (if is_char column coin_char
         then coins ++ [mkCoin (row_idx, column_idx) (Z.of_nat (length coins)) ∅]
         else coins)
  end.

Fixpoint scan_rows (row_idx : Z) (rows : board) (coins : list Coin) : list Coin :=
  match rows with
  | [] => coins
  | row :: rest =>
      scan_rows (row_idx + 1) rest
        (scan_row row_idx 0 (list_ascii_of_string row) coins)
  end.

Definition scan_board (b : board) : list Coin := scan_rows 0 b [].

(** ** pathfinding.set_coin_distances

    The coins are objects mutated in place; the list of records is the store,
    a coin being addressed by its position in [coins].  [coins[idx + 1:]]
    holds the same objects, so the inner loop is over the positions after
    [idx]. *)

Fixpoint set_distances_from (b : board) (idx : nat) (others : list nat)
    (coins : list Coin) : result (list Coin) :=
  match others with
  | [] => Ok coins
  | jdx :: rest =>
      coin_a ← of_option IndexError (coins !! idx);
      coin_b ← of_option IndexError (coins !! jdx);
      distance ← find_path_len_with_a_star (coords coin_a) (coords coin_b) b;
      let coins1 := <[idx := set_step_distance coin_a (coords coin_b) distance]> coins in
      coin_b' ← of_option IndexError (coins1 !! jdx);
      set_distances_from b idx rest
        (<[jdx := set_step_distance coin_b' (coords coin_a) distance]> coins1)
  end.

Fixpoint set_distances_loop (b : board) (idxs : list nat) (coins : list Coin)
  : result (list Coin) :=
  match idxs with
  | [] => Ok coins
  | idx :: rest =>
      coins' ← set_distances_from b idx
                 (seq (S idx) (length coins - S idx)) coins;
      set_distances_loop b rest coins'
  end.

Definition set_coin_distances (coins : list Coin) (b : board) : result (list Coin) :=
  set_distances_loop b (seq 0 (length coins)) coins.

(** ** memo.Memo *)

Module Memo.

Record t : Type := mk {
  total : Z;
  base : Z;
  memo : gmap (Z * Z) num
}.

(** [Memo.__init__] *)
Definition init (total : Z) : t := mk total (Z.shiftl 1 total) ∅.

Definition _get_state (m : t) (coin : Coin) (remaining : list Coin) : Z * Z :=
  (coin_i coin,
   fold_left (fun state rem_coin => Z.lor state (Z.shiftl 1 (coin_i rem_coin)))
     remaining (base m)).

(** [None] is Python's [None] *)
Definition get (m : t) (coin : Coin) (remaining : list Coin) : option num :=
  memo m !! _get_state m coin remaining.

Definition set (m : t) (coin : Coin) (remaining : list Coin) (distance : num) : t :=
  mk (total m) (base m) (<[_get_state m coin remaining := distance]> (memo m)).

End Memo.

(** ** pathfinding.traverse_graph_with_nn

    The [memo] argument is [None] or a reference to the shared [Memo]
    object.  [Memo] defines neither [__bool__] nor [__len__], so [if memo:]
    holds exactly when an object was passed.  The function returns its value
    together with the state the shared object is left in. *)

Definition solver : Type :=
  Coin -> list Coin -> option Memo.t -> num -> result (num * option Memo.t).

(** The locals updated by the [for idx, node in enumerate(remaining)] loop *)
Record nn_best : Type := mk_best {
  min_idx : nat;
  min_distance : num;
  min_step_distance : num;
  best_memo : option Memo.t
}.

Section nearest_neighbour.

(** The recursive call at [depth - 1], when [depth > 1] *)
Variable deeper : option solver.

Fixpoint nn_scan (current : Coin) (remaining : list Coin) (best_distance : num)
    (idx : nat) (todo : list Coin) (s : nn_best) : result nn_best :=
  match todo with
  | [] => Ok s
  | node :: rest =>
      node_distance ← get_step_distance node (coords current);
      if num_geb (Fin node_distance) best_distance
      then nn_scan current remaining best_distance (S idx) rest s
      else
        sub ← match deeper with
              | Some recurse =>
                  if (1 <? length remaining)%nat
                  then recurse node (take idx remaining ++ drop (S idx) remaining)
                         (best_memo s) (min_step_distance s)
                  else Ok (Fin 0, best_memo s)
              | None => Ok (Fin 0, best_memo s)
              end;
        let step_distance := num_add (Fin node_distance) sub.1 in
        nn_scan current remaining best_distance (S idx) rest
          (if num_ltb step_distance (min_step_distance s)
           then mk_best idx (Fin node_distance) step_distance sub.2
           else mk_best (min_idx s) (min_distance s) (min_step_distance s) sub.2)
  end.

(** The [while remaining] loop and the code after it.  Each turn pops one
    coin, so [length remaining] turns are enough. *)
Fixpoint nn_while (fuel : nat) (current : Coin) (remaining : list Coin)
    (memo : option Memo.t) (best_distance : num) (distance : num)
    (path : list Coin) : result (num * option Memo.t) :=
  match remaining with
  | [] =>
      match memo, path with
      | Some m, first :: visited => Ok (distance, Some (Memo.set m first visited distance))
      | Some m, [] => Err IndexError
      | None, _ => Ok (distance, None)
      end
  | _ :: _ =>
      match memo ≫= (fun m => Memo.get m current remaining) with
      | Some memoized => Ok (num_add distance memoized, memo)
      | None =>
          match fuel with
          | O => Err FuelExhausted
          | S fuel' =>
              s ← nn_scan current remaining best_distance 0 remaining
                    (mk_best 0 Inf Inf memo);
              next ← of_option IndexError (remaining !! min_idx s);
              nn_while fuel' next (delete (min_idx s) remaining) (best_memo s)
                best_distance (num_add distance (min_distance s))
                (match memo with Some _ => path ++ [next] | None => path end)
          end
      end
  end.

End nearest_neighbour.

(** [depth] is a natural number: a call with [depth <= 1] never recurses, so
    a negative depth behaves as [0]. *)
Fixpoint traverse_graph_with_nn (current : Coin) (remaining : list Coin)
    (memo : option Memo.t) (depth : nat) (best_distance : num) {struct depth}
  : result (num * option Memo.t) :=
  nn_while
    (match depth with
     | S d => match d with
              | S _ => Some (fun c r m bd => traverse_graph_with_nn c r m d bd)
              | O => None
              end
     | O => None
     end)
    (length remaining) current remaining memo best_distance (Fin 0) [current].

(** ** pathfinding.get_expected_length *)

(** [itertools.combinations(l, r)] for [r >= 0]: the sub-sequences of length
    [r], in lexicographic order of positions *)
Fixpoint combinations {A : Type} (l : list A) (r : nat) : list (list A) :=
  match r with
  | O => [[]]
  | S r' =>
      match l with
      | [] => []
      | x :: xs => map (cons x) (combinations xs r') ++ combinations xs r
      end
  end.

(** [min] keeps the first of equal smallest values *)
Definition min_update (acc : option num) (v : num) : option num :=
  match acc with
  | None => Some v
  | Some a => if num_ltb v a then Some v else Some a
  end.

(** The generator consumed by [min]: one solver call per [idx in range(K)],
    in order, on the shared memo *)
Fixpoint best_len_loop (combination : list Coin) (idxs : list nat)
    (memo : option Memo.t) (acc : option num) : result (option num * option Memo.t) :=
  match idxs with
  | [] => Ok (acc, memo)
  | idx :: rest =>
      current ← of_option IndexError (combination !! idx);
      r ← traverse_graph_with_nn current
            (take idx combination ++ drop (S idx) combination) memo 2 Inf;
      best_len_loop combination rest r.2 (min_update acc r.1)
  end.

Definition best_len (combination : list Coin) (K : nat) (memo : option Memo.t)
  : result (num * option Memo.t) :=
  r ← best_len_loop combination (seq 0 K) memo None;
  v ← of_option EmptySequence r.1;
  Ok (v, r.2).

(** The [for combination in combinations(coins, K)] loop *)
Fixpoint path_lengths_loop (combs : list (list Coin)) (K : nat)
    (memo : option Memo.t) (path_lenghts : list num) : result (list num) :=
  match combs with
  | [] => Ok path_lenghts
  | combination :: rest =>
      r ← best_len combination K memo;
      path_lengths_loop rest K r.2 (path_lenghts ++ [r.1])
  end.

(** The value of a Python float that is an exact quotient of integers, or
    infinity.  The rounding of [/] to a double is not modelled. *)
Inductive pyfloat : Set :=
| Ratio (q : Q)
| FloatInf.

Definition num_sum (l : list num) : num := fold_left num_add l (Fin 0).

(** [sum(l) / len(l)] *)
Definition mean (l : list num) : result pyfloat :=
  match l with
  | [] => Err ZeroDivisionError
  | _ :: _ =>
      match num_sum l with
      | Fin s => Ok (Ratio (Qmake s (Pos.of_nat (length l))))
      | Inf => Ok FloatInf
      end
  end.

Definition get_expected_length (b : board) (K : Z) : result pyfloat :=
  coins ← set_coin_distances (scan_board b) b;
  let memo := Memo.init (Z.of_nat (length coins)) in
  if K <? 0 then Err NegativeR
  else
    path_lenghts ← path_lengths_loop (combinations coins (Z.to_nat K)) (Z.to_nat K)
                      (Some memo) [];
    mean path_lenghts.

Example expected_two_adjacent : get_expected_length ["**"]%string 2 = Ok (Ratio (Qmake 1 1)).
Proof. vm_compute. reflexivity. Qed.

Example expected_gap_one : get_expected_length ["*.*"]%string 2 = Ok (Ratio (Qmake 2 1)).
Proof. vm_compute. reflexivity. Qed.

Example expected_walled : get_expected_length ["*#*"]%string 2 = Err IndexError.
Proof. vm_compute. reflexivity. Qed.

Example expected_walled_right : get_expected_length ["*.#*"]%string 2 = Err NoPath.
Proof. vm_compute. reflexivity. Qed.

(** ** alternatives.brute_force_find_graph_subset_distance *)

(** [itertools.permutations(l)]: every ordering, in lexicographic order of
    positions; [n] is the number of elements still to place *)
Fixpoint permutations_of_length {A : Type} (n : nat) (l : list A) : list (list A) :=
  match n with
  | O => [[]]
  | S n' =>
      flat_map
        (fun i => match l !! i with
                  | Some x => map (cons x) (permutations_of_length n' (delete i l))
                  | None => []
                  end)
        (seq 0 (length l))
  end.

Definition itertools_permutations {A : Type} (l : list A) : list (list A) :=
  permutations_of_length (length l) l.

(** [sum(p[i].get_step_distance(p[i + 1].coords) for i in range(len(p) - 1))] *)
Fixpoint path_distance (permutation : list Coin) : result Z :=
  match permutation with
  | a :: rest =>
      match rest with
      | b :: _ =>
          d ← get_step_distance a (coords b);
          s ← path_distance rest;
          Ok (d + s)
      | [] => Ok 0
      end
  | [] => Ok 0
  end.

Fixpoint brute_force_loop (perms : list (list Coin)) (best_distance : num) : result num :=
  match perms with
  | [] => Ok best_distance
  | permutation :: rest =>
      distance ← path_distance permutation;
      brute_force_loop rest
        (if num_ltb (Fin distance) best_distance then Fin distance else best_distance)
  end.

Definition brute_force_find_graph_subset_distance (coins : list Coin) : result num :=
  brute_force_loop (itertools_permutations coins) Inf.

(** ** alternatives.held_karp_algorithm_for_shortest_distance *)

(** [distance_by_state], keyed by [(state, coin_idx)] *)
Abbreviation hk_table := (gmap (Z * nat) Z).

Definition bit (idx : nat) : Z := Z.shiftl 1 (Z.of_nat idx).

(** The first loop: the distance from the start to each coin *)
Fixpoint hk_init (start : Coin) (base_state : Z) (coin_idx : nat) (coins : list Coin)
    (distance_by_state : hk_table) : result hk_table :=
  match coins with
  | [] => Ok distance_by_state
  | coin :: rest =>
      d ← get_step_distance coin (coords start);
      hk_init start base_state (S coin_idx) rest
        (<[(Z.lor base_state (bit coin_idx), coin_idx) := d]> distance_by_state)
  end.

Fixpoint mapM {A B : Type} (f : A -> result B) (l : list A) : result (list B) :=
  match l with
  | [] => Ok []
  | x :: xs => y ← f x; ys ← mapM f xs; Ok (y :: ys)
  end.

Definition transition_row (coins : list Coin) (coin_a : Coin) : result (list Z) :=
  mapM (fun coin_b => if negb (coin_eqb coin_a coin_b)
                      then get_step_distance coin_a (coords coin_b)
                      else Ok 0) coins.

Definition build_transition_matrix (coins : list Coin) : result (list (list Z)) :=
  mapM (transition_row coins) coins.

(** [min] of a generator of ints, each of which may raise *)
Fixpoint min_of (l : list (result Z)) (acc : option Z) : result Z :=
  match l with
  | [] => of_option EmptySequence acc
  | r :: rest =>
      v ← r;
      min_of rest (match acc with
                   | None => Some v
                   | Some a => if v <? a then Some v else Some a
                   end)
  end.

Definition matrix_at (transition_matrix : list (list Z)) (r c : nat) : result Z :=
  row ← of_option IndexError (transition_matrix !! r);
  of_option IndexError (row !! c).

(** The body of [for coin_idx in coin_idx_subset] *)
Definition hk_relax (transition_matrix : list (list Z)) (final_state : Z)
    (coin_idx_subset : list nat) (coin_idx : nat) (distance_by_state : hk_table)
  : result hk_table :=
  let subset_state := Z.land final_state (Z.lnot (bit coin_idx)) in
  let other_idxs := filter (fun idx => idx ≠ coin_idx) coin_idx_subset in
  best ← min_of
           (map (fun terminal_idx =>
                   d ← of_option KeyError
                         (distance_by_state !! (subset_state, terminal_idx));
                   t ← matrix_at transition_matrix terminal_idx coin_idx;
                   Ok (d + t))
                other_idxs) None;
  Ok (<[(final_state, coin_idx) := best]> distance_by_state).

Fixpoint hk_subset (transition_matrix : list (list Z)) (final_state : Z)
    (coin_idx_subset : list nat) (todo : list nat) (distance_by_state : hk_table)
  : result hk_table :=
  match todo with
  | [] => Ok distance_by_state
  | coin_idx :: rest =>
      t' ← hk_relax transition_matrix final_state coin_idx_subset coin_idx
             distance_by_state;
      hk_subset transition_matrix final_state coin_idx_subset rest t'
  end.

Definition subset_state_of (base_state : Z) (coin_idx_subset : list nat) : Z :=
  fold_left (fun st coin_idx => Z.lor st (bit coin_idx)) coin_idx_subset base_state.

(** The body of [for n_coins in range(2, len(coins) + 1)] *)
Fixpoint hk_subsets (transition_matrix : list (list Z)) (base_state : Z)
    (subsets : list (list nat)) (distance_by_state : hk_table) : result hk_table :=
  match subsets with
  | [] => Ok distance_by_state
  | coin_idx_subset :: rest =>
      t' ← hk_subset transition_matrix
             (subset_state_of base_state coin_idx_subset)
             coin_idx_subset coin_idx_subset distance_by_state;
      hk_subsets transition_matrix base_state rest t'
  end.

Fixpoint hk_sizes (transition_matrix : list (list Z)) (base_state : Z)
    (coin_idxs : list nat) (sizes : list nat) (distance_by_state : hk_table)
  : result hk_table :=
  match sizes with
  | [] => Ok distance_by_state
  | n_coins :: rest =>
      t' ← hk_subsets transition_matrix base_state
             (combinations coin_idxs n_coins) distance_by_state;
      hk_sizes transition_matrix base_state coin_idxs rest t'
  end.

Definition held_karp_algorithm_for_shortest_distance (start : Coin) (coins : list Coin)
  : result Z :=
  let base_state := Z.shiftl 1 (Z.of_nat (length coins)) in
  let coin_idxs := seq 0 (length coins) in
  t0 ← hk_init start base_state 0 coins ∅;
  transition_matrix ← build_transition_matrix coins;
  t ← hk_sizes transition_matrix base_state coin_idxs
        (seq 2 (length coins - 1)) t0;
  let final_state := Z.shiftl 1 (Z.of_nat (length coins) + 1) - 1 in
  min_of (map (fun idx => of_option KeyError (t !! (final_state, idx))) coin_idxs) None.

(** ** alternatives.find_starting_node *)

Abbreviation edge := (Coin * Coin)%type.

(** The locals of the first pair of loops *)
Record edge_scan : Type := mk_edge_scan {
  smallest_distance : num;
  edges : list edge
}.

Definition num_eqb (x y : num) : bool :=
  match x, y with
  | Fin a, Fin b => a =? b
  | Inf, Inf => true
  | _, _ => false
  end.

(** The loop [for ch_b in coins[idx + 1:]] *)
Fixpoint scan_edges_from (ch_a : Coin) (others : list Coin) (s : edge_scan)
  : result edge_scan :=
  match others with
  | [] => Ok s
  | ch_b :: rest =>
      distance ← get_step_distance ch_a (coords ch_b);
      scan_edges_from ch_a rest
        (if num_ltb (Fin distance) (smallest_distance s)
         then mk_edge_scan (Fin distance) [(ch_a, ch_b)]
         else if num_eqb (Fin distance) (smallest_distance s)
              then mk_edge_scan (smallest_distance s) (edges s ++ [(ch_a, ch_b)])
              else s)
  end.

(** The loop [for idx, ch_a in enumerate(coins)]; [todo] is [coins[idx:]] *)
Fixpoint scan_edges (todo : list Coin) (s : edge_scan) : result edge_scan :=
  match todo with
  | [] => Ok s
  | ch_a :: rest =>
      s' ← scan_edges_from ch_a rest s;
      scan_edges rest s'
  end.

(** [node in edge] *)
Definition in_edge (node : Coin) (e : edge) : bool :=
  coin_eqb e.1 node || coin_eqb e.2 node.

(** The loop [for node in other_nodes] *)
Fixpoint min_cost_to (coin : Coin) (other_nodes : list Coin) (coin_min_cost : num)
  : result num :=
  match other_nodes with
  | [] => Ok coin_min_cost
  | node :: rest =>
      cost ← get_step_distance coin (coords node);
      min_cost_to coin rest
        (if num_ltb (Fin cost) coin_min_cost then Fin cost else coin_min_cost)
  end.

(** The locals of the second pair of loops *)
Record cost_scan : Type := mk_cost_scan {
  max_cost_node : Coin;
  max_cost : num
}.

(** The loop [for coin in edge] *)
Fixpoint scan_endpoints (endpoints : list Coin) (other_nodes : list Coin)
    (s : cost_scan) : result cost_scan :=
  match endpoints with
  | [] => Ok s
  | coin :: rest =>
      coin_min_cost ← min_cost_to coin other_nodes Inf;
      scan_endpoints rest other_nodes
        (if num_ltb (max_cost s) coin_min_cost
         then mk_cost_scan coin coin_min_cost
         else s)
  end.

(** The loop [for edge in edges] *)
Fixpoint scan_costs (coins : list Coin) (es : list edge) (s : cost_scan)
  : result cost_scan :=
  match es with
  | [] => Ok s
  | e :: rest =>
      let other_nodes := filter (fun node => in_edge node e = false) coins in
      s' ← scan_endpoints [e.1; e.2] other_nodes s;
      scan_costs coins rest s'
  end.

Definition find_starting_node (coins : list Coin) : result Coin :=
  s ← scan_edges coins (mk_edge_scan Inf []);
  first ← of_option IndexError (head (edges s));
  r ← scan_costs coins (edges s) (mk_cost_scan first.1 (Fin 0));
  Ok (max_cost_node r).

(** * The vocabulary of the properties

    Walks, populated coins, corridors, routes and the other notions the
    properties below are stated with. *)

(** A cell one can stand on: inside the board and not a wall *)
Definition free (b : board) (p : coord) : Prop :=
  exists row ch,
    0 <= p.1 /\ 0 <= p.2 /\
    b !! Z.to_nat p.1 = Some row /\
    String.get (Z.to_nat p.2) row = Some ch /\
    ch <> wall.

(** One move up, down, left or right *)
Definition unit_move (p q : coord) : Prop :=
  exists off, off ∈ offsets /\ q = (p.1 + off.1, p.2 + off.2).

(** [walk b a x n]: [x] is reached from [a] in [n] unit moves, each into a
    free cell *)
Inductive walk (b : board) (a : coord) : coord -> Z -> Prop :=
| walk_here : walk b a a 0
| walk_move x y n : walk b a x n -> unit_move x y -> free b y -> walk b a y (n + 1).

(** The true step distance: the length of a shortest walk *)
Definition shortest_distance (b : board) (a x : coord) (d : Z) : Prop :=
  walk b a x d /\ forall n, walk b a x n -> d <= n.

(** Every recorded count is the length of a walk from the start *)
Definition walks_recorded (b : board) (a : coord) (n_movements : gmap coord Z) : Prop :=
  forall x d, n_movements !! x = Some d -> walk b a x d.

(** Two coins two steps apart, with an open row below them *)
Definition fork_board : board := ["*.*"; "..."]%string.

(** [len(board[0])], and [0] for the empty board *)
Definition board_width (b : board) : nat :=
  match b with [] => 0%nat | row0 :: _ => String.length row0 end.

(** The cells of the [len(board)] by [len(board[0])] rectangle *)
Definition rect_cells (b : board) : list coord :=
  list_prod (seqZ 0 (len_board b)) (seqZ 0 (Z.of_nat (board_width b))).

(** What holds of the stack and the closed list at the head of the loop *)
Record astar_inv (b : board) (a : coord) (st : astar_state) : Prop := mk_astar_inv {
  inv_nodup : NoDup (st_open st ++ st_close st);
  inv_cells : forall x, x ∈ st_open st ++ st_close st -> x ∈ a :: rect_cells b;
  inv_keys : forall x, x ∈ st_open st -> is_Some (st_n_movements st !! x)
}.

(** The outcomes the Python function can have: a count, [NoPath] or
    [IndexError].  In particular the budget of the model is never the reason
    to stop, and no cell is looked up before it is recorded. *)
Definition python_outcome (r : result Z) : Prop :=
  match r with
  | Ok _ => True
  | Err e => e = NoPath \/ e = IndexError
  end.

(** [p] comes before the cell [(r, c)] in reading order *)
Definition before (r c : Z) (p : coord) : Prop :=
  p.1 < r \/ (p.1 = r /\ p.2 < c).

(** What holds of the coins found so far *)
Record scan_inv (r c : Z) (coins : list Coin) : Prop := mk_scan_inv {
  scan_nodup : NoDup (map coords coins);
  scan_before : Forall (fun k => before r c (coords k)) coins;
  scan_index : forall k ck, coins !! k = Some ck -> coin_i ck = Z.of_nat k;
  scan_empty : Forall (fun k => step_distance k = ∅) coins
}.

(** The coins of [cs] have pairwise distinct cells, and every coin holds a
    distance of at least 1 to every other, the same in both directions *)
Record populated (cs : list Coin) : Prop := mk_populated {
  pop_distinct : NoDup (map coords cs);
  pop_distance : forall a c, a ∈ cs -> c ∈ cs -> coords a <> coords c ->
    exists d, step_distance a !! coords c = Some d /\
              step_distance c !! coords a = Some d /\ 1 <= d
}.

(** The coins of a board once their distances are set; [[]] if the pass
    raises *)
Definition coins_of_board (b : board) : list Coin :=
  match set_coin_distances (scan_board b) b with
  | Ok coins => coins
  | Err _ => []
  end.

(** The two coins of [fork_board], each holding the distance 4 *)
Definition fork_coins : list Coin := Eval vm_compute in coins_of_board fork_board.

(** A board whose first coin has a wall as its only neighbour *)
Definition walled_board : board := ["*#*"]%string.

(** Five coins on a board with an open area above them *)
Definition memo_board : board := ["..."; "**."; "***"]%string.

(** The five coins of [memo_board] with their distances *)
Definition memo_coins : list Coin := Eval vm_compute in coins_of_board memo_board.

(** The test of [get_movements] on a cell, as a boolean: inside the board
    and not a wall *)
Definition walkable (b : board) (p : coord) : bool :=
  (0 <=? p.1) && (0 <=? p.2) &&
  match b !! Z.to_nat p.1 with
  | Some row =>
      match String.get (Z.to_nat p.2) row with
      | Some ch => negb (is_char ch wall)
      | None => false
      end
  | None => false
  end.

(** All the rows are as long as the first one *)
Definition rectangular (b : board) : Prop :=
  Forall (fun row => String.length row = board_width b) b.

(** The cell reached from [p] by the offset [off] *)
Definition shift (p off : coord) : coord := (p.1 + off.1, p.2 + off.2).

(** The free neighbours of a cell, in the order of the offsets *)
Definition moves_of (b : board) (p : coord) : list coord :=
  List.filter (walkable b) (map (shift p) offsets).

(** The cell [k] steps from [p] in the direction [dir] *)
Definition cell_on (p dir : coord) (k : Z) : coord :=
  (p.1 + k * dir.1, p.2 + k * dir.2).

(** The board holds exactly two coins, at [p] and [L + 1] steps further to
    the right or down; the cells between them are free; the cells beside the
    first coin and beside the cells between, and the cell behind the first
    coin, are walls or outside the board. *)
Record corridor (b : board) (p dir : coord) (L : Z) : Prop := mk_corridor {
  cor_dir : dir = (0, 1) \/ dir = (1, 0);
  cor_len : 0 <= L;
  cor_rect : rectangular b;
  cor_coins : map coords (scan_board b) = [p; cell_on p dir (L + 1)];
  cor_free : forall k, 0 <= k <= L + 1 -> walkable b (cell_on p dir k) = true;
  cor_sides : forall k, 0 <= k <= L ->
    walkable b (shift (cell_on p dir k) (dir.2, dir.1)) = false /\
    walkable b (shift (cell_on p dir k) (- dir.2, - dir.1)) = false;
  cor_behind : walkable b (cell_on p dir (-1)) = false
}.


(** The distance coin [a] holds for the cell of coin [c] ([0] if none) *)
Definition dist (a c : Coin) : Z := default 0 (step_distance a !! coords c).

(** The length of the route [current], [perm[0]], [perm[1]], ..., each hop
    read, as the solver reads it, from the coin arrived at *)
Fixpoint tour_length (current : Coin) (perm : list Coin) : Z :=
  match perm with
  | [] => 0
  | x :: rest => dist x current + tour_length x rest
  end.

(** The number of [k]-combinations of [n] things, by Pascal's rule *)
Fixpoint choose (n k : nat) : nat :=
  match k with
  | O => 1
  | S k' =>
      match n with
      | O => 0
      | S n' => choose n' k' + choose n' k
      end
  end.

(** The smallest value of a list, [None] for the empty list *)
Fixpoint smallest (l : list num) : option num :=
  match l with
  | [] => None
  | x :: rest =>
      match smallest rest with
      | None => Some x
      | Some m => Some (if num_ltb m x then m else x)
      end
  end.

(** The description of the aggregator, first half: for each coin of the
    combination as a start, one call of the solver on that coin and on the
    other coins, on the memo shared by the whole run *)
Fixpoint solver_results (combination : list Coin) (idxs : list nat)
    (memo : option Memo.t) : result (list num * option Memo.t) :=
  match idxs with
  | [] => Ok ([], memo)
  | idx :: rest =>
      current ← of_option IndexError (combination !! idx);
      r ← traverse_graph_with_nn current (delete idx combination) memo 2 Inf;
      rs ← solver_results combination rest r.2;
      Ok (r.1 :: rs.1, rs.2)
  end.

(** Second half: the tour length of a combination is the smallest of the
    results of its starts *)
Fixpoint tour_lengths (combs : list (list Coin)) (K : nat) (memo : option Memo.t)
  : result (list num) :=
  match combs with
  | [] => Ok []
  | combination :: rest =>
      rs ← solver_results combination (seq 0 K) memo;
      shortest ← of_option EmptySequence (smallest rs.1);
      others ← tour_lengths rest K rs.2;
      Ok (shortest :: others)
  end.



(** The length of the route that starts at [start] and visits the coins of
    [ro] from the last element to the first: the head of [ro] is where the
    route ends.  Hops are read as the exact solver reads them: the first
    from the coin arrived at, the others from the coin left. *)
Fixpoint rcost (start : Coin) (ro : list Coin) : Z :=
  match ro with
  | [] => 0
  | c :: rest =>
      match rest with
      | [] => dist c start
      | c' :: _ => rcost start rest + dist c' c
      end
  end.

(** The length of the path through [p] in order, each hop read from the
    coin left: the sum of [brute_force_find_graph_subset_distance] *)
Fixpoint path_len (p : list Coin) : Z :=
  match p with
  | a :: rest =>
      match rest with
      | c :: _ => dist a c + path_len rest
      | [] => 0
      end
  | [] => 0
  end.

(** Three coins in a row *)
Definition row_board : board := ["***"]%string.

(** The three coins of [row_board] with their distances *)
Definition row_coins : list Coin := Eval vm_compute in coins_of_board row_board.

#[global] Instance num_eq_dec : EqDecision num.
Proof. solve_decision. Defined.

(** The pairs of coins, earlier coin first, in the order the two loops
    meet them *)
Fixpoint all_pairs (l : list Coin) : list edge :=
  match l with
  | [] => []
  | a :: rest => map (pair a) rest ++ all_pairs rest
  end.

(** The distance of a pair, read from its first coin *)
Definition edge_dist (e : edge) : Z := dist e.1 e.2.

(** The smaller of two numbers *)
Definition num_min (x y : num) : num := if num_ltb x y then x else y.

(** The smallest of a list, infinite for the empty list *)
Definition num_min_list (l : list num) : num := foldr num_min Inf l.

(** The coins outside a pair *)
Definition outside (coins : list Coin) (e : edge) : list Coin :=
  filter (fun node => in_edge node e = false) coins.

(** The score of an endpoint [c] of the pair [e]: its smallest distance to
    a coin outside the pair *)
Definition score (coins : list Coin) (e : edge) (c : Coin) : num :=
  num_min_list (map (fun node => Fin (dist c node)) (outside coins e)).

(** The endpoints of the pairs with their scores, in order *)
Definition candidates (coins : list Coin) (es : list edge) : list (Coin * num) :=
  flat_map (fun e => [(e.1, score coins e e.1); (e.2, score coins e e.2)]) es.

(** [(r, s)] is the first candidate with the largest score *)
Definition first_max (cands : list (Coin * num)) (r : Coin) (s : num) : Prop :=
  exists k, cands !! k = Some (r, s) /\
    (forall k' c' s', cands !! k' = Some (c', s') -> num_le s' s) /\
    (forall k' c' s', (k' < k)%nat -> cands !! k' = Some (c', s') -> num_lt s' s).

(** One candidate met by the second pair of loops *)
Definition cost_step (st : cost_scan) (cand : Coin * num) : cost_scan :=
  if num_ltb (max_cost st) cand.2 then mk_cost_scan cand.1 cand.2 else st.

(** What holds of the locals of the second pair of loops once the
    candidates of [pre] have been met *)
Definition cost_inv (pre : list (Coin * num)) (st : cost_scan) : Prop :=
  (pre = [] /\ max_cost st = Fin 0) \/
  first_max pre (max_cost_node st) (max_cost st).

(** [a] has no free neighbour *)
Definition isolated (b : board) (a : coord) : Prop :=
  forall q, unit_move a q -> ~ free b q.

(** What the search has established at the head of the loop: the start has
    been seen, the neighbours of a closed cell have all been seen, no closed
    cell is next to the goal, and every seen cell is free and, the start
    apart, has a free neighbour. *)
Record search_inv (b : board) (a goal : coord) (st : astar_state) : Prop :=
  mk_search_inv {
  si_start : a ∈ st_open st ++ st_close st;
  si_closed : forall x y, x ∈ st_close st -> y ∈ moves_of b x ->
    y ∈ st_open st ++ st_close st;
  si_goal : forall x, x ∈ st_close st -> goal ∉ moves_of b x;
  si_free : forall x, x ∈ st_open st ++ st_close st -> free b x;
  si_parent : forall x, x ∈ st_open st ++ st_close st ->
    x = a \/ moves_of b x <> []
}.

(** A coin, a free cell, a wall and a coin on one row *)
Definition split_board : board := ["*.#*"]%string.

(** A board whose second row is shorter than the first *)
Definition ragged_board : board := ["**"; "*"]%string.

(** The cell [p] of the board holds a coin *)
Definition coin_cell (b : board) (p : coord) : Prop :=
  exists row,
    0 <= p.1 /\ 0 <= p.2 /\
    b !! Z.to_nat p.1 = Some row /\
    String.get (Z.to_nat p.2) row = Some coin_char.

(** Reading order: row by row, and from left to right in a row *)
Definition reading_lt (p q : coord) : Prop :=
  p.1 < q.1 \/ (p.1 = q.1 /\ p.2 < q.2).

(** The coins are listed in reading order *)
Definition reading_sorted (coins : list Coin) : Prop :=
  forall i j ci cj,
    coins !! i = Some ci -> coins !! j = Some cj -> (i < j)%nat ->
    reading_lt (coords ci) (coords cj).

(** Every coin cell can be walked to from every other *)
Definition connected (b : board) : Prop :=
  forall p q, coin_cell b p -> coin_cell b q -> exists n, walk b p q n.

(** The two lists of coins carry the same indices, in any order and any
    number of times *)
Definition same_indices (r r' : list Coin) : Prop :=
  forall i, i ∈ map coin_i r <-> i ∈ map coin_i r'.

(** The indices of the coins are those a [Memo(total)] is made for *)
Definition indexed_below (total : Z) (r : list Coin) : Prop :=
  Forall (fun c => 0 <= coin_i c < total) r.

(** A memo as [Memo.__init__] builds it and [Memo.set] keeps it *)
Definition memo_wf (m : Memo.t) : Prop :=
  0 <= Memo.total m /\ Memo.base m = Z.shiftl 1 (Memo.total m).

(** [Coin((0, i), i)]: a coin as its constructor leaves it *)
Definition bare_coin (i : Z) : Coin := mkCoin (0, i) i ∅.

(** * Properties *)

(** ** The error monad *)

Lemma bind_Ok {A B : Type} (m : result A) (f : A -> result B) (v : B) :
  m ≫= f = Ok v -> exists a, m = Ok a /\ f a = Ok v.
Proof. destruct m as [a|e]; simpl; [eauto | discriminate]. Qed.

Lemma bind_Err {A B : Type} (m : result A) (f : A -> result B) (e : error) :
  m ≫= f = Err e -> m = Err e \/ exists a, m = Ok a /\ f a = Err e.
Proof. destruct m as [a|e']; simpl; [eauto | left; congruence]. Qed.

Lemma of_option_Ok {A : Type} (e : error) (o : option A) (a : A) :
  of_option e o = Ok a -> o = Some a.
Proof. destruct o; simpl; congruence. Qed.

(** Splits a hypothesis [x ← m; k = Ok v] into its two halves. *)
Ltac inv_bind H :=
  let a := fresh "a" in
  let Ha := fresh "H" a in
  apply bind_Ok in H; destruct H as (a & Ha & H).

Tactic Notation "split_bind" hyp(H) "as" ident(a) ident(Ha) :=
  apply bind_Ok in H; destruct H as (a & Ha & H).

(** ** Walks on the board *)

Lemma walk_nonneg b a x n : walk b a x n -> 0 <= n.
Proof. induction 1; lia. Qed.

Lemma walk_cells_free b a x n : free b a -> walk b a x n -> free b x.
Proof. intros Ha Hw. destruct Hw; assumption. Qed.

Lemma unit_move_manhattan p q :
  unit_move p q -> Z.abs (q.1 - p.1) + Z.abs (q.2 - p.2) = 1.
Proof.
  intros (off & Hin & ->). unfold offsets in Hin.
  repeat (apply elem_of_cons in Hin as [-> | Hin]); simpl; try lia.
  by apply elem_of_nil in Hin.
Qed.

Lemma walk_manhattan b a x n :
  walk b a x n -> Z.abs (x.1 - a.1) + Z.abs (x.2 - a.2) <= n.
Proof.
  induction 1 as [|x y n Hw IH Hm Hf]; [lia|].
  apply unit_move_manhattan in Hm. lia.
Qed.

(** ** get_movements *)

Lemma try_offset_sound position b off q :
  off ∈ offsets ->
  try_offset position b off = Ok (Some q) ->
  unit_move position q /\ free b q /\
  0 <= q.1 < len_board b /\
  0 <= q.2 < match b with [] => 0 | row0 :: _ => len_str row0 end.
Proof.
  intros Hoff H. unfold try_offset in H.
  destruct (_ || _) eqn:Hrow; [discriminate|].
  apply orb_false_iff in Hrow as [Hr1 Hr2].
  destruct (_ <? 0) eqn:Hc1 in H; [discriminate|].
  inv_bind H. destruct (_ >=? _) eqn:Hc2 in H; [discriminate|].
  inv_bind H. inv_bind H.
  destruct (is_char a1 wall) eqn:Hw; [discriminate|].
  injection H as <-. simpl.
  apply of_option_Ok in Ha, Ha0, Ha1.
  assert (Hb : exists row0 rest, b = row0 :: rest /\ a = row0).
  { destruct b as [|row0 rest]; [discriminate|]. simpl in Ha.
    injection Ha as <-. eauto. }
  destruct Hb as (row0 & rest & -> & ->).
  split; [by exists off|]. split.
  - exists a0, a1. simpl. repeat split; try lia; try assumption.
    intros ->. unfold is_char in Hw. by rewrite Ascii.eqb_refl in Hw.
  - lia.
Qed.

Lemma collect_movements_sound position b offs ms :
  (forall off, off ∈ offs -> off ∈ offsets) ->
  collect_movements position b offs = Ok ms ->
  forall q, q ∈ ms ->
    unit_move position q /\ free b q /\
    0 <= q.1 < len_board b /\
    0 <= q.2 < match b with [] => 0 | row0 :: _ => len_str row0 end.
Proof.
  revert ms. induction offs as [|off rest IH]; intros ms Hsub H q Hq; simpl in H.
  - injection H as <-. by apply elem_of_nil in Hq.
  - inv_bind H. inv_bind H. injection H as <-.
    assert (Hrest : forall o, o ∈ rest -> o ∈ offsets)
      by (intros o Ho; apply Hsub; by right).
    destruct a as [p|].
    + apply elem_of_cons in Hq as [-> | Hq].
      * eapply try_offset_sound; [apply Hsub; by left | eassumption].
      * by eapply IH.
    + by eapply IH.
Qed.

Lemma get_movements_sound position b ms :
  get_movements position b = Ok ms ->
  forall q, q ∈ ms ->
    unit_move position q /\ free b q /\
    0 <= q.1 < len_board b /\
    0 <= q.2 < match b with [] => 0 | row0 :: _ => len_str row0 end.
Proof. apply collect_movements_sound. auto. Qed.

(** ** The sort keeps the elements *)

Lemma insert_by_perm key x l : insert_by key x l ≡ₚ x :: l.
Proof.
  induction l as [|y ys IH]; simpl; [done|].
  destruct (key x <=? key y); [done|].
  rewrite IH. apply Permutation_swap.
Qed.

Lemma sorted_by_perm key l : sorted_by key l ≡ₚ l.
Proof.
  induction l as [|x xs IH]; simpl; [done|].
  unfold sorted_by in IH. rewrite insert_by_perm. by rewrite IH.
Qed.

Lemma elem_of_sorted_by key l q : q ∈ sorted_by key l <-> q ∈ l.
Proof. by rewrite sorted_by_perm. Qed.

(** ** The oracle only reports lengths of walks *)

Lemma relax_open_close d movements st :
  st_close (relax d movements st) = st_close st.
Proof.
  revert st. induction movements as [|m rest IH]; intros st; simpl; [done|].
  destruct (_ || _); by rewrite IH.
Qed.

Lemma relax_walks b a node d movements st :
  walk b a node d ->
  (forall q, q ∈ movements -> unit_move node q /\ free b q) ->
  walks_recorded b a (st_n_movements st) ->
  walks_recorded b a (st_n_movements (relax (d + 1) movements st)).
Proof.
  intros Hnode. revert st.
  induction movements as [|m rest IH]; intros st Hms Hrec; simpl; [done|].
  assert (Hrec' : walks_recorded b a (<[m := d + 1]> (st_n_movements st))).
  { intros x dx. rewrite lookup_insert. case_decide as Hx.
    - intros [= <-]. subst x. destruct (Hms m) as [Hmv Hfr]; [by left|].
      by eapply walk_move.
    - apply Hrec. }
  assert (Hrest : forall q, q ∈ rest -> unit_move node q /\ free b q)
    by (intros q Hq; apply Hms; by right).
  destruct (_ || _); by apply IH.
Qed.

Lemma astar_turn_sound b a goal node st r :
  walks_recorded b a (st_n_movements st) ->
  astar_turn b goal node st = Ok r ->
  match r with
  | inl d => walk b a goal d /\ 1 <= d
  | inr st' => walks_recorded b a (st_n_movements st')
  end.
Proof.
  intros Hrec H. unfold astar_turn in H.
  inv_bind H. apply of_option_Ok in Ha0. apply Hrec in Ha0 as Hnode.
  inv_bind H. inv_bind H. apply of_option_Ok in Ha2.
  assert (Hms : forall q, q ∈ sorted_by (sq_distance goal) a1 ->
                          unit_move node q /\ free b q).
  { intros q Hq. apply elem_of_sorted_by in Hq.
    destruct (get_movements_sound _ _ _ Ha1 q Hq) as (? & ? & _). done. }
  destruct (coord_eqb goal a2) eqn:Hgoal; injection H as <-.
  - apply bool_decide_eq_true in Hgoal. subst a2.
    destruct (Hms goal) as [Hmv Hfr].
    { destruct (sorted_by _ _); [discriminate|]. injection Ha2 as ->. by left. }
    split; [by eapply walk_move|]. apply walk_nonneg in Hnode. lia.
  - by apply (relax_walks b a node).
Qed.

Lemma astar_loop_sound fuel b a goal st d :
  walks_recorded b a (st_n_movements st) ->
  astar_loop fuel b goal st = Ok d ->
  walk b a goal d /\ 1 <= d.
Proof.
  revert st. induction fuel as [|fuel IH]; intros st Hrec H; simpl in H.
  - destruct (st_open st); discriminate.
  - destruct (st_open st) as [|node rest]; [discriminate|].
    inv_bind H. eapply astar_turn_sound in Ha0; [|exact Hrec].
    destruct a0 as [d'|st'].
    + by injection H as <-.
    + by eapply IH.
Qed.

Lemma find_path_len_is_walk a goal b d :
  find_path_len_with_a_star a goal b = Ok d -> walk b a goal d /\ 1 <= d.
Proof.
  apply astar_loop_sound. intros x dx. simpl.
  rewrite lookup_singleton. case_decide; [|done].
  intros [= <-]. subst x. constructor.
Qed.

(** C10. Whenever [find_path_len_with_a_star(a, b, board)] returns a value
    (with [a != b]), that value is the length of a walk from [a] to [b] made
    of unit up/down/left/right moves into in-bounds non-wall cells, it is at
    least 1, and it is at least the true shortest step distance from [a] to
    [b]: the oracle may overestimate but never underestimates. *)
Theorem oracle_never_underestimates (a goal : coord) (b : board) (d : Z) :
  a <> goal ->
  find_path_len_with_a_star a goal b = Ok d ->
  walk b a goal d /\
  1 <= d /\
  (free b a -> free b goal) /\
  forall sd, shortest_distance b a goal sd -> sd <= d.
Proof.
  intros _ H. apply find_path_len_is_walk in H as [Hw Hd].
  repeat split; try assumption.
  - intros Ha. by eapply walk_cells_free.
  - intros sd [_ Hmin]. by apply Hmin.
Qed.

Lemma oracle_never_underestimates_witness :
  (0, 0) <> (0, 2) /\
  find_path_len_with_a_star (0, 0) (0, 2) ["*.*"; "..."]%string = Ok 4 /\
  walk ["*.*"; "..."]%string (0, 0) (0, 2) 4.
Proof.
  assert (H : find_path_len_with_a_star (0, 0) (0, 2) ["*.*"; "..."]%string = Ok 4)
    by (vm_compute; reflexivity).
  split; [discriminate|]. split; [exact H|].
  exact (proj1 (oracle_never_underestimates (0, 0) (0, 2) ["*.*"; "..."]%string 4
                  ltac:(discriminate) H)).
Defined.

(** ** A board on which the oracle is not optimal *)

Lemma free_intro (b : board) (p : coord) row ch :
  0 <= p.1 -> 0 <= p.2 ->
  b !! Z.to_nat p.1 = Some row ->
  String.get (Z.to_nat p.2) row = Some ch ->
  ch <> wall ->
  free b p.
Proof. intros. exists row, ch. auto. Qed.

Lemma fork_board_shortest : shortest_distance fork_board (0, 0) (0, 2) 2.
Proof.
  split.
  - change 2 with (0 + 1 + 1).
    apply walk_move with (x := (0, 1)).
    + apply walk_move with (x := (0, 0)); [constructor| |].
      * exists (0, 1). split; [|reflexivity]. unfold offsets. set_solver.
      * by eapply (free_intro fork_board (0, 1)); [..|reflexivity|reflexivity|].
    + exists (0, 1). split; [|reflexivity]. unfold offsets. set_solver.
    + by eapply (free_intro fork_board (0, 2)); [..|reflexivity|reflexivity|].
  - intros n Hn. apply walk_manhattan in Hn. simpl in Hn. lia.
Qed.

(** C8. There is a board with a mutually reachable pair of coins for which
    [find_path_len_with_a_star] returns more than the true shortest step
    distance: on the board [*.*] over [...] the two coins are 2 steps apart
    and the search returns 4. *)
Theorem oracle_can_overestimate :
  exists (b : board) (a goal : coord) (d sd : Z),
    map coords (scan_board b) = [a; goal] /\
    find_path_len_with_a_star a goal b = Ok d /\
    shortest_distance b a goal sd /\
    sd < d.
Proof.
  exists fork_board, (0, 0), (0, 2), 4, 2.
  split; [reflexivity|]. split; [vm_compute; reflexivity|].
  split; [apply fork_board_shortest | lia].
Qed.

(** ** The search terminates within its budget *)

Lemma length_rect_cells b : length (rect_cells b) = (length b * board_width b)%nat.
Proof.
  unfold rect_cells. rewrite length_prod, !length_seqZ.
  unfold len_board. lia.
Qed.

Lemma elem_of_rect_cells b q :
  0 <= q.1 < len_board b ->
  0 <= q.2 < match b with [] => 0 | row0 :: _ => len_str row0 end ->
  q ∈ rect_cells b.
Proof.
  intros H1 H2. destruct q as [r c]. simpl in *.
  apply list_elem_of_In, in_prod_iff. split; apply list_elem_of_In, elem_of_seqZ.
  - lia.
  - unfold board_width. destruct b; unfold len_str in *; lia.
Qed.

Lemma relax_inv b a d movements st :
  (forall q, q ∈ movements -> q ∈ rect_cells b) ->
  astar_inv b a st ->
  astar_inv b a (relax d movements st).
Proof.
  revert st. induction movements as [|m rest IH]; intros st Hms Hinv; simpl; [done|].
  assert (Hrest : forall q, q ∈ rest -> q ∈ rect_cells b)
    by (intros q Hq; apply Hms; by right).
  destruct Hinv as [Hnd Hcells Hkeys].
  destruct (mem m (st_close st) || mem m (st_open st)) eqn:Hseen.
  - apply IH; [done|]. split; simpl; [done | done |].
    intros x Hx. rewrite lookup_insert. case_decide; [by eexists | by apply Hkeys].
  - apply orb_false_iff in Hseen as [Hc Ho].
    apply bool_decide_eq_false in Hc, Ho.
    apply IH; [done|]. split; simpl.
    + constructor; [|done]. rewrite elem_of_app. tauto.
    + intros x [-> | Hx]%elem_of_cons; [|by apply Hcells].
      right. apply Hms. by left.
    + intros x Hx. rewrite lookup_insert. case_decide; [by eexists|].
      apply Hkeys. apply elem_of_cons in Hx as [-> | Hx]; [done | done].
Qed.

Lemma collect_movements_raises position b offs e :
  collect_movements position b offs = Err e -> e = IndexError.
Proof.
  induction offs as [|o os IH]; simpl; [discriminate|].
  intros [H | (m & _ & H)]%bind_Err.
  - unfold try_offset, board_row, row_char in H.
    repeat (first [ destruct (_ || _) | destruct (_ <? _) | destruct (_ >=? _)
                  | destruct (_ !! _) | destruct (String.get _ _)
                  | destruct (is_char _ _) ]; simpl in H);
      congruence.
  - apply bind_Err in H as [H | (ms & _ & H)]; [by apply IH | discriminate].
Qed.

(** [get_movements] can only fail on a row shorter than the first one *)
Lemma get_movements_raises position b e :
  get_movements position b = Err e -> e = IndexError.
Proof. apply collect_movements_raises. Qed.

Lemma astar_loop_outcome fuel b a goal st :
  astar_inv b a st ->
  (S (length b * board_width b) <= fuel + length (st_close st))%nat ->
  python_outcome (astar_loop fuel b goal st).
Proof.
  revert st. induction fuel as [|fuel IH]; intros st Hinv Hfuel.
  - simpl. destruct (st_open st) as [|node rest] eqn:Hopen; [simpl; auto|].
    exfalso. destruct Hinv as [Hnd Hcells _].
    pose proof (submseteq_length _ _ (NoDup_submseteq _ _ Hnd Hcells)) as Hlen.
    rewrite Hopen in Hlen. simpl in Hlen.
    rewrite length_app, length_rect_cells in Hlen. lia.
  - simpl. destruct (st_open st) as [|node rest] eqn:Hopen; [simpl; auto|].
    destruct Hinv as [Hnd Hcells Hkeys]. rewrite Hopen in *.
    unfold astar_turn. simpl.
    destruct (Hkeys node) as [d Hd]; [by left|]. rewrite Hd. simpl.
    destruct (get_movements node b) as [ms|e] eqn:Hms; simpl.
    2:{ apply get_movements_raises in Hms as ->. auto. }
    destruct (head (sorted_by (sq_distance goal) ms)) as [first|]; simpl; [|auto].
    destruct (coord_eqb goal first); simpl; [done|].
    apply IH.
    + apply relax_inv.
      * intros q Hq. apply elem_of_sorted_by in Hq.
        destruct (get_movements_sound _ _ _ Hms q Hq) as (_ & _ & ? & ?).
        by apply elem_of_rect_cells.
      * split; simpl.
        -- eapply NoDup_Permutation_proper; [|exact Hnd].
           simpl. by rewrite Permutation_middle.
        -- intros x Hx. apply Hcells.
           apply elem_of_app in Hx as [Hx | [-> | Hx]%elem_of_cons].
           ++ right. apply elem_of_app. by left.
           ++ by left.
           ++ right. apply elem_of_app. by right.
        -- intros x Hx. apply Hkeys. by right.
    + rewrite relax_open_close. simpl. lia.
Qed.

(** The model of the search never runs out of budget and never looks up a
    cell it has not recorded: it returns a count, or raises [NoPath] or
    [IndexError]. *)
Lemma astar_fuel_enough a goal b :
  python_outcome (find_path_len_with_a_star a goal b).
Proof.
  apply astar_loop_outcome with (a := a).
  - split; simpl.
    + apply NoDup_singleton.
    + intros x [-> | Hx]%elem_of_cons; [by left | by apply elem_of_nil in Hx].
    + intros x [-> | Hx]%elem_of_cons; [|by apply elem_of_nil in Hx].
      rewrite lookup_singleton_eq. by eexists.
  - unfold astar_fuel, board_width. simpl. lia.
Qed.

Lemma find_path_len_raises a goal b e :
  find_path_len_with_a_star a goal b = Err e -> e = NoPath \/ e = IndexError.
Proof. intros H. pose proof (astar_fuel_enough a goal b) as Ho. by rewrite H in Ho. Qed.

(** ** set_coin_distances *)

Section coin_distances.

Variable b : board.
(** The coins before the pass *)
Variable cs : list Coin.
Hypothesis cs_distinct : NoDup (map coords cs).

(** [d] is what the oracle returns for the pair of positions [i], [j],
    called from the earlier coin to the later one *)
Definition pair_distance (i j : nat) (d : Z) : Prop :=
  exists ci cj,
    cs !! (i `min` j)%nat = Some ci /\ cs !! (i `max` j)%nat = Some cj /\
    find_path_len_with_a_star (coords ci) (coords cj) b = Ok d.

Lemma pair_distance_sym i j d : pair_distance i j d -> pair_distance j i d.
Proof. unfold pair_distance. by rewrite Nat.min_comm, Nat.max_comm. Qed.

Lemma pair_distance_fun i j d d' :
  pair_distance i j d -> pair_distance i j d' -> d = d'.
Proof. intros (ci & cj & Hi & Hj & H) (ci' & cj' & Hi' & Hj' & H'). congruence. Qed.

(** The store [cur] once the pairs in [done] have been treated *)
Record distances_inv (done : list (nat * nat)) (cur : list Coin) : Prop := mk_dinv {
  dinv_length : length cur = length cs;
  dinv_same : forall k c, cur !! k = Some c ->
    exists c0, cs !! k = Some c0 /\ coords c = coords c0 /\ coin_i c = coin_i c0;
  dinv_done : forall k j c cj, cur !! k = Some c -> cs !! j = Some cj ->
    (k, j) ∈ done \/ (j, k) ∈ done ->
    exists d, step_distance c !! coords cj = Some d /\ pair_distance k j d
}.

Lemma coords_inj i j ci cj :
  cs !! i = Some ci -> cs !! j = Some cj -> coords ci = coords cj -> i = j.
Proof.
  intros Hi Hj Heq. eapply NoDup_lookup; [exact cs_distinct | |].
  - rewrite list_lookup_fmap, Hi. reflexivity.
  - rewrite list_lookup_fmap, Hj. simpl. by rewrite Heq.
Qed.

Lemma distances_inv_step done cur idx jdx ca cb d :
  distances_inv done cur ->
  (idx < jdx)%nat ->
  cur !! idx = Some ca -> cur !! jdx = Some cb ->
  find_path_len_with_a_star (coords ca) (coords cb) b = Ok d ->
  distances_inv ((idx, jdx) :: done)
    (<[jdx := set_step_distance cb (coords ca) d]>
       (<[idx := set_step_distance ca (coords cb) d]> cur)).
Proof.
  intros [Hlen Hsame Hdone] Hlt Ha Hb Hd.
  destruct (Hsame _ _ Ha) as (a0 & Ha0 & Hac & Hai).
  destruct (Hsame _ _ Hb) as (b0 & Hb0 & Hbc & Hbi).
  assert (Hpd : pair_distance idx jdx d).
  { exists a0, b0. rewrite Nat.min_l, Nat.max_r by lia.
    by rewrite <- Hac, <- Hbc. }
  pose proof (lookup_lt_Some _ _ _ Ha) as Hia.
  pose proof (lookup_lt_Some _ _ _ Hb) as Hib.
  split.
  - by rewrite !length_insert.
  - intros k c Hk.
    destruct (decide (k = jdx)) as [->|Hkj].
    { rewrite list_lookup_insert_eq in Hk by (rewrite length_insert; lia).
      injection Hk as <-. by exists b0. }
    rewrite list_lookup_insert_ne in Hk by done.
    destruct (decide (k = idx)) as [->|Hki].
    { rewrite list_lookup_insert_eq in Hk by lia. injection Hk as <-. by exists a0. }
    rewrite list_lookup_insert_ne in Hk by done. by apply Hsame.
  - intros k j c cj Hk Hj Hin.
    destruct (decide (k = jdx)) as [->|Hkj].
    { rewrite list_lookup_insert_eq in Hk by (rewrite length_insert; lia).
      injection Hk as <-. simpl. rewrite lookup_insert. case_decide as Hkey.
      - rewrite Hac in Hkey. pose proof (coords_inj _ _ _ _ Ha0 Hj Hkey) as <-.
        exists d. split; [done|]. by apply pair_distance_sym.
      - apply (Hdone jdx j cb cj Hb Hj).
        destruct Hin as [Hin|Hin]; apply elem_of_cons in Hin as [Heq|Hin];
          [ | tauto | | tauto ]; simplify_eq; try lia;
          exfalso; apply Hkey; congruence. }
    rewrite list_lookup_insert_ne in Hk by done.
    destruct (decide (k = idx)) as [->|Hki].
    { rewrite list_lookup_insert_eq in Hk by lia. injection Hk as <-. simpl.
      rewrite lookup_insert. case_decide as Hkey.
      - rewrite Hbc in Hkey. pose proof (coords_inj _ _ _ _ Hb0 Hj Hkey) as <-.
        by exists d.
      - apply (Hdone idx j ca cj Ha Hj).
        destruct Hin as [Hin|Hin]; apply elem_of_cons in Hin as [Heq|Hin];
          [ | tauto | | tauto ]; simplify_eq; try lia;
          exfalso; apply Hkey; congruence. }
    rewrite list_lookup_insert_ne in Hk by done.
    apply (Hdone k j c cj Hk Hj).
    destruct Hin as [Hin|Hin]; apply elem_of_cons in Hin as [Heq|Hin];
      [ | tauto | | tauto ]; simplify_eq.
Qed.

Lemma set_distances_from_inv idx others done cur cur' :
  distances_inv done cur ->
  (forall j, j ∈ others -> (idx < j)%nat) ->
  set_distances_from b idx others cur = Ok cur' ->
  distances_inv (map (pair idx) (reverse others) ++ done) cur'.
Proof.
  revert done cur. induction others as [|jdx rest IH]; intros done cur Hinv Hlt H;
    simpl in H.
  - by injection H as <-.
  - split_bind H as ca Hca. split_bind H as cb Hcb. split_bind H as d Hd.
    split_bind H as cb' Hcb'.
    apply of_option_Ok in Hca, Hcb, Hcb'.
    assert (Hij : (idx < jdx)%nat) by (apply Hlt; by left).
    rewrite list_lookup_insert_ne in Hcb' by lia.
    assert (cb' = cb) as -> by congruence.
    rewrite reverse_cons, map_app, <- app_assoc. simpl.
    eapply IH; [|intros j Hj; apply Hlt; by right|exact H].
    by apply distances_inv_step.
Qed.

Lemma set_distances_from_length idx others cur cur' :
  set_distances_from b idx others cur = Ok cur' -> length cur' = length cur.
Proof.
  revert cur. induction others as [|jdx rest IH]; intros cur H; simpl in H.
  - by injection H as <-.
  - inv_bind H. inv_bind H. inv_bind H. inv_bind H.
    apply IH in H. by rewrite H, !length_insert.
Qed.

(** The pairs treated once the outer loop has run over [idxs] *)
Definition pairs_done (n : nat) (idxs : list nat) : list (nat * nat) :=
  flat_map (fun idx => map (pair idx) (reverse (seq (S idx) (n - S idx))))
           (reverse idxs).

Lemma set_distances_loop_inv idxs done cur cur' :
  distances_inv done cur ->
  set_distances_loop b idxs cur = Ok cur' ->
  distances_inv (pairs_done (length cs) idxs ++ done) cur'.
Proof.
  revert done cur. induction idxs as [|idx rest IH]; intros done cur Hinv H;
    simpl in H.
  - by injection H as <-.
  - inv_bind H.
    pose proof (dinv_length _ _ Hinv) as Hlen.
    apply set_distances_from_inv with (done := done) in Ha; [| done |].
    2:{ intros j Hj. apply elem_of_seq in Hj. lia. }
    eapply IH in H; [|exact Ha].
    unfold pairs_done in *. rewrite reverse_cons, flat_map_app. simpl.
    rewrite app_nil_r, <- app_assoc. by rewrite Hlen in H.
Qed.

Lemma distances_inv_init : distances_inv [] cs.
Proof.
  split; [done | |].
  - intros k c Hk. by exists c.
  - intros k j c cj _ _ [H|H]; by apply elem_of_nil in H.
Qed.

Lemma elem_of_pairs_done i j :
  (i < j < length cs)%nat -> (i, j) ∈ pairs_done (length cs) (seq 0 (length cs)).
Proof.
  intros Hij. unfold pairs_done. apply list_elem_of_In, in_flat_map.
  exists i. split.
  - apply list_elem_of_In, elem_of_reverse, elem_of_seq. lia.
  - apply list_elem_of_In, list_elem_of_fmap. exists j. split; [done|].
    apply elem_of_reverse, elem_of_seq. lia.
Qed.

(** After the pass every coin holds, for every other coin, the distance
    the oracle returned for the pair, and nothing else about the coins
    changed. *)
Lemma set_coin_distances_spec cs' :
  set_coin_distances cs b = Ok cs' ->
  length cs' = length cs /\
  (forall k c, cs' !! k = Some c ->
     exists c0, cs !! k = Some c0 /\ coords c = coords c0 /\ coin_i c = coin_i c0) /\
  (forall k j c cj, cs' !! k = Some c -> cs' !! j = Some cj -> k <> j ->
     exists d, step_distance c !! coords cj = Some d /\ pair_distance k j d).
Proof.
  intros H. unfold set_coin_distances in H.
  apply set_distances_loop_inv with (done := []) in H; [|apply distances_inv_init].
  destruct H as [Hlen Hsame Hdone]. split; [done|]. split; [done|].
  intros k j c cj Hk Hj Hne.
  destruct (Hsame _ _ Hj) as (cj0 & Hj0 & Hjc & _).
  rewrite Hjc. apply (Hdone k j c cj0 Hk Hj0).
  apply lookup_lt_Some in Hk, Hj. rewrite Hlen in Hk, Hj.
  rewrite app_nil_r.
  destruct (decide (k < j)%nat).
  - left. apply elem_of_pairs_done. lia.
  - right. apply elem_of_pairs_done. lia.
Qed.

End coin_distances.

(** ** The scan of the board *)

Lemma scan_row_inv r c row coins :
  scan_inv r c coins -> scan_inv (r + 1) 0 (scan_row r c row coins).
Proof.
  revert c coins. induction row as [|ch rest IH]; intros c coins [Hnd Hbef Hidx Hemp];
    simpl.
  - split; try done. eapply Forall_impl; [exact Hbef|].
    intros k. unfold before. lia.
  - apply IH. destruct (is_char ch coin_char).
    + split.
      * rewrite map_app. simpl. apply NoDup_app. split; [done|]. split.
        -- intros p Hp [-> | Hx]%elem_of_cons; [|by apply elem_of_nil in Hx].
           apply list_elem_of_fmap in Hp as (k & Hk & Hin).
           rewrite Forall_forall in Hbef. apply Hbef in Hin.
           unfold before in Hin. rewrite <- Hk in Hin. simpl in Hin. lia.
        -- apply NoDup_singleton.
      * apply Forall_app. split.
        -- eapply Forall_impl; [exact Hbef|]. intros k. unfold before. lia.
        -- constructor; [|constructor]. unfold before. simpl. lia.
      * intros k ck Hk. apply lookup_app_Some in Hk as [Hk | [Hge Hk]].
        -- by apply Hidx.
        -- apply list_lookup_singleton_Some in Hk as [Hk <-]. simpl. lia.
      * apply Forall_app. split; [done|]. by constructor.
    + split; try done. eapply Forall_impl; [exact Hbef|].
      intros k. unfold before. lia.
Qed.

Lemma scan_rows_inv r rows coins :
  scan_inv r 0 coins -> exists r', scan_inv r' 0 (scan_rows r rows coins).
Proof.
  revert r coins. induction rows as [|row rest IH]; intros r coins Hinv; simpl.
  - by exists r.
  - apply IH. by apply scan_row_inv.
Qed.

Lemma scan_board_inv b : exists r, scan_inv r 0 (scan_board b).
Proof.
  apply scan_rows_inv. split; simpl; try constructor.
  intros k ck Hk. by rewrite lookup_nil in Hk.
Qed.

(** No two coins of a board share a cell *)
Lemma scan_board_distinct b : NoDup (map coords (scan_board b)).
Proof. destruct (scan_board_inv b) as [r []]. done. Qed.

(** ** Populated distances *)

Lemma set_coin_distances_coords b cs cs' :
  NoDup (map coords cs) ->
  set_coin_distances cs b = Ok cs' -> map coords cs' = map coords cs.
Proof.
  intros Hnd (Hlen & Hsame & _)%set_coin_distances_spec; [|done].
  apply list_eq. intros k. rewrite !list_lookup_fmap.
  destruct (cs' !! k) as [c|] eqn:Hk; simpl.
  - destruct (Hsame _ _ Hk) as (c0 & -> & -> & _). done.
  - apply lookup_ge_None in Hk. rewrite Hlen in Hk.
    apply lookup_ge_None in Hk. by rewrite Hk.
Qed.

Lemma set_coin_distances_populated b cs cs' :
  NoDup (map coords cs) ->
  set_coin_distances cs b = Ok cs' ->
  populated cs'.
Proof.
  intros Hnd H. pose proof (set_coin_distances_coords _ _ _ Hnd H) as Hco.
  apply set_coin_distances_spec in H as (Hlen & Hsame & Hdist); [|done].
  split; [by rewrite Hco|].
  intros a c Ha Hc Hne.
  apply list_elem_of_lookup in Ha as [k Hk]. apply list_elem_of_lookup in Hc as [j Hj].
  assert (k <> j) by congruence.
  destruct (Hdist k j a c Hk Hj) as (d & Hd & Hpd); [done|].
  destruct (Hdist j k c a Hj Hk) as (d' & Hd' & Hpd'); [done|].
  apply pair_distance_sym in Hpd'.
  rewrite (pair_distance_fun _ _ _ _ _ _ Hpd' Hpd) in Hd'.
  exists d. split; [done|]. split; [done|].
  destruct Hpd as (ci & cj & _ & _ & Hp).
  apply find_path_len_is_walk in Hp. tauto.
Qed.

(** C6. After [set_coin_distances] has run on the coins of a board, the
    distance a coin [a] holds for the cell of a coin [c] is the distance [c]
    holds for the cell of [a]; for two different coins both are present. *)
Theorem cached_distances_symmetric (b : board) (coins : list Coin) (a c : Coin) :
  set_coin_distances (scan_board b) b = Ok coins ->
  a ∈ coins -> c ∈ coins ->
  get_step_distance a (coords c) = get_step_distance c (coords a) /\
  (coords a <> coords c ->
   exists d, get_step_distance a (coords c) = Ok d /\
             get_step_distance c (coords a) = Ok d).
Proof.
  intros H Ha Hc.
  apply set_coin_distances_populated in H as [Hnd Hdist];
    [|apply scan_board_distinct].
  destruct (decide (coords a = coords c)) as [Heq|Hne].
  - split; [|done].
    apply list_elem_of_lookup in Ha as [k Hk]. apply list_elem_of_lookup in Hc as [j Hj].
    assert (k = j) as ->.
    { eapply NoDup_lookup; [exact Hnd | |]; rewrite list_lookup_fmap.
      - by rewrite Hk.
      - rewrite Hj. simpl. by rewrite Heq. }
    congruence.
  - destruct (Hdist a c Ha Hc Hne) as (d & Hd & Hd' & _).
    unfold get_step_distance. rewrite Hd, Hd'. simpl. eauto.
Qed.

Lemma cached_distances_symmetric_witness :
  set_coin_distances (scan_board fork_board) fork_board = Ok fork_coins /\
  match fork_coins with
  | [a; c] =>
      get_step_distance a (coords c) = Ok 4 /\
      get_step_distance a (coords c) = get_step_distance c (coords a)
  | _ => False
  end.
Proof.
  assert (H : set_coin_distances (scan_board fork_board) fork_board = Ok fork_coins)
    by (vm_compute; reflexivity).
  split; [exact H|]. unfold fork_coins in *. split; [vm_compute; reflexivity|].
  eapply (cached_distances_symmetric fork_board _ _ _ H); set_solver.
Defined.

(** ** Unreachable coins *)

Lemma set_distances_from_raises b idx others cur e :
  set_distances_from b idx others cur = Err e -> e = NoPath \/ e = IndexError.
Proof.
  revert cur. induction others as [|jdx rest IH]; intros cur H; simpl in H;
    [discriminate|].
  unfold of_option in H.
  destruct (cur !! idx) as [ca|]; simpl in H; [|injection H as <-; auto].
  destruct (cur !! jdx) as [cb|]; simpl in H; [|injection H as <-; auto].
  destruct (find_path_len_with_a_star _ _ _) as [d|e'] eqn:Hd; simpl in H.
  2:{ injection H as <-. by eapply find_path_len_raises. }
  destruct (_ !! jdx) as [cb'|]; simpl in H; [|injection H as <-; auto].
  by eapply IH.
Qed.

Lemma set_distances_loop_raises b idxs cur e :
  set_distances_loop b idxs cur = Err e -> e = NoPath \/ e = IndexError.
Proof.
  revert cur. induction idxs as [|idx rest IH]; intros cur H; simpl in H;
    [discriminate|].
  apply bind_Err in H as [H | (cur' & _ & H)].
  - by eapply set_distances_from_raises.
  - by eapply IH.
Qed.

(** A value is returned only if the oracle found a walk between every pair
    of coins of the board. *)
Lemma expected_length_needs_walks b K v i j a c :
  get_expected_length b K = Ok v ->
  scan_board b !! i = Some a -> scan_board b !! j = Some c -> (i < j)%nat ->
  exists n, walk b (coords a) (coords c) n.
Proof.
  intros H Hi Hj Hlt. unfold get_expected_length in H.
  split_bind H as coins Hcoins.
  apply set_coin_distances_spec in Hcoins as (Hlen & Hsame & Hdist);
    [|apply scan_board_distinct].
  destruct (lookup_lt_is_Some_2 coins i) as [a' Ha'].
  { rewrite Hlen. by eapply lookup_lt_Some. }
  destruct (lookup_lt_is_Some_2 coins j) as [c' Hc'].
  { rewrite Hlen. by eapply lookup_lt_Some. }
  destruct (Hdist i j a' c' Ha' Hc') as (d & _ & ci & cj & Hci & Hcj & Hd); [lia|].
  rewrite Nat.min_l in Hci by lia. rewrite Nat.max_r in Hcj by lia.
  assert (ci = a) as -> by congruence. assert (cj = c) as -> by congruence.
  exists d. by apply find_path_len_is_walk in Hd as [? _].
Qed.

(** When some coin cannot be reached from an earlier one, no number is
    returned: the call raises [NoPath] or [IndexError]. *)
Lemma unreachable_pair_raises b K i j a c :
  scan_board b !! i = Some a -> scan_board b !! j = Some c -> (i < j)%nat ->
  (forall n, ~ walk b (coords a) (coords c) n) ->
  exists e, get_expected_length b K = Err e /\ (e = NoPath \/ e = IndexError).
Proof.
  intros Hi Hj Hlt Hno.
  destruct (get_expected_length b K) as [v|e] eqn:H.
  - destruct (expected_length_needs_walks _ _ _ _ _ _ _ H Hi Hj Hlt) as [n Hn].
    by destruct (Hno n).
  - exists e. split; [done|]. unfold get_expected_length in H.
    apply bind_Err in H as [H | (coins & Hc & H)].
    + by eapply set_distances_loop_raises.
    + exfalso.
      apply set_coin_distances_spec in Hc as (Hlen & Hsame & Hdist);
        [|apply scan_board_distinct].
      destruct (lookup_lt_is_Some_2 coins i) as [a' Ha'].
      { rewrite Hlen. by eapply lookup_lt_Some. }
      destruct (lookup_lt_is_Some_2 coins j) as [c' Hc'].
      { rewrite Hlen. by eapply lookup_lt_Some. }
      destruct (Hdist i j a' c' Ha' Hc') as (d & _ & ci & cj & Hci & Hcj & Hd); [lia|].
      rewrite Nat.min_l in Hci by lia. rewrite Nat.max_r in Hcj by lia.
      assert (ci = a) as -> by congruence. assert (cj = c) as -> by congruence.
      apply find_path_len_is_walk in Hd as [Hd _]. by destruct (Hno d).
Qed.

Lemma walled_board_stuck x n : walk walled_board (0, 0) x n -> x = (0, 0).
Proof.
  induction 1 as [|x y n Hw IH Hm Hf]; [done|]. subst x. exfalso.
  destruct Hm as (off & Hoff & ->). destruct Hf as (row & ch & H1 & H2 & Hr & Hc & Hch).
  unfold offsets in Hoff.
  repeat (apply elem_of_cons in Hoff as [-> | Hoff]); simpl in *;
    try lia; try discriminate; try (by apply elem_of_nil in Hoff).
  injection Hr as <-. simpl in Hc. injection Hc as <-. by apply Hch.
Qed.

(** C5, at the input where the code departs from it.  On the board [*#*]
    the second coin cannot be reached from the first, and
    [get_expected_length] does not raise the [NoPath] error: the first coin
    has no neighbour to move to, and [movements[0]] raises [IndexError]
    before the frontier is ever exhausted. *)
Theorem walled_first_coin_raises_index_error :
  map coords (scan_board walled_board) = [(0, 0); (0, 2)] /\
  (forall n, ~ walk walled_board (0, 0) (0, 2) n) /\
  get_movements (0, 0) walled_board = Ok [] /\
  find_path_len_with_a_star (0, 0) (0, 2) walled_board = Err IndexError /\
  get_expected_length walled_board 2 = Err IndexError.
Proof.
  split; [reflexivity|]. split.
  - intros n Hn. apply walled_board_stuck in Hn. discriminate.
  - repeat split; vm_compute; reflexivity.
Qed.

(** ** The memo is not transparent *)

(** The distances the oracle caches on [memo_board], row [k] being those
    held by coin [k] *)
Example memo_board_distances :
  map (fun a => map (fun c => step_distance a !! coords c) memo_coins) memo_coins =
  [ [None;   Some 1; Some 1; Some 6; Some 5];
    [Some 1; None;   Some 4; Some 1; Some 6];
    [Some 1; Some 4; None;   Some 1; Some 6];
    [Some 6; Some 1; Some 1; None;   Some 1];
    [Some 5; Some 6; Some 6; Some 1; None] ].
Proof. vm_compute. reflexivity. Qed.

(** C3, at the input where the code departs from it.  The first solver call
    of [get_expected_length(memo_board, 5)] is on the first coin, the four
    others and the fresh [Memo(5)].  With that memo it returns 9; with
    [memo=None], on the same coin, list and depth, it returns 7.  The
    depth-1 call that scores the first candidate stores its result under
    (candidate, rest), and the second turn of the outer loop, which without
    a memo looks ahead again at depth 2, returns that stored value. *)
Theorem memo_changes_returned_value :
  set_coin_distances (scan_board memo_board) memo_board = Ok memo_coins /\
  combinations memo_coins 5 = [memo_coins] /\
  match memo_coins with
  | current :: remaining =>
      fst <$> traverse_graph_with_nn current remaining
                (Some (Memo.init 5)) 2 Inf = Ok (Fin 9) /\
      traverse_graph_with_nn current remaining None 2 Inf = Ok (Fin 7, None)
  | [] => False
  end.
Proof. repeat split; vm_compute; reflexivity. Qed.

(** ** Rectangular boards *)

Lemma string_get_None (s : string) (n : nat) :
  (String.length s <= n)%nat -> String.get n s = None.
Proof.
  revert n. induction s as [|ch s IH]; intros n Hn; simpl in *; [done|].
  destruct n as [|n]; [lia|]. apply IH. lia.
Qed.

Lemma string_get_Some (s : string) (n : nat) :
  (n < String.length s)%nat -> exists ch, String.get n s = Some ch.
Proof.
  revert n. induction s as [|ch s IH]; intros n Hn; simpl in *; [lia|].
  destruct n as [|n]; [by eexists|]. apply IH. lia.
Qed.

Lemma walkable_free b p : walkable b p = true -> free b p.
Proof.
  unfold walkable. intros H.
  apply andb_true_iff in H as [H Hrow]. apply andb_true_iff in H as [H1 H2].
  destruct (b !! Z.to_nat p.1) as [row|] eqn:Hr; [|discriminate].
  destruct (String.get (Z.to_nat p.2) row) as [ch|] eqn:Hc; [|discriminate].
  exists row, ch. repeat split; try lia; try done.
  intros ->. unfold is_char in Hrow. by rewrite Ascii.eqb_refl in Hrow.
Qed.

Lemma try_offset_rect b p off :
  rectangular b ->
  try_offset p b off = Ok (if walkable b (shift p off) then Some (shift p off) else None).
Proof.
  intros Hrect. unfold try_offset, walkable, shift. simpl.
  set (r := p.1 + off.1). set (c := p.2 + off.2).
  destruct (Z.ltb_spec r 0) as [Hr|Hr]; simpl.
  { assert ((0 <=? r) = false) as -> by lia. done. }
  assert ((0 <=? r) = true) as -> by lia. simpl.
  unfold len_board.
  destruct (Z.geb_spec r (Z.of_nat (length b))) as [Hr2|Hr2]; simpl.
  { rewrite (proj2 (lookup_ge_None b (Z.to_nat r))) by lia.
    by destruct (0 <=? c). }
  destruct (Z.ltb_spec c 0) as [Hc|Hc].
  { assert ((0 <=? c) = false) as -> by lia. done. }
  assert ((0 <=? c) = true) as -> by lia. simpl.
  destruct (lookup_lt_is_Some_2 b (Z.to_nat r)) as [row Hrow]; [lia|].
  destruct b as [|row0 rest]; [simpl in Hr2; lia|].
  unfold board_row. simpl (_ !! Z.to_nat 0). simpl.
  assert (Hlen : String.length row = String.length row0).
  { unfold rectangular in Hrect. rewrite Forall_forall in Hrect.
    apply (Hrect row). by eapply list_elem_of_lookup_2. }
  unfold len_str. rewrite Hrow. simpl.
  destruct (Z.geb_spec c (Z.of_nat (String.length row0))) as [Hc2|Hc2].
  { rewrite string_get_None by lia. done. }
  unfold row_char.
  destruct (string_get_Some row (Z.to_nat c)) as [ch ->]; [lia|]. simpl.
  by destruct (is_char ch wall).
Qed.

Lemma collect_movements_rect b p offs :
  rectangular b ->
  collect_movements p b offs = Ok (List.filter (walkable b) (map (shift p) offs)).
Proof.
  intros Hrect. induction offs as [|off rest IH]; simpl; [done|].
  rewrite try_offset_rect, IH by done. simpl.
  by destruct (walkable b (shift p off)).
Qed.

(** On a rectangular board [get_movements] never raises, and returns the
    free neighbours. *)
Lemma get_movements_rect b p :
  rectangular b -> get_movements p b = Ok (moves_of b p).
Proof. apply collect_movements_rect. Qed.

(** ** Straight corridors *)

Section corridor_search.

Variables (b : board) (p dir : coord) (L : Z).
Hypothesis Hcor : corridor b p dir L.








End corridor_search.

(** ** Boards with two coins *)






(** A corridor can also run downwards. *)
Lemma column_corridor : corridor ["*"; "."; "."; "*"]%string (0, 0) (1, 0) 2.
Proof.
  split; try (by auto); try lia.
  - repeat constructor.
  - intros k Hk.
    assert (k = 0 \/ k = 1 \/ k = 2 \/ k = 3) as [-> | [-> | [-> | ->]]] by lia;
      reflexivity.
  - intros k Hk. assert (k = 0 \/ k = 1 \/ k = 2) as [-> | [-> | ->]] by lia;
      split; reflexivity.
Qed.



(** ** What the approximate solver returns *)

Lemma num_add_Inf_r x : num_add x Inf = Inf.
Proof. by destruct x. Qed.

Lemma num_add_assoc x y z : num_add (num_add x y) z = num_add x (num_add y z).
Proof. destruct x, y, z; simpl; try done. by rewrite Z.add_assoc. Qed.

Section solver_spec.

(** The coins of the run *)
Variable cs : list Coin.
Hypothesis cs_populated : populated cs.

(** An input of the solver: coins of the run, on pairwise different cells *)
Definition admissible (current : Coin) (remaining : list Coin) : Prop :=
  current ∈ cs /\ (forall x, x ∈ remaining -> x ∈ cs) /\
  NoDup (map coords (current :: remaining)).

(** What is shown of a solver call: it returns, it leaves a memo exactly
    when it was given one, and without a memo its value is infinite or the
    length of a route through all the remaining coins. *)
Definition solver_ok (f : solver) : Prop :=
  forall c r m bd, admissible c r ->
    exists v m', f c r m bd = Ok (v, m') /\
      (is_Some m' <-> is_Some m) /\
      (m = None -> v = Inf \/ exists perm, perm ≡ₚ r /\ v = Fin (tour_length c perm)).

Definition deeper_ok (deeper : option solver) : Prop :=
  match deeper with
  | Some f => solver_ok f
  | None => True
  end.

Lemma admissible_distance current remaining node :
  admissible current remaining -> node ∈ remaining ->
  get_step_distance node (coords current) = Ok (dist node current).
Proof.
  intros (Hc & Hr & Hnd) Hnode. unfold get_step_distance, dist.
  destruct (pop_distance _ cs_populated node current) as (d & -> & _); auto.
  simpl in Hnd. apply NoDup_cons in Hnd as [Hnotin _].
  intros Heq. apply Hnotin. rewrite <- Heq. by apply list_elem_of_fmap_2.
Qed.

Lemma admissible_next current remaining i node :
  admissible current remaining -> remaining !! i = Some node ->
  admissible node (delete i remaining).
Proof.
  intros (Hc & Hr & Hnd) Hi.
  pose proof (delete_Permutation _ _ _ Hi) as Hperm.
  split; [apply Hr; by eapply list_elem_of_lookup_2|]. split.
  - intros x Hx. apply Hr. rewrite Hperm. by right.
  - simpl in Hnd. apply NoDup_cons in Hnd as [_ Hnd].
    change (NoDup (map coords (node :: delete i remaining))).
    by rewrite <- Hperm.
Qed.

Section scan.

Variables (deeper : option solver) (current : Coin) (remaining : list Coin).
Variables (best_distance : num) (memo0 : option Memo.t).
Hypothesis Hdeeper : deeper_ok deeper.
Hypothesis Hadm : admissible current remaining.

(** What holds of the locals of the [for] loop *)
Definition scan_ok (s : nn_best) : Prop :=
  (is_Some (best_memo s) <-> is_Some memo0) /\
  (remaining <> [] -> (min_idx s < length remaining)%nat) /\
  (memo0 = None ->
   min_distance s = Inf \/
   exists node, remaining !! min_idx s = Some node /\
                min_distance s = Fin (dist node current)).

Lemma nn_scan_ok todo : forall idx s,
  drop idx remaining = todo -> scan_ok s ->
  exists s', nn_scan deeper current remaining best_distance idx todo s = Ok s' /\
             scan_ok s'.
Proof.
  induction todo as [|node rest IH]; intros idx s Hdrop Hs; simpl; [eauto|].
  assert (Hidx : remaining !! idx = Some node).
  { rewrite <- (Nat.add_0_r idx), <- lookup_drop, Hdrop. done. }
  assert (Hrest : drop (S idx) remaining = rest).
  { replace (S idx) with (idx + 1)%nat by lia. by rewrite <- drop_drop, Hdrop. }
  rewrite (admissible_distance current remaining node Hadm)
    by (by eapply list_elem_of_lookup_2).
  simpl. destruct (num_geb _ best_distance); [by apply IH|].
  assert (Hsub : exists v m',
    match deeper with
    | Some recurse =>
        if (1 <? length remaining)%nat
        then recurse node (take idx remaining ++ drop (S idx) remaining)
               (best_memo s) (min_step_distance s)
        else Ok (Fin 0, best_memo s)
    | None => Ok (Fin 0, best_memo s)
    end = Ok (v, m') /\ (is_Some m' <-> is_Some (best_memo s))).
  { destruct deeper as [recurse|]; [|by eauto].
    destruct (1 <? length remaining)%nat; [|by eauto].
    rewrite <- delete_take_drop.
    destruct (Hdeeper node (delete idx remaining) (best_memo s) (min_step_distance s))
      as (v & m' & -> & Hm & _); [by eapply admissible_next | eauto]. }
  destruct Hsub as (v & m' & -> & Hm). simpl.
  destruct Hs as (Hs1 & Hs2 & Hs3).
  apply IH; [done|].
  destruct (num_ltb _ _); (split; [simpl; by rewrite Hm|]); simpl.
  - split; [intros _; by eapply lookup_lt_Some | eauto].
  - auto.
Qed.

End scan.

Lemma nn_while_ok deeper :
  deeper_ok deeper ->
  forall fuel current remaining memo best_distance distance path,
    fuel = length remaining -> admissible current remaining -> path <> [] ->
    exists v m',
      nn_while deeper fuel current remaining memo best_distance distance path
      = Ok (v, m') /\
      (is_Some m' <-> is_Some memo) /\
      (memo = None ->
       v = Inf \/
       exists perm, perm ≡ₚ remaining /\
                    v = num_add distance (Fin (tour_length current perm))).
Proof.
  intros Hdeeper. induction fuel as [|fuel IH];
    intros current remaining memo bd distance path Hfuel Hadm Hpath.
  - destruct remaining; [|discriminate]. simpl.
    destruct memo as [m|].
    + destruct path; [done|]. eexists _, _. split; [done|]. split; [|done].
      split; intros _; by eexists.
    + eexists _, _. split; [done|]. split; [done|]. intros _.
      right. exists []. split; [done|]. simpl.
      destruct distance; simpl; [by rewrite Z.add_0_r | done].
  - destruct remaining as [|x r]; [discriminate|].
    cbn [nn_while].
    destruct (memo ≫= _) as [memoized|] eqn:Hhit.
    { eexists _, _. split; [done|]. split; [done|].
      intros ->. discriminate. }
    destruct (nn_scan_ok deeper current (x :: r) bd memo Hdeeper Hadm
                (x :: r) 0%nat (mk_best 0 Inf Inf memo)) as (s & Hs & Hok).
    { done. }
    { split; [done|]. split; [simpl; lia | auto]. }
    rewrite Hs. simpl. destruct Hok as (Hs1 & Hs2 & Hs3).
    destruct (lookup_lt_is_Some_2 (x :: r) (min_idx s)) as [next Hnext];
      [by apply Hs2|].
    rewrite Hnext. simpl.
    destruct (IH next (delete (min_idx s) (x :: r)) (best_memo s) bd
                (num_add distance (min_distance s))
                (match memo with Some _ => path ++ [next] | None => path end))
      as (v & m' & -> & Hm & Hv).
    { rewrite length_delete by (by eexists). simpl in *. lia. }
    { by eapply admissible_next. }
    { destruct memo; [|done]. by destruct path. }
    exists v, m'. split; [done|]. split; [by rewrite Hm|].
    intros ->. assert (best_memo s = None) as Hnone.
    { destruct (best_memo s); [|done]. by destruct (proj1 Hs1 ltac:(eauto)). }
    destruct (Hv Hnone) as [-> | (perm & Hperm & ->)]; [by left|].
    destruct (Hs3 eq_refl) as [-> | (node & Hnode & ->)].
    + left. rewrite num_add_Inf_r. done.
    + right. assert (node = next) as -> by congruence.
      exists (next :: perm). split.
      * rewrite Hperm. symmetry. by apply delete_Permutation.
      * rewrite num_add_assoc. simpl. done.
Qed.

(** At every depth the solver returns on populated coins; without a memo
    its value is infinite or the length of a route through the remaining
    coins. *)
Lemma traverse_ok depth :
  solver_ok (fun c r m bd => traverse_graph_with_nn c r m depth bd).
Proof.
  induction depth as [|d IH]; intros c r m bd Hadm.
  - destruct (nn_while_ok None I (length r) c r m bd (Fin 0) [c]) as
      (v & m' & H & Hm & Hv); try done.
    exists v, m'. split; [exact H|]. split; [done|].
    intros Hn. destruct (Hv Hn) as [-> | (perm & ? & ->)]; [by left|].
    right. exists perm. done.
  - assert (Hdeeper : deeper_ok
              (match d with
               | S _ => Some (fun c r m bd => traverse_graph_with_nn c r m d bd)
               | O => None
               end)) by (by destruct d).
    destruct (nn_while_ok _ Hdeeper (length r) c r m bd (Fin 0) [c]) as
      (v & m' & H & Hm & Hv); try done.
    exists v, m'. split; [exact H|]. split; [done|].
    intros Hn. destruct (Hv Hn) as [-> | (perm & ? & ->)]; [by left|].
    right. exists perm. done.
Qed.

End solver_spec.

(** ** The aggregator against its description *)

Arguments traverse_graph_with_nn : simpl never.

Lemma length_combinations {A : Type} (l : list A) (r : nat) :
  length (combinations l r) = choose (length l) r.
Proof.
  revert r. induction l as [|x xs IH]; intros [|r]; simpl; try done.
  by rewrite length_app, length_map, !IH.
Qed.

Lemma combinations_sublist {A : Type} (l : list A) (r : nat) (c : list A) :
  c ∈ combinations l r -> c `sublist_of` l /\ length c = r.
Proof.
  revert r c. induction l as [|x xs IH]; intros [|r] c Hc; simpl in Hc.
  - apply list_elem_of_singleton in Hc as ->. split; [constructor | done].
  - by apply elem_of_nil in Hc.
  - apply list_elem_of_singleton in Hc as ->. split; [apply sublist_nil_l | done].
  - apply elem_of_app in Hc as [Hc | Hc].
    + apply list_elem_of_fmap in Hc as (c' & -> & Hc').
      destruct (IH _ _ Hc') as [Hsub Hlen].
      split; [by constructor | simpl; by rewrite Hlen].
    + destruct (IH _ _ Hc) as [Hsub Hlen]. split; [by constructor | done].
Qed.


Lemma choose_pos n k : (k <= n)%nat -> (0 < choose n k)%nat.
Proof.
  revert k. induction n as [|n IH]; intros [|k] Hk; simpl; try lia.
  pose proof (IH k ltac:(lia)). lia.
Qed.

Lemma smallest_min_update l : forall acc,
  fold_left min_update l acc =
  match acc, smallest l with
  | None, s => s
  | Some a, None => Some a
  | Some a, Some m => Some (if num_ltb m a then m else a)
  end.
Proof.
  induction l as [|x rest IH]; intros acc; simpl; [by destruct acc|].
  rewrite IH.
  destruct acc as [[a|]|], (smallest rest) as [[m|]|], x as [x|]; simpl; try done;
    repeat (match goal with
            | |- context [?u <? ?v] => destruct (Z.ltb_spec u v)
            end; simpl; try done; try lia).
Qed.

Lemma best_len_loop_results combination idxs : forall memo acc,
  best_len_loop combination idxs memo acc =
  rs ← solver_results combination idxs memo;
  Ok (fold_left min_update rs.1 acc, rs.2).
Proof.
  induction idxs as [|idx rest IH]; intros memo acc; simpl; [done|].
  destruct (combination !! idx) as [current|]; simpl; [|done].
  rewrite <- delete_take_drop.
  destruct (traverse_graph_with_nn _ _ _ _ _) as [[v m]|e]; simpl; [|done].
  rewrite IH. by destruct (solver_results _ _ _) as [[rs m']|e].
Qed.

Lemma path_lengths_loop_tours combs K : forall memo acc,
  path_lengths_loop combs K memo acc =
  ls ← tour_lengths combs K memo; Ok (acc ++ ls).
Proof.
  induction combs as [|c rest IH]; intros memo acc; simpl.
  - by rewrite app_nil_r.
  - unfold best_len. rewrite best_len_loop_results.
    destruct (solver_results c (seq 0 K) memo) as [[rs m']|e]; simpl; [|done].
    rewrite smallest_min_update.
    destruct (smallest rs) as [m|]; simpl; [|done].
    rewrite IH. destruct (tour_lengths rest K m') as [ls|e]; simpl; [|done].
    by rewrite <- app_assoc.
Qed.

Lemma num_sum_foldr l : num_sum l = foldr num_add (Fin 0) l.
Proof.
  unfold num_sum.
  assert (H : forall a, fold_left num_add l a = num_add a (foldr num_add (Fin 0) l)).
  { induction l as [|x rest IH]; intros a; simpl.
    - destruct a; simpl; [by rewrite Z.add_0_r | done].
    - by rewrite IH, num_add_assoc. }
  rewrite H. by destruct (foldr num_add (Fin 0) l).
Qed.

Section aggregator.

Variable cs : list Coin.
Hypothesis cs_populated : populated cs.

Lemma solver_results_total combination idxs : forall memo,
  combination `sublist_of` cs ->
  (forall idx, idx ∈ idxs -> (idx < length combination)%nat) ->
  is_Some memo ->
  exists rs memo', solver_results combination idxs memo = Ok (rs, memo') /\
                   length rs = length idxs /\ is_Some memo'.
Proof.
  intros memo Hsub. revert memo.
  induction idxs as [|idx rest IH]; intros memo Hidx Hmemo; simpl; [by eauto|].
  destruct (lookup_lt_is_Some_2 combination idx) as [current Hcur];
    [apply Hidx; by left|].
  rewrite Hcur. simpl.
  destruct (traverse_ok cs cs_populated 2 current (delete idx combination) memo Inf)
    as (v & m' & -> & Hm & _).
  { pose proof (delete_Permutation _ _ _ Hcur) as Hperm.
    split; [eapply elem_of_sublist; [by eapply list_elem_of_lookup_2 | done]|].
    split.
    - intros x Hx. eapply elem_of_sublist; [|exact Hsub].
      rewrite Hperm. by right.
    - change (NoDup (map coords (current :: delete idx combination))).
      rewrite <- Hperm. eapply sublist_NoDup; [apply (pop_distinct _ cs_populated)|].
      by apply fmap_sublist. }
  simpl. destruct (IH m') as (rs & memo' & -> & Hlen & Hmemo').
  { intros i Hi. apply Hidx. by right. }
  { by apply Hm. }
  simpl. exists (v :: rs), memo'. simpl. by rewrite Hlen.
Qed.

Lemma tour_lengths_total combs K : forall memo,
  (0 < K)%nat ->
  (forall c, c ∈ combs -> c `sublist_of` cs /\ length c = K) ->
  is_Some memo ->
  exists lens, tour_lengths combs K memo = Ok lens /\ length lens = length combs.
Proof.
  intros memo HK. revert memo.
  induction combs as [|c rest IH]; intros memo Hcombs Hmemo; simpl; [by eauto|].
  destruct (Hcombs c) as [Hsub Hlen]; [by left|].
  destruct (solver_results_total c (seq 0 K) memo Hsub) as (rs & m' & -> & Hrs & Hm');
    [intros idx Hidx%elem_of_seq; lia | done |].
  simpl. rewrite length_seq in Hrs.
  destruct rs as [|r rs]; [simpl in Hrs; lia|].
  destruct (smallest (r :: rs)) as [m|] eqn:Hsm.
  2:{ simpl in Hsm. by destruct (smallest rs). }
  simpl. destruct (IH m') as (lens & -> & Hlens).
  { intros c' Hc'. apply Hcombs. by right. }
  { done. }
  simpl. exists (m :: lens). simpl. by rewrite Hlens.
Qed.

End aggregator.



(** ** Bit masks of the exact solver *)

Lemma testbit_bit (idx : nat) (k : Z) :
  Z.testbit (bit idx) k = bool_decide (k = Z.of_nat idx).
Proof.
  unfold bit. rewrite Z.shiftl_1_l, Z.pow2_bits_eqb by lia.
  destruct (Z.eqb_spec (Z.of_nat idx) k); by rewrite ?bool_decide_eq_true_2,
    ?bool_decide_eq_false_2 by done.
Qed.

Lemma testbit_subset_state (S : list nat) : forall (st k : Z),
  Z.testbit (subset_state_of st S) k =
  Z.testbit st k || bool_decide (0 <= k /\ Z.to_nat k ∈ S).
Proof.
  unfold subset_state_of.
  induction S as [|i S IH]; intros st k; simpl.
  - rewrite bool_decide_eq_false_2; [by rewrite orb_false_r|].
    intros [_ Hi]. by apply elem_of_nil in Hi.
  - rewrite IH, Z.lor_spec, testbit_bit, <- orb_assoc. f_equal.
    apply eq_true_iff_eq. rewrite orb_true_iff, !bool_decide_eq_true. split.
    + intros [-> | [Hk Hi]]; (split; [lia|]).
      * rewrite Nat2Z.id. by left.
      * by right.
    + intros [Hk [<- | Hi]%elem_of_cons]; [left; lia | by right].
Qed.

Section masks.

(** The number of coins *)
Variable N : nat.

Definition base_state : Z := Z.shiftl 1 (Z.of_nat N).

(** The key of a set of coin indices *)
Definition mask (S : list nat) : Z := subset_state_of base_state S.

(** Indices of coins, without repetition *)
Definition indices (S : list nat) : Prop :=
  NoDup S /\ forall i, i ∈ S -> (i < N)%nat.

Lemma testbit_mask S k :
  Z.testbit (mask S) k =
  bool_decide (k = Z.of_nat N) || bool_decide (0 <= k /\ Z.to_nat k ∈ S).
Proof.
  unfold mask. rewrite testbit_subset_state. f_equal.
  apply (testbit_bit N k).
Qed.

Lemma mask_elem_of S S' i :
  indices S -> indices S' -> mask S = mask S' -> i ∈ S -> i ∈ S'.
Proof.
  intros [_ HS] [_ HS'] Heq Hi.
  assert (Hbit : Z.testbit (mask S') (Z.of_nat i) = true).
  { rewrite <- Heq, testbit_mask. apply orb_true_iff. right.
    apply bool_decide_eq_true. rewrite Nat2Z.id. split; [lia | done]. }
  rewrite testbit_mask in Hbit. apply orb_true_iff in Hbit as [Hb | Hb];
    apply bool_decide_eq_true in Hb.
  - apply HS in Hi. lia.
  - destruct Hb as [_ Hb]. by rewrite Nat2Z.id in Hb.
Qed.

Lemma mask_inj S S' :
  indices S -> indices S' -> mask S = mask S' -> S ≡ₚ S'.
Proof.
  intros HS HS' Heq. apply NoDup_Permutation; [apply HS | apply HS' |].
  intros i. split; by apply mask_elem_of.
Qed.

Lemma mask_perm S S' : S ≡ₚ S' -> mask S = mask S'.
Proof.
  intros Hperm. apply Z.bits_inj'. intros k _. rewrite !testbit_mask. f_equal.
  apply eq_true_iff_eq. rewrite !bool_decide_eq_true.
  by rewrite Hperm.
Qed.

(** [final_state & ~(1 << coin_idx)] is the key of the set without
    [coin_idx] *)
Lemma mask_remove S j :
  (j < N)%nat ->
  Z.land (mask S) (Z.lnot (bit j)) = mask (filter (fun idx => idx ≠ j) S).
Proof.
  intros Hj. apply Z.bits_inj'. intros k Hk.
  rewrite Z.land_spec, Z.lnot_spec, testbit_bit, !testbit_mask by done.
  apply eq_true_iff_eq.
  rewrite andb_true_iff, negb_true_iff, !orb_true_iff, bool_decide_eq_false,
    !bool_decide_eq_true.
  rewrite list_elem_of_filter. split.
  - intros [[-> | [_ Hi]] Hne]; [by left|].
    right. split; [done|]. split; [|done]. intros <-. lia.
  - intros [-> | (_ & Hne & Hi)]; (split; [auto | lia]).
Qed.

(** [(1 << (N + 1)) - 1] is the key of the set of all the coins *)
Lemma mask_full : Z.shiftl 1 (Z.of_nat N + 1) - 1 = mask (seq 0 N).
Proof.
  rewrite Z.shiftl_1_l, Z.sub_1_r, <- Z.ones_equiv by lia.
  apply Z.bits_inj'. intros k Hk. rewrite testbit_mask.
  destruct (decide (k < Z.of_nat N + 1)) as [Hlt|Hge].
  - rewrite Z.ones_spec_low by lia. symmetry. apply orb_true_iff.
    destruct (decide (k = Z.of_nat N)) as [->|Hne].
    + left. by apply bool_decide_eq_true.
    + right. apply bool_decide_eq_true. split; [done|].
      apply elem_of_seq. lia.
  - rewrite Z.ones_spec_high by lia. symmetry. apply orb_false_iff.
    split; apply bool_decide_eq_false; [lia|].
    intros [_ Hin%elem_of_seq]. lia.
Qed.

End masks.

(** ** Routes and their optimal lengths *)

Lemma filter_ne_Permutation (S : list nat) (j : nat) :
  NoDup S -> j ∈ S -> S ≡ₚ j :: filter (fun idx => idx ≠ j) S.
Proof.
  intros Hnd Hj. apply NoDup_Permutation; [done | |].
  - constructor; [|by apply NoDup_filter].
    rewrite list_elem_of_filter. tauto.
  - intros x. rewrite elem_of_cons, list_elem_of_filter.
    destruct (decide (x = j)) as [->|]; tauto.
Qed.

Section routes.

Variables (start : Coin) (coins : list Coin).
Hypothesis Hpop : populated (start :: coins).

(** The coin at an index *)
Definition coin (i : nat) : Coin := default start (coins !! i).

Definition pick (S : list nat) : list Coin := map coin S.

Lemma coin_lookup i : (i < length coins)%nat -> coins !! i = Some (coin i).
Proof.
  intros Hi. unfold coin.
  by destruct (lookup_lt_is_Some_2 coins i Hi) as [c ->].
Qed.

Lemma coin_elem_of i : (i < length coins)%nat -> coin i ∈ coins.
Proof. intros Hi. eapply list_elem_of_lookup_2. by apply coin_lookup. Qed.

Lemma coin_coords_inj i j :
  (i < length coins)%nat -> (j < length coins)%nat ->
  coords (coin i) = coords (coin j) -> i = j.
Proof.
  intros Hi Hj Heq.
  pose proof (pop_distinct _ Hpop) as Hnd. simpl in Hnd.
  apply NoDup_cons in Hnd as [_ Hnd].
  eapply NoDup_lookup; [exact Hnd | |]; rewrite list_lookup_fmap.
  - by rewrite (coin_lookup i Hi).
  - rewrite (coin_lookup j Hj). simpl. by rewrite Heq.
Qed.

Lemma pick_all : pick (seq 0 (length coins)) = coins.
Proof.
  apply list_eq. intros i. unfold pick. rewrite list_lookup_fmap.
  destruct (decide (i < length coins)%nat) as [Hi|Hi].
  - rewrite lookup_seq_lt by done. simpl. by rewrite coin_lookup.
  - rewrite lookup_seq_ge by lia. simpl. symmetry. apply lookup_ge_None. lia.
Qed.

(** [v] is the length of a shortest route from [start] through the coins
    of [S] that ends at coin [j] *)
Definition is_opt (S : list nat) (j : nat) (v : Z) : Prop :=
  (exists ro, ro ≡ₚ pick S /\ head ro = Some (coin j) /\ rcost start ro = v) /\
  (forall ro, ro ≡ₚ pick S -> head ro = Some (coin j) -> v <= rcost start ro).

Lemma is_opt_perm S S' j v : S ≡ₚ S' -> is_opt S j v -> is_opt S' j v.
Proof.
  intros Hperm [(ro & H1 & H2 & H3) Hmin].
  assert (Hp : pick S ≡ₚ pick S') by (unfold pick; by rewrite Hperm).
  split.
  - exists ro. by rewrite <- Hp.
  - intros ro' Hro'. apply Hmin. by rewrite Hp.
Qed.

Lemma is_opt_fun S j v v' : is_opt S j v -> is_opt S j v' -> v = v'.
Proof.
  intros [(ro & H1 & H2 & H3) Hmin] [(ro' & H1' & H2' & H3') Hmin'].
  pose proof (Hmin ro' H1' H2'). pose proof (Hmin' ro H1 H2). lia.
Qed.

Lemma is_opt_single j : is_opt [j] j (dist (coin j) start).
Proof.
  split.
  - exists [coin j]. done.
  - intros ro Hro _. apply Permutation_singleton_r in Hro as ->. done.
Qed.

Lemma is_opt_step S j (f : nat -> Z) v :
  indices (length coins) S -> j ∈ S ->
  let other := filter (fun idx => idx ≠ j) S in
  other <> [] ->
  (forall k, k ∈ other -> is_opt other k (f k)) ->
  (exists k, k ∈ other /\ v = f k + dist (coin k) (coin j)) ->
  (forall k, k ∈ other -> v <= f k + dist (coin k) (coin j)) ->
  is_opt S j v.
Proof.
  intros [Hnd Hlt] Hj other Hne Hopt (k & Hk & ->) Hmin.
  assert (Hperm : pick S ≡ₚ coin j :: pick other).
  { unfold pick. by rewrite (filter_ne_Permutation S j Hnd Hj) at 1. }
  split.
  - destruct (Hopt k Hk) as [(ro & H1 & H2 & H3) _].
    exists (coin j :: ro). split; [by rewrite Hperm, H1|]. split; [done|].
    destruct ro as [|c ro]; [discriminate|]. injection H2 as ->.
    simpl in *. lia.
  - intros ro Hro Hhead. destruct ro as [|c ro]; [discriminate|].
    injection Hhead as ->. rewrite Hperm in Hro.
    apply Permutation_cons_inv in Hro.
    destruct ro as [|c' ro].
    { apply Permutation_nil_l in Hro. unfold pick in Hro. symmetry in Hro.
      by apply fmap_nil_inv in Hro. }
    assert (Hc' : c' ∈ pick other) by (rewrite <- Hro; by left).
    apply list_elem_of_fmap in Hc' as (k' & -> & Hk').
    destruct (Hopt k' Hk') as [_ Hlow].
    pose proof (Hlow _ Hro eq_refl). pose proof (Hmin k' Hk').
    change (rcost start (coin j :: coin k' :: ro))
      with (rcost start (coin k' :: ro) + dist (coin k') (coin j)).
    lia.
Qed.

End routes.

(** ** The table of the exact solver *)

Lemma mapM_Ok {A B : Type} (f : A -> result B) (g : A -> B) (l : list A) :
  (forall x, x ∈ l -> f x = Ok (g x)) -> mapM f l = Ok (map g l).
Proof.
  induction l as [|x xs IH]; intros H; simpl; [done|].
  rewrite H by (by left). simpl. rewrite IH; [done|].
  intros y Hy. apply H. by right.
Qed.

Lemma min_of_acc (l : list nat) (g : nat -> Z) : forall a,
  exists v, min_of (map (fun x => Ok (g x)) l) (Some a) = Ok v /\
            v <= a /\ (forall x, x ∈ l -> v <= g x) /\
            (v = a \/ exists x, x ∈ l /\ v = g x).
Proof.
  induction l as [|x xs IH]; intros a; simpl.
  - exists a. split; [done|]. split; [lia|]. split; [|by left].
    intros x Hx. by apply elem_of_nil in Hx.
  - destruct (Z.ltb_spec (g x) a) as [Hlt|Hge].
    + destruct (IH (g x)) as (v & -> & Hle & Hall & Hex).
      exists v. split; [done|]. split; [lia|]. split.
      * intros y [-> | Hy]%elem_of_cons; [lia | by apply Hall].
      * right. destruct Hex as [-> | (y & Hy & ->)]; [exists x | exists y];
          split; (done || by constructor).
    + destruct (IH a) as (v & -> & Hle & Hall & Hex).
      exists v. split; [done|]. split; [lia|]. split.
      * intros y [-> | Hy]%elem_of_cons; [lia | by apply Hall].
      * destruct Hex as [-> | (y & Hy & ->)]; [by left|].
        right. exists y. split; [by right | done].
Qed.

(** [min] of a non-empty generator that never raises *)
Lemma min_of_Ok (l : list nat) (g : nat -> Z) :
  l <> [] ->
  exists v, min_of (map (fun x => Ok (g x)) l) None = Ok v /\
            (exists x, x ∈ l /\ v = g x) /\ (forall x, x ∈ l -> v <= g x).
Proof.
  destruct l as [|x xs]; [done|]. intros _. simpl.
  destruct (min_of_acc xs g (g x)) as (v & -> & Hle & Hall & Hex).
  exists v. split; [done|]. split.
  - destruct Hex as [-> | (y & Hy & ->)]; [exists x | exists y];
      split; (done || by constructor).
  - intros y [-> | Hy]%elem_of_cons; [lia | by apply Hall].
Qed.

Lemma sublist_combinations {A : Type} (c l : list A) :
  c `sublist_of` l -> c ∈ combinations l (length c).
Proof.
  induction 1 as [|x c l Hsub IH|x c l Hsub IH]; simpl.
  - by left.
  - apply elem_of_app. left. by apply list_elem_of_fmap_2.
  - destruct c as [|y c]; simpl in *; [by left|].
    apply elem_of_app. by right.
Qed.

Section held_karp.

Variables (start : Coin) (coins : list Coin).
Hypothesis Hpop : populated (start :: coins).

Local Abbreviation N := (length coins).
Local Abbreviation optimal := (is_opt start coins).
Local Abbreviation the_coin := (coin start coins).

(** The entries of the table for the pairs in [P] are optimal lengths *)
Definition table_ok (P : list nat -> nat -> Prop) (t : hk_table) : Prop :=
  forall S j, indices N S -> j ∈ S -> P S j ->
    exists v, t !! (mask N S, j) = Some v /\ optimal S j v.

Lemma table_ok_weaken (P Q : list nat -> nat -> Prop) t :
  table_ok P t ->
  (forall S j, indices N S -> j ∈ S -> Q S j -> P S j) ->
  table_ok Q t.
Proof. intros Ht HQ S j HS Hj HQS. apply Ht; auto. Qed.

Lemma table_ok_insert P t S0 j0 v0 :
  table_ok P t -> indices N S0 -> optimal S0 j0 v0 ->
  table_ok (fun S j => P S j \/ (S ≡ₚ S0 /\ j = j0)) (<[(mask N S0, j0) := v0]> t).
Proof.
  intros Ht HS0 Hopt S j HS Hj HP.
  destruct (decide ((mask N S0, j0) = (mask N S, j))) as [Heq|Hne].
  - rewrite Heq, lookup_insert_eq. exists v0. split; [done|].
    injection Heq as Hm ->. eapply is_opt_perm; [|exact Hopt].
    by apply mask_inj with (N := N).
  - rewrite lookup_insert_ne by done.
    destruct HP as [HP | [Hperm ->]]; [by apply Ht|].
    exfalso. apply Hne. by rewrite (mask_perm N _ _ Hperm).
Qed.

Lemma coin_distance c c' :
  c ∈ start :: coins -> c' ∈ start :: coins -> coords c <> coords c' ->
  get_step_distance c (coords c') = Ok (dist c c').
Proof.
  intros Hc Hc' Hne. unfold get_step_distance, dist.
  by destruct (pop_distance _ Hpop c c' Hc Hc' Hne) as (d & -> & _).
Qed.

Lemma coin_not_start c : c ∈ coins -> coords c <> coords start.
Proof.
  intros Hc Heq. pose proof (pop_distinct _ Hpop) as Hnd. simpl in Hnd.
  apply NoDup_cons in Hnd as [Hnotin _]. apply Hnotin.
  rewrite <- Heq. by apply list_elem_of_fmap_2.
Qed.

(** The first loop fills the entries of the one-coin sets. *)
Lemma hk_init_ok rest : forall idx t,
  drop idx coins = rest ->
  table_ok (fun S j => length S = 1%nat /\ (j < idx)%nat) t ->
  exists t', hk_init start (base_state N) idx rest t = Ok t' /\
             table_ok (fun S j => length S = 1%nat) t'.
Proof.
  induction rest as [|c rest IH]; intros idx t Hdrop Ht; simpl.
  - exists t. split; [done|]. eapply table_ok_weaken; [exact Ht|].
    intros S j [_ HS] Hj Hlen. split; [done|].
    apply HS in Hj. apply (f_equal length) in Hdrop.
    rewrite length_drop in Hdrop. simpl in Hdrop. lia.
  - assert (Hidx : coins !! idx = Some c).
    { rewrite <- (Nat.add_0_r idx), <- lookup_drop, Hdrop. done. }
    assert (Hc : c ∈ coins) by (by eapply list_elem_of_lookup_2).
    rewrite coin_distance; [|by right|by left|by apply coin_not_start]. simpl.
    apply IH.
    + replace (S idx) with (idx + 1)%nat by lia. by rewrite <- drop_drop, Hdrop.
    + assert (Hi : indices N [idx]).
      { split; [apply NoDup_singleton|].
        intros i ->%list_elem_of_singleton. by eapply lookup_lt_Some. }
      pose proof (table_ok_insert _ _ [idx] idx (dist c start) Ht Hi) as Hins.
      eapply table_ok_weaken; [apply Hins|].
      * replace c with (the_coin idx) by (unfold coin; by rewrite Hidx).
        apply is_opt_single.
      * intros S j HS Hj [Hlen Hlt]. simpl.
        destruct (decide (j < idx)%nat); [by left|]. right.
        assert (j = idx) as -> by lia. split; [|done].
        destruct S as [|x [|? ?]]; try discriminate.
        by apply list_elem_of_singleton in Hj as ->.
Qed.

(** The entry of the matrix for two different coins *)
Definition transition (k j : nat) : Z :=
  if decide (k = j) then 0 else dist (the_coin k) (the_coin j).

Lemma coin_in_run i : (i < N)%nat -> the_coin i ∈ start :: coins.
Proof. intros Hi. right. by apply coin_elem_of. Qed.

Lemma transition_matrix_ok :
  exists M, build_transition_matrix coins = Ok M /\
            forall k j, (k < N)%nat -> (j < N)%nat ->
                        matrix_at M k j = Ok (transition k j).
Proof.
  set (row := fun a : Coin =>
                map (fun c => if coin_eqb a c then 0 else dist a c) coins).
  exists (map row coins). split.
  - apply mapM_Ok. intros a Ha. apply mapM_Ok. intros c Hc.
    unfold coin_eqb, coord_eqb. case_bool_decide as Heq; simpl; [done|].
    apply coin_distance; by (right || done).
  - intros k j Hk Hj. unfold matrix_at.
    rewrite list_lookup_fmap, (coin_lookup start coins k Hk). simpl.
    unfold row. rewrite list_lookup_fmap, (coin_lookup start coins j Hj). simpl.
    unfold transition, coin_eqb, coord_eqb. f_equal.
    case_bool_decide as Heq; case_decide as Hkj; try done.
    + exfalso. apply Hkj. by eapply (coin_coords_inj start coins Hpop).
    + by subst.
Qed.

Section relax.

Variable M : list (list Z).
Hypothesis HM : forall k j, (k < N)%nat -> (j < N)%nat ->
                            matrix_at M k j = Ok (transition k j).

Lemma indices_filter S j : indices N S -> indices N (filter (fun idx => idx ≠ j) S).
Proof.
  intros [Hnd Hlt]. split; [by apply NoDup_filter|].
  intros i [_ Hi]%list_elem_of_filter. by apply Hlt.
Qed.

Lemma length_filter_ne S j :
  indices N S -> j ∈ S ->
  length S = Datatypes.S (length (filter (fun idx => idx ≠ j) S)).
Proof.
  intros [Hnd _] Hj. by rewrite (filter_ne_Permutation S j Hnd Hj) at 1.
Qed.

(** One entry of a set of at least two coins, from the entries of the set
    without its last coin *)
Lemma hk_relax_ok P t S j :
  table_ok P t -> indices N S -> j ∈ S -> (2 <= length S)%nat ->
  (forall S' k, indices N S' -> length S = Datatypes.S (length S') -> P S' k) ->
  exists v, hk_relax M (mask N S) S j t = Ok (<[(mask N S, j) := v]> t) /\
            optimal S j v.
Proof.
  intros Ht HS Hj Hlen HP. unfold hk_relax.
  pose proof (proj2 HS j Hj) as HjN.
  rewrite (mask_remove N S j HjN).
  set (other := filter (fun idx => idx ≠ j) S).
  pose proof (indices_filter S j HS) as Hother. fold other in Hother.
  pose proof (length_filter_ne S j HS Hj) as Hlen'. fold other in Hlen'.
  set (f := fun k => default 0 (t !! (mask N other, k))).
  assert (Hentries : forall k, k ∈ other ->
            t !! (mask N other, k) = Some (f k) /\ optimal other k (f k)).
  { intros k Hk. destruct (Ht other k Hother Hk) as (v & Hv & Hopt);
      [by apply HP|]. unfold f. by rewrite Hv. }
  erewrite (map_ext_in _ (fun k => Ok (f k + transition k j)) other).
  2:{ intros k Hk%list_elem_of_In.
      destruct (Hentries k Hk) as [-> _]. simpl.
      rewrite HM; [done | by apply (proj2 Hother) | done]. }
  destruct (min_of_Ok other (fun k => f k + transition k j)) as (v & -> & Hex & Hall).
  { intros Heq. rewrite Heq in Hlen'. simpl in Hlen'. lia. }
  simpl. exists v. split; [done|].
  assert (Htr : forall k, k ∈ other -> transition k j = dist (the_coin k) (the_coin j)).
  { intros k [Hne _]%list_elem_of_filter. unfold transition. by case_decide. }
  apply (is_opt_step start coins S j f v HS Hj).
  - intros Heq. fold other in Heq. rewrite Heq in Hlen'. simpl in Hlen'. lia.
  - intros k Hk. by apply Hentries.
  - destruct Hex as (k & Hk & ->). exists k. split; [done|]. by rewrite Htr.
  - intros k Hk. rewrite <- Htr by done. by apply Hall.
Qed.

Lemma hk_subset_ok S : forall todo P t,
  table_ok P t -> indices N S -> (2 <= length S)%nat ->
  (forall j, j ∈ todo -> j ∈ S) ->
  (forall S' k, indices N S' -> length S = Datatypes.S (length S') -> P S' k) ->
  exists t', hk_subset M (mask N S) S todo t = Ok t' /\
             table_ok (fun S' j => P S' j \/ (S' ≡ₚ S /\ j ∈ todo)) t'.
Proof.
  induction todo as [|j rest IH]; intros P t Ht HS Hlen Htodo HP; simpl.
  - exists t. split; [done|]. eapply table_ok_weaken; [exact Ht|].
    intros S' j _ _ [H | [_ H]]; [done | by apply elem_of_nil in H].
  - destruct (hk_relax_ok P t S j Ht HS) as (v & -> & Hopt);
      [apply Htodo; by left | done | done |].
    simpl.
    destruct (IH _ _ (table_ok_insert P t S j v Ht HS Hopt) HS Hlen) as (t' & -> & Ht').
    { intros k Hk. apply Htodo. by right. }
    { intros S' k HS' Hl. left. by apply HP. }
    exists t'. split; [done|]. eapply table_ok_weaken; [exact Ht'|].
    intros S' k _ _ [H | [Hperm [-> | Hk]%elem_of_cons]]; auto.
Qed.

Lemma hk_subsets_ok n : forall subsets P t,
  table_ok P t -> (2 <= n)%nat ->
  (forall S, S ∈ subsets -> indices N S /\ length S = n) ->
  (forall S' k, indices N S' -> n = Datatypes.S (length S') -> P S' k) ->
  exists t', hk_subsets M (base_state N) subsets t = Ok t' /\
             table_ok (fun S j => P S j \/ exists S0, S0 ∈ subsets /\ S ≡ₚ S0) t'.
Proof.
  induction subsets as [|S rest IH]; intros P t Ht Hn Hsubs HP; simpl.
  - exists t. split; [done|]. eapply table_ok_weaken; [exact Ht|].
    intros S' j _ _ [H | (S0 & H & _)]; [done | by apply elem_of_nil in H].
  - destruct (Hsubs S) as [HS HlenS]; [by left|].
    destruct (hk_subset_ok S S P t Ht HS) as (t1 & Ht1 & Hok1);
      [lia | done | intros S' k HS' Hl; apply HP; [done | lia] |].
    change (subset_state_of (base_state N) S) with (mask N S).
    rewrite Ht1. simpl.
    destruct (IH _ _ Hok1 Hn) as (t' & -> & Ht').
    { intros S' HS'. apply Hsubs. by right. }
    { intros S' k HS' Hl. left. by apply HP. }
    exists t'. split; [done|]. eapply table_ok_weaken; [exact Ht'|].
    intros S' k _ Hk [H | (S0 & [-> | HS0]%elem_of_cons & Hperm)].
    + left. by left.
    + left. right. split; [done | by rewrite <- Hperm].
    + right. by exists S0.
Qed.

(** Every set of indices is, up to order, one of the combinations the
    loop goes through. *)
Lemma indices_combination S :
  indices N S ->
  exists S0, S0 ∈ combinations (seq 0 N) (length S) /\ S ≡ₚ S0.
Proof.
  intros [Hnd Hlt]. set (S0 := filter (fun i => i ∈ S) (seq 0 N)).
  assert (Hperm : S ≡ₚ S0).
  { apply NoDup_Permutation; [done | apply NoDup_filter, NoDup_seq |].
    intros i. unfold S0. rewrite list_elem_of_filter, elem_of_seq.
    split; [intros Hi; split; [done | apply Hlt in Hi; lia] | tauto]. }
  exists S0. split; [|done]. rewrite (Permutation_length Hperm).
  apply sublist_combinations, sublist_filter.
Qed.

Lemma hk_sizes_ok m : forall n t,
  table_ok (fun S _ => (1 <= length S <= n)%nat) t -> (1 <= n)%nat ->
  exists t', hk_sizes M (base_state N) (seq 0 N) (seq (S n) m) t = Ok t' /\
             table_ok (fun S _ => (1 <= length S <= n + m)%nat) t'.
Proof.
  induction m as [|m IH]; intros n t Ht Hn; simpl.
  - exists t. split; [done|]. eapply table_ok_weaken; [exact Ht|].
    intros S0 j _ _ H. simpl in *. lia.
  - destruct (hk_subsets_ok (S n) (combinations (seq 0 N) (S n)) _ t Ht)
      as (t1 & -> & Ht1); [lia | |intros S' k HS' Hl; simpl; lia|].
    { intros S0 [Hsub Hlen]%combinations_sublist. split; [|done]. split.
      - eapply sublist_NoDup; [apply NoDup_seq | done].
      - intros i Hi. eapply elem_of_sublist in Hi; [|exact Hsub].
        apply elem_of_seq in Hi. lia. }
    simpl. destruct (IH (S n) t1) as (t' & -> & Ht'); [|lia|].
    { eapply table_ok_weaken; [exact Ht1|].
      intros S0 j HS0 Hj Hlen. simpl in *.
      destruct (decide (length S0 <= n)%nat); [left; lia|]. right.
      assert (length S0 = S n) as <- by lia. by apply indices_combination. }
    exists t'. split; [done|]. eapply table_ok_weaken; [exact Ht'|].
    intros S0 j _ _ H. simpl in *. lia.
Qed.

End relax.

(** The exact solver returns the length of a shortest route from [start]
    through all the coins. *)
Lemma held_karp_optimal :
  coins <> [] ->
  exists h, held_karp_algorithm_for_shortest_distance start coins = Ok h /\
    (exists ro, ro ≡ₚ coins /\ rcost start ro = h) /\
    (forall ro, ro ≡ₚ coins -> h <= rcost start ro).
Proof.
  intros Hne. unfold held_karp_algorithm_for_shortest_distance.
  assert (HN : (1 <= N)%nat) by (destruct coins; simpl; [done | lia]).
  destruct (hk_init_ok coins 0 ∅) as (t0 & Ht0 & Hok0); [done | |].
  { intros S j _ _ [_ H]. lia. }
  fold (base_state N). rewrite Ht0. simpl.
  destruct transition_matrix_ok as (M & -> & HM). simpl.
  destruct (hk_sizes_ok M HM (N - 1) 1 t0) as (t & Ht & Hok); [|lia|].
  { eapply table_ok_weaken; [exact Hok0|]. intros S j _ _ H. simpl. lia. }
  change (seq 2 (N - 1)) with (seq (S 1) (N - 1)). rewrite Ht. simpl.
  rewrite (mask_full N).
  assert (Hfull : indices N (seq 0 N)).
  { split; [apply NoDup_seq|]. intros i Hi%elem_of_seq. lia. }
  set (g := fun idx => default 0 (t !! (mask N (seq 0 N), idx))).
  assert (Hentries : forall j, j ∈ seq 0 N ->
            t !! (mask N (seq 0 N), j) = Some (g j) /\ optimal (seq 0 N) j (g j)).
  { intros j Hj. destruct (Hok (seq 0 N) j Hfull Hj) as (v & Hv & Hopt).
    - rewrite length_seq. lia.
    - unfold g. by rewrite Hv. }
  erewrite (map_ext_in _ (fun idx => Ok (g idx)) (seq 0 N)).
  2:{ intros j Hj%list_elem_of_In. by destruct (Hentries j Hj) as [-> _]. }
  destruct (min_of_Ok (seq 0 N) g) as (h & -> & (j & Hj & ->) & Hall).
  { intros Heq%(f_equal length). rewrite length_seq in Heq. simpl in Heq. lia. }
  exists (g j). split; [done|].
  destruct (Hentries j Hj) as [_ [(ro & Hro & _ & Hcost) _]].
  rewrite (pick_all start coins) in Hro. split; [by exists ro|].
  intros ro' Hro'. destruct ro' as [|c ro'].
  { apply Permutation_nil_l in Hro'. by subst. }
  assert (Hc : c ∈ coins) by (rewrite <- Hro'; by left).
  apply list_elem_of_lookup in Hc as [k Hk].
  assert (HkN : (k < N)%nat) by (by eapply lookup_lt_Some).
  assert (Hck : c = the_coin k) by (unfold coin; by rewrite Hk).
  assert (Hkin : k ∈ seq 0 N) by (apply elem_of_seq; lia).
  destruct (Hentries k Hkin) as [_ [_ Hlow]].
  pose proof (Hall k Hkin).
  etrans; [eassumption|]. apply Hlow.
  - by rewrite (pick_all start coins).
  - by rewrite Hck.
Qed.

End held_karp.

(** ** The approximate solver against the exact one *)

Lemma default_last_cons {A : Type} (s y : A) (p : list A) :
  default s (last (y :: p)) = default y (last p).
Proof.
  destruct p as [|z p]; [done|].
  change (last (y :: z :: p)) with (last (z :: p)).
  by destruct (last_is_Some (z :: p)) as [_ [w ->]].
Qed.

Lemma tour_length_snoc s p x :
  tour_length s (p ++ [x]) = tour_length s p + dist x (default s (last p)).
Proof.
  revert s. induction p as [|y p IH]; intros s; [simpl; lia|].
  rewrite default_last_cons. simpl. rewrite IH. lia.
Qed.

Section symmetric.

Variable cs : list Coin.
Hypothesis cs_populated : populated cs.

Lemma dist_sym a c :
  a ∈ cs -> c ∈ cs -> coords a <> coords c -> dist a c = dist c a.
Proof.
  intros Ha Hc Hne. unfold dist.
  by destruct (pop_distance _ cs_populated a c Ha Hc Hne) as (d & -> & -> & _).
Qed.

Lemma dist_pos a c :
  a ∈ cs -> c ∈ cs -> coords a <> coords c -> 1 <= dist a c.
Proof.
  intros Ha Hc Hne. unfold dist.
  by destruct (pop_distance _ cs_populated a c Ha Hc Hne) as (d & -> & _ & ?).
Qed.

(** A route has the same length for both solvers. *)
Lemma tour_length_rcost s p :
  (forall x, x ∈ p -> x ∈ cs) -> NoDup (map coords (s :: p)) ->
  tour_length s p = rcost s (rev p).
Proof.
  induction p as [|x p IH] using rev_ind; intros Hin Hnd; [done|].
  rewrite tour_length_snoc, rev_unit.
  assert (Hp : forall y, y ∈ p -> y ∈ cs)
    by (intros y Hy; apply Hin, elem_of_app; by left).
  assert (Hx : x ∈ cs) by (apply Hin, elem_of_app; right; by left).
  assert (Hnd' : NoDup (map coords (s :: p))).
  { change (NoDup (map coords ((s :: p) ++ [x]))) in Hnd.
    rewrite map_app in Hnd. by apply NoDup_app in Hnd as [? _]. }
  rewrite IH by done.
  destruct (rev p) as [|c' r] eqn:Hrev.
  - apply (f_equal (@rev Coin)) in Hrev. rewrite rev_involutive in Hrev.
    subst p. simpl. lia.
  - assert (Hlast : p = rev r ++ [c']).
    { apply (f_equal (@rev Coin)) in Hrev. by rewrite rev_involutive in Hrev. }
    assert (last p = Some c') as -> by (rewrite Hlast; apply last_snoc).
    simpl. f_equal. apply dist_sym; [done | | ].
    + apply Hp. rewrite Hlast, elem_of_app. right. by left.
    + intros Heq. rewrite Hlast in Hnd. simpl in Hnd.
      apply NoDup_cons in Hnd as [_ Hnd].
      rewrite <- app_assoc, map_app in Hnd.
      apply NoDup_app in Hnd as (_ & _ & Hnd). simpl in Hnd.
      apply NoDup_cons in Hnd as [Hnotin _]. apply Hnotin.
      rewrite Heq. by left.
Qed.

End symmetric.

Lemma held_karp_empty start :
  held_karp_algorithm_for_shortest_distance start [] = Err EmptySequence.
Proof. reflexivity. Qed.

(** C2.  For a start coin and a set of coins with populated distances, the
    approximate solver, called on that start and that set without a memo
    and without an external bound (at depth 2 or any other depth), returns
    a value, and that value is never less than the value the exact solver
    returns for the same start and set. *)
Theorem approximate_at_least_exact (start : Coin) (coins : list Coin) (depth : nat) :
  populated (start :: coins) ->
  exists t,
    traverse_graph_with_nn start coins None depth Inf = Ok (t, None) /\
    (coins <> [] ->
     exists h, held_karp_algorithm_for_shortest_distance start coins = Ok h) /\
    (forall h, held_karp_algorithm_for_shortest_distance start coins = Ok h ->
               num_le (Fin h) t).
Proof.
  intros Hpop.
  assert (Hadm : admissible (start :: coins) start coins).
  { split; [by left|]. split; [intros x Hx; by right|]. apply (pop_distinct _ Hpop). }
  destruct (traverse_ok _ Hpop depth start coins None Inf Hadm)
    as (t & m' & Ht & Hm & Hv).
  assert (m' = None) as ->.
  { destruct m' as [m|]; [|done]. destruct (proj1 Hm ltac:(eauto)). discriminate. }
  exists t. split; [done|]. split.
  - intros Hne. destruct (held_karp_optimal start coins Hpop Hne) as (h & Hh & _).
    by exists h.
  - intros h Hh. destruct coins as [|c coins'] eqn:Hcoins.
    { rewrite held_karp_empty in Hh. discriminate. }
    rewrite <- Hcoins in *.
    destruct (held_karp_optimal start coins Hpop) as (h' & Hh' & _ & Hlow);
      [by rewrite Hcoins|].
    assert (h' = h) as -> by congruence.
    destruct (Hv eq_refl) as [-> | (perm & Hperm & ->)]; [done|].
    unfold num_le, num_leb. simpl. apply negb_true_iff, Z.ltb_ge.
    rewrite (tour_length_rcost (start :: coins) Hpop).
    + apply Hlow. by rewrite <- Permutation_rev.
    + intros x Hx. right. by rewrite <- Hperm.
    + change (NoDup (map coords (start :: perm))). rewrite Hperm.
      apply (pop_distinct _ Hpop).
Qed.

Lemma memo_coins_populated : populated memo_coins.
Proof.
  apply (set_coin_distances_populated memo_board (scan_board memo_board)).
  - apply scan_board_distinct.
  - vm_compute. reflexivity.
Qed.

Lemma approximate_at_least_exact_witness :
  match memo_coins with
  | start :: coins =>
      populated (start :: coins) /\
      held_karp_algorithm_for_shortest_distance start coins = Ok 7 /\
      exists t, traverse_graph_with_nn start coins None 2 Inf = Ok (t, None) /\
                num_le (Fin 7) t
  | [] => False
  end.
Proof.
  unfold memo_coins.
  split; [exact memo_coins_populated|].
  split; [vm_compute; reflexivity|].
  match goal with
  | |- exists t, traverse_graph_with_nn ?s ?c None 2 Inf = _ /\ _ =>
      destruct (approximate_at_least_exact s c 2 memo_coins_populated)
        as (t & Ht & _ & Hle);
      exists t; split; [exact Ht | apply Hle; vm_compute; reflexivity]
  end.
Defined.

(** ** The exact solver against brute force *)

Lemma path_len_snoc q x :
  path_len (q ++ [x]) =
  path_len q + match last q with Some c' => dist c' x | None => 0 end.
Proof.
  induction q as [|y q IH]; [done|].
  destruct q as [|z q]; [simpl; lia|].
  change (path_len ((y :: z :: q) ++ [x]))
    with (dist y z + path_len ((z :: q) ++ [x])).
  rewrite IH. simpl. lia.
Qed.

Lemma permutations_of_length_sound {A : Type} (n : nat) : forall (l p : list A),
  length l = n -> p ∈ permutations_of_length n l -> p ≡ₚ l.
Proof.
  induction n as [|n IH]; intros l p Hlen Hp; simpl in Hp.
  - apply list_elem_of_singleton in Hp as ->. by destruct l.
  - apply list_elem_of_In, in_flat_map in Hp as (i & _ & Hp).
    apply list_elem_of_In in Hp.
    destruct (l !! i) as [x|] eqn:Hi; [|by apply elem_of_nil in Hp].
    apply list_elem_of_fmap in Hp as (p' & -> & Hp').
    apply IH in Hp'.
    + rewrite Hp'. symmetry. by apply delete_Permutation.
    + rewrite length_delete by (by eexists). lia.
Qed.

Lemma permutations_of_length_complete {A : Type} (n : nat) : forall (l p : list A),
  length l = n -> p ≡ₚ l -> p ∈ permutations_of_length n l.
Proof.
  induction n as [|n IH]; intros l p Hlen Hp; simpl.
  - destruct l; [|discriminate]. apply Permutation_nil_r in Hp as ->. by left.
  - destruct p as [|x p].
    { symmetry in Hp. apply Permutation_nil_r in Hp. subst. discriminate. }
    assert (Hx : x ∈ l) by (rewrite <- Hp; by left).
    apply list_elem_of_lookup in Hx as [i Hi].
    apply list_elem_of_In, in_flat_map. exists i. split.
    + apply list_elem_of_In, elem_of_seq. apply lookup_lt_Some in Hi. lia.
    + rewrite Hi. apply list_elem_of_In, list_elem_of_fmap_2. apply IH.
      * rewrite length_delete by (by eexists). lia.
      * rewrite (delete_Permutation _ _ _ Hi) in Hp.
        by apply Permutation_cons_inv in Hp.
Qed.

(** [itertools.permutations] lists the orderings, and only them *)
Lemma elem_of_itertools_permutations {A : Type} (l p : list A) :
  p ∈ itertools_permutations l <-> p ≡ₚ l.
Proof.
  split.
  - by apply permutations_of_length_sound.
  - by apply permutations_of_length_complete.
Qed.

Lemma populated_perm l l' : l ≡ₚ l' -> populated l -> populated l'.
Proof.
  intros Hperm [Hnd Hdist]. split.
  - by rewrite <- Hperm.
  - intros a c Ha Hc. apply Hdist; by rewrite Hperm.
Qed.

Lemma brute_force_loop_spec (perms : list (list Coin)) : forall best,
  (forall p, p ∈ perms -> path_distance p = Ok (path_len p)) ->
  exists r, brute_force_loop perms best = Ok r /\
            num_le r best /\
            (forall p, p ∈ perms -> num_le r (Fin (path_len p))) /\
            (r = best \/ exists p, p ∈ perms /\ r = Fin (path_len p)).
Proof.
  unfold num_le, num_leb.
  induction perms as [|p perms IH]; intros best Hok; cbn [brute_force_loop].
  - exists best. split; [done|]. split; [by destruct best; simpl; rewrite ?Z.ltb_irrefl|].
    split; [|by left]. intros p Hp. by apply elem_of_nil in Hp.
  - rewrite Hok by (by left). cbn [mbind result_bind].
    destruct (IH (if num_ltb (Fin (path_len p)) best then Fin (path_len p) else best))
      as (r & -> & Hle & Hall & Hex).
    { intros q Hq. apply Hok. by right. }
    exists r. split; [done|].
    assert (Hcases : num_ltb best r = false /\ num_ltb (Fin (path_len p)) r = false).
    { destruct (num_ltb (Fin (path_len p)) best) eqn:Hlt;
        destruct r as [r|], best as [best|]; simpl in *;
        rewrite ?negb_true_iff, ?Z.ltb_ge, ?Z.ltb_lt in *;
        try done; try (split; lia); try (split; [done|lia]). }
    destruct Hcases as [Hc1 Hc2]. split; [by rewrite Hc1|]. split.
    + intros q [-> | Hq]%elem_of_cons; [by rewrite Hc2 | by apply Hall].
    + destruct (num_ltb (Fin (path_len p)) best).
      * right. destruct Hex as [-> | (q & Hq & ->)]; [exists p | exists q];
          split; (done || by constructor).
      * destruct Hex as [-> | (q & Hq & ->)]; [by left|].
        right. exists q. split; [by right | done].
Qed.

Section brute_force.

Variable cs : list Coin.
Hypothesis cs_populated : populated cs.

Lemma path_distance_ok p :
  (forall x, x ∈ p -> x ∈ cs) -> NoDup (map coords p) ->
  path_distance p = Ok (path_len p).
Proof.
  induction p as [|a p IH]; intros Hin Hnd; [done|].
  destruct p as [|c p]; [done|].
  change (path_distance (a :: c :: p))
    with (d ← get_step_distance a (coords c);
          s ← path_distance (c :: p); Ok (d + s)).
  simpl in Hnd. apply NoDup_cons in Hnd as [Hnotin Hnd].
  rewrite IH; [|intros x Hx; apply Hin; by right|done].
  unfold get_step_distance.
  destruct (pop_distance _ cs_populated a c) as (d & Hd & _).
  - apply Hin. by left.
  - apply Hin. right. by left.
  - intros Heq. apply Hnotin. rewrite Heq. by left.
  - rewrite Hd. simpl. unfold dist. by rewrite Hd.
Qed.

(** A path that begins at [s] has the length the exact solver gives the
    route from [s] through the other coins. *)
Lemma path_len_rcost s o :
  s ∈ cs -> (forall x, x ∈ o -> x ∈ cs) -> NoDup (map coords (s :: o)) ->
  path_len (s :: o) = rcost s (rev o).
Proof.
  intros Hs. induction o as [|x o IH] using rev_ind; intros Hin Hnd; [done|].
  change (s :: o ++ [x]) with ((s :: o) ++ [x]).
  rewrite path_len_snoc, rev_unit.
  assert (Hnd' : NoDup (map coords (s :: o))).
  { change (NoDup (map coords ((s :: o) ++ [x]))) in Hnd.
    rewrite map_app in Hnd. by apply NoDup_app in Hnd as [? _]. }
  rewrite IH; [|intros y Hy; apply Hin, elem_of_app; by left|done].
  destruct (rev o) as [|c' r] eqn:Hrev.
  - apply (f_equal (@rev Coin)) in Hrev. rewrite rev_involutive in Hrev.
    subst o. simpl. apply (dist_sym cs cs_populated); [done | | ].
    + apply Hin. by left.
    + simpl in Hnd. apply NoDup_cons in Hnd as [Hnotin _].
      intros Heq. apply Hnotin. rewrite Heq. by left.
  - assert (Hlast : o = rev r ++ [c']).
    { apply (f_equal (@rev Coin)) in Hrev. by rewrite rev_involutive in Hrev. }
    assert (last (s :: o) = Some c') as ->.
    { rewrite Hlast. change (s :: rev r ++ [c']) with ((s :: rev r) ++ [c']).
      apply last_snoc. }
    done.
Qed.

End brute_force.

(** C4, amended.  For every set of at least two coins with populated
    distances, the smallest value the exact solver returns over the choices
    of the start coin among them, the other coins being the set to visit,
    is exactly the value brute-force enumeration of the permutations
    returns for these coins. *)
Theorem best_exact_start_is_brute_force (coins : list Coin) :
  populated coins ->
  (2 <= length coins)%nat ->
  exists v,
    brute_force_find_graph_subset_distance coins = Ok (Fin v) /\
    (forall i start, coins !! i = Some start ->
       exists h, held_karp_algorithm_for_shortest_distance start (delete i coins)
                 = Ok h /\ v <= h) /\
    (exists i start, coins !! i = Some start /\
       held_karp_algorithm_for_shortest_distance start (delete i coins) = Ok v).
Proof.
  intros Hpop Hlen.
  assert (Hpaths : forall p, p ≡ₚ coins -> path_distance p = Ok (path_len p)).
  { intros p Hp. apply (path_distance_ok coins Hpop).
    - intros x Hx. by rewrite <- Hp.
    - rewrite Hp. apply (pop_distinct _ Hpop). }
  destruct (brute_force_loop_spec (itertools_permutations coins) Inf)
    as (r & Hr & _ & Hall & Hex).
  { intros p Hp. by apply Hpaths, elem_of_itertools_permutations. }
  assert (Hstart : forall i start, coins !! i = Some start ->
            populated (start :: delete i coins) /\ delete i coins <> []).
  { intros i start Hi. split.
    - eapply populated_perm; [|exact Hpop]. by apply delete_Permutation.
    - intros Heq%(f_equal length). rewrite length_delete in Heq by (by eexists).
      simpl in Heq. lia. }
  assert (Hroute : forall i start ro, coins !! i = Some start ->
            ro ≡ₚ delete i coins ->
            start :: rev ro ≡ₚ coins /\ path_len (start :: rev ro) = rcost start ro).
  { intros i start ro Hi Hro.
    assert (Hp : start :: rev ro ≡ₚ coins).
    { rewrite <- Permutation_rev, Hro. symmetry. by apply delete_Permutation. }
    split; [done|]. rewrite (path_len_rcost coins Hpop), rev_involutive; [done | | |].
    - by eapply list_elem_of_lookup_2.
    - intros x Hx. rewrite <- Hp. by right.
    - change (NoDup (map coords (start :: rev ro))). rewrite Hp.
      apply (pop_distinct _ Hpop). }
  destruct Hex as [-> | (p0 & Hp0 & ->)].
  { exfalso. specialize (Hall coins).
    rewrite elem_of_itertools_permutations in Hall. by specialize (Hall ltac:(done)). }
  exists (path_len p0). split; [exact Hr|].
  assert (Hlow : forall i start, coins !! i = Some start ->
            exists h, held_karp_algorithm_for_shortest_distance start (delete i coins)
                      = Ok h /\ path_len p0 <= h /\
                      forall ro, ro ≡ₚ delete i coins -> h <= rcost start ro).
  { intros i start Hi. destruct (Hstart i start Hi) as [Hpop' Hne].
    destruct (held_karp_optimal start (delete i coins) Hpop' Hne)
      as (h & Hh & (ro & Hro & Hcost) & Hmin).
    exists h. split; [done|]. split; [|done].
    destruct (Hroute i start ro Hi Hro) as [Hp Hlenp].
    specialize (Hall (start :: rev ro)).
    rewrite elem_of_itertools_permutations in Hall. specialize (Hall Hp).
    rewrite Hlenp, Hcost in Hall.
    unfold num_le, num_leb in Hall. simpl in Hall.
    apply negb_true_iff, Z.ltb_ge in Hall. lia. }
  split.
  - intros i start Hi. destruct (Hlow i start Hi) as (h & Hh & Hle & _). eauto.
  - apply elem_of_itertools_permutations in Hp0.
    destruct p0 as [|s o].
    { apply Permutation_nil_l in Hp0. subst. simpl in Hlen. lia. }
    assert (Hs : s ∈ coins) by (rewrite <- Hp0; by left).
    apply list_elem_of_lookup in Hs as [i Hi].
    exists i, s. split; [done|].
    destruct (Hlow i s Hi) as (h & Hh & Hle & Hmin).
    assert (Ho : rev o ≡ₚ delete i coins).
    { rewrite <- Permutation_rev.
      rewrite (delete_Permutation _ _ _ Hi) in Hp0.
      by apply Permutation_cons_inv in Hp0. }
    destruct (Hroute i s (rev o) Hi Ho) as [_ Hlenp].
    rewrite rev_involutive in Hlenp. specialize (Hmin _ Ho).
    rewrite Hh. f_equal. lia.
Qed.

Lemma row_coins_populated : populated row_coins.
Proof.
  apply (set_coin_distances_populated row_board (scan_board row_board)).
  - apply scan_board_distinct.
  - vm_compute. reflexivity.
Qed.

Lemma best_exact_start_is_brute_force_witness :
  populated row_coins /\ (2 <= length row_coins)%nat /\
  brute_force_find_graph_subset_distance row_coins = Ok (Fin 2) /\
  exists v,
    brute_force_find_graph_subset_distance row_coins = Ok (Fin v) /\
    exists i start, row_coins !! i = Some start /\
      held_karp_algorithm_for_shortest_distance start (delete i row_coins) = Ok v.
Proof.
  assert (Hlen : (2 <= length row_coins)%nat) by (simpl; lia).
  split; [exact row_coins_populated|]. split; [exact Hlen|].
  split; [vm_compute; reflexivity|].
  destruct (best_exact_start_is_brute_force row_coins row_coins_populated Hlen)
    as (v & Hv & _ & Hex).
  exists v. split; [exact Hv | exact Hex].
Defined.

(** C4 as stated fails: from the middle coin of [row_board] the exact
    solver returns 3 for the two other coins, and brute force returns 2,
    for these two coins as well as for the three. *)
Lemma exact_from_middle_is_not_brute_force :
  match row_coins with
  | [c0; c1; c2] =>
      populated [c1; c0; c2] /\
      held_karp_algorithm_for_shortest_distance c1 [c0; c2] = Ok 3 /\
      brute_force_find_graph_subset_distance [c0; c2] = Ok (Fin 2) /\
      brute_force_find_graph_subset_distance [c1; c0; c2] = Ok (Fin 2)
  | _ => False
  end.
Proof.
  unfold row_coins. split.
  - eapply populated_perm; [|exact row_coins_populated]. apply Permutation_swap.
  - repeat split; vm_compute; reflexivity.
Qed.

(** ** The starting-node heuristic *)

Lemma elem_of_all_pairs l a c :
  (a, c) ∈ all_pairs l <->
  exists i j, (i < j)%nat /\ l !! i = Some a /\ l !! j = Some c.
Proof.
  revert a c. induction l as [|x rest IH]; intros a c; simpl.
  - split; [by intros ?%elem_of_nil | intros (i & j & _ & H & _); by rewrite lookup_nil in H].
  - rewrite elem_of_app, list_elem_of_fmap, IH. split.
    + intros [(c' & [= -> ->] & Hc) | (i & j & Hij & Hi & Hj)].
      * apply list_elem_of_lookup in Hc as [j Hj]. exists 0%nat, (S j).
        split; [lia | done].
      * exists (S i), (S j). split; [lia | done].
    + intros (i & j & Hij & Hi & Hj). destruct j as [|j]; [lia|].
      destruct i as [|i]; simpl in *.
      * left. exists c. injection Hi as ->. split; [done|].
        by eapply list_elem_of_lookup_2.
      * right. exists i, j. split; [lia | done].
Qed.

Lemma num_lt_le_trans x y z : num_le x y -> num_lt y z -> num_lt x z.
Proof.
  unfold num_le, num_lt, num_leb. destruct x, y, z; simpl; try done;
    rewrite ?negb_true_iff, ?Z.ltb_ge, ?Z.ltb_lt; lia.
Qed.

Lemma num_le_refl x : num_le x x.
Proof. unfold num_le, num_leb. destruct x; simpl; [|done]. by rewrite Z.ltb_irrefl. Qed.

Lemma num_lt_le x y : num_lt x y -> num_le x y.
Proof.
  unfold num_le, num_lt, num_leb. destruct x, y; simpl; try done.
  rewrite negb_true_iff, Z.ltb_ge, Z.ltb_lt. lia.
Qed.

Lemma num_not_lt_le x y : num_ltb x y = false -> num_le y x.
Proof. unfold num_le, num_leb. by intros ->. Qed.

Lemma num_min_list_bound (l : list num) (b : num) :
  (forall x, x ∈ l -> num_lt b x) -> num_lt b Inf -> num_lt b (num_min_list l).
Proof.
  intros Hall Hinf. induction l as [|x l IH]; simpl; [done|].
  unfold num_min. destruct (num_ltb x (num_min_list l)).
  - apply Hall. by left.
  - apply IH. intros y Hy. apply Hall. by right.
Qed.

Lemma num_lt_le_trans' x y z : num_lt x y -> num_le y z -> num_lt x z.
Proof.
  unfold num_le, num_lt, num_leb. destruct x, y, z; simpl; try done;
    rewrite ?negb_true_iff, ?Z.ltb_ge, ?Z.ltb_lt; lia.
Qed.

Lemma num_eqb_eq x y : num_eqb x y = true <-> x = y.
Proof.
  destruct x, y; simpl; try (split; (done || discriminate)).
  rewrite Z.eqb_eq. split; [by intros -> | by intros [= ->]].
Qed.

Lemma filter_none {A : Type} (P : A -> Prop) `{forall x, Decision (P x)} (l : list A) :
  (forall x, x ∈ l -> ~ P x) -> filter P l = [].
Proof.
  induction l as [|x l IH]; intros Hall; [done|].
  rewrite filter_cons_False by (apply Hall; by left).
  apply IH. intros y Hy. apply Hall. by right.
Qed.

Lemma num_min_comm x y : num_min x y = num_min y x.
Proof.
  unfold num_min. destruct x as [x|], y as [y|]; simpl; try done.
  destruct (Z.ltb_spec x y), (Z.ltb_spec y x); try done; try lia. f_equal. lia.
Qed.

Lemma num_min_assoc x y z : num_min x (num_min y z) = num_min (num_min x y) z.
Proof.
  unfold num_min. destruct x as [x|], y as [y|], z as [z|]; simpl; try done;
    repeat (match goal with
            | |- context [?u <? ?v] => destruct (Z.ltb_spec u v)
            end; simpl; try done; try lia).
Qed.

Lemma num_min_Inf_r x : num_min x Inf = x.
Proof. by destruct x. Qed.

Lemma cost_inv_step pre st cand :
  cost_inv pre st -> num_lt (Fin 0) cand.2 ->
  cost_inv (pre ++ [cand]) (cost_step st cand).
Proof.
  intros Hinv Hpos. destruct cand as [c sc]. unfold cost_step. simpl in *.
  right. destruct (num_ltb (max_cost st) sc) eqn:Hlt; simpl.
  - exists (length pre). split; [by apply list_lookup_middle|]. split.
    + intros k' c' s' Hk'. apply lookup_app_Some in Hk' as [Hk' | [_ Hk']].
      * destruct Hinv as [[-> _] | (k & _ & Hall & _)]; [by rewrite lookup_nil in Hk'|].
        apply num_lt_le. eapply num_lt_le_trans; [by eapply Hall | exact Hlt].
      * apply list_lookup_singleton_Some in Hk' as [_ [= _ <-]]. apply num_le_refl.
    + intros k' c' s' Hlen Hk'. rewrite lookup_app_l in Hk' by done.
      destruct Hinv as [[-> _] | (k & _ & Hall & _)]; [by rewrite lookup_nil in Hk'|].
      eapply num_lt_le_trans; [by eapply Hall | exact Hlt].
  - destruct Hinv as [[-> Hzero] | (k & Hk & Hall & Hfirst)].
    { rewrite Hzero in Hlt. unfold num_lt in Hpos. congruence. }
    exists k. split; [by apply lookup_app_l_Some|]. split.
    + intros k' c' s' Hk'. apply lookup_app_Some in Hk' as [Hk' | [_ Hk']].
      * by eapply Hall.
      * apply list_lookup_singleton_Some in Hk' as [_ [= _ <-]].
        by apply num_not_lt_le.
    + intros k' c' s' Hlt' Hk'. apply lookup_lt_Some in Hk as Hklen.
      rewrite lookup_app_l in Hk' by lia. by eapply Hfirst.
Qed.

Lemma scan_endpoints_two c1 c2 others st s1 s2 :
  min_cost_to c1 others Inf = Ok s1 ->
  min_cost_to c2 others Inf = Ok s2 ->
  scan_endpoints [c1; c2] others st
  = Ok (cost_step (cost_step st (c1, s1)) (c2, s2)).
Proof. intros H1 H2. cbn [scan_endpoints]. by rewrite H1, H2. Qed.

Section starting_node.

Variable coins : list Coin.
Hypothesis coins_populated : populated coins.

Lemma pair_distinct e :
  e ∈ all_pairs coins ->
  e.1 ∈ coins /\ e.2 ∈ coins /\ coords e.1 <> coords e.2.
Proof.
  destruct e as [a c]. intros (i & j & Hij & Hi & Hj)%elem_of_all_pairs. simpl.
  split; [by eapply list_elem_of_lookup_2|]. split; [by eapply list_elem_of_lookup_2|].
  intros Heq. assert (i = j); [|lia].
  eapply NoDup_lookup; [apply (pop_distinct _ coins_populated) | |];
    rewrite list_lookup_fmap.
  - by rewrite Hi.
  - rewrite Hj. simpl. by rewrite Heq.
Qed.

Lemma pair_lookup e :
  e ∈ all_pairs coins -> get_step_distance e.1 (coords e.2) = Ok (edge_dist e).
Proof.
  intros (H1 & H2 & Hne)%pair_distinct. unfold get_step_distance, edge_dist, dist.
  by destruct (pop_distance _ coins_populated _ _ H1 H2 Hne) as (d & -> & _).
Qed.

(** What holds of the locals of the first pair of loops once the pairs of
    [ps] have been met *)
Record edges_inv (ps : list edge) (s : edge_scan) : Prop := mk_edges_inv {
  einv_low : forall e, e ∈ ps -> num_le (smallest_distance s) (Fin (edge_dist e));
  einv_edges :
    edges s = filter (fun e => Fin (edge_dist e) = smallest_distance s) ps;
  einv_hit : ps <> [] -> exists e, e ∈ ps /\ smallest_distance s = Fin (edge_dist e);
  einv_empty : ps = [] -> smallest_distance s = Inf
}.

Lemma edges_inv_step ps s e :
  edges_inv ps s ->
  edges_inv (ps ++ [e])
    (if num_ltb (Fin (edge_dist e)) (smallest_distance s)
     then mk_edge_scan (Fin (edge_dist e)) [e]
     else if num_eqb (Fin (edge_dist e)) (smallest_distance s)
          then mk_edge_scan (smallest_distance s) (edges s ++ [e])
          else s).
Proof.
  intros [Hlow Hedges Hhit Hempty].
  assert (Hsnoc : ps ++ [e] <> []) by (by destruct ps).
  destruct (num_ltb (Fin (edge_dist e)) (smallest_distance s)) eqn:Hlt.
  - assert (Hbelow : forall e', e' ∈ ps -> num_lt (Fin (edge_dist e)) (Fin (edge_dist e'))).
    { intros e' He'. eapply num_lt_le_trans'; [exact Hlt | by apply Hlow]. }
    split; simpl.
    + intros e' [He' | ->%list_elem_of_singleton]%elem_of_app.
      * by apply num_lt_le, Hbelow.
      * apply num_le_refl.
    + rewrite filter_app, (filter_singleton_True _ e []) by done.
      rewrite (filter_none _ ps); [done|].
      intros e' He' [= Heq]. apply Hbelow in He'.
      unfold num_lt in He'. simpl in He'. rewrite Heq in He'.
      by rewrite Z.ltb_irrefl in He'.
    + intros _. exists e. split; [apply elem_of_app; right; by left | done].
    + done.
  - assert (Hps : ps <> []).
    { intros Heq. rewrite (Hempty Heq) in Hlt. discriminate. }
    assert (Hle : num_le (smallest_distance s) (Fin (edge_dist e)))
      by (by apply num_not_lt_le).
    destruct (Hhit Hps) as (e0 & He0 & Hs0).
    destruct (num_eqb (Fin (edge_dist e)) (smallest_distance s)) eqn:Heq.
    + apply num_eqb_eq in Heq. split; simpl.
      * intros e' [He' | ->%list_elem_of_singleton]%elem_of_app; [by apply Hlow | done].
      * by rewrite filter_app, (filter_singleton_True _ e []), Hedges by done.
      * intros _. exists e0. split; [apply elem_of_app; by left | done].
      * done.
    + split.
      * intros e' [He' | ->%list_elem_of_singleton]%elem_of_app; [by apply Hlow | done].
      * rewrite filter_app, (filter_singleton_False _ e []), app_nil_r; [done|].
        intros Heq'. apply num_eqb_eq in Heq'. congruence.
      * intros _. exists e0. split; [apply elem_of_app; by left | done].
      * done.
Qed.

Lemma edges_inv_init : edges_inv [] (mk_edge_scan Inf []).
Proof.
  split; simpl; try done. intros e He. by apply elem_of_nil in He.
Qed.

Lemma scan_edges_from_inv a : forall others ps s,
  edges_inv ps s ->
  (forall c, c ∈ others -> (a, c) ∈ all_pairs coins) ->
  exists s', scan_edges_from a others s = Ok s' /\
             edges_inv (ps ++ map (pair a) others) s'.
Proof.
  induction others as [|c rest IH]; intros ps s Hinv Hpairs;
    cbn [scan_edges_from map].
  - exists s. by rewrite app_nil_r.
  - assert (Hl : get_step_distance a (coords c) = Ok (edge_dist (a, c)))
      by (apply (pair_lookup (a, c)), Hpairs; by left).
    rewrite Hl. cbn [mbind result_bind].
    destruct (IH (ps ++ [(a, c)]) _ (edges_inv_step ps s (a, c) Hinv))
      as (s' & -> & Hs').
    { intros c' Hc'. apply Hpairs. by right. }
    exists s'. split; [done|]. by rewrite <- app_assoc in Hs'.
Qed.

Lemma scan_edges_inv : forall todo ps s,
  edges_inv ps s ->
  (forall e, e ∈ all_pairs todo -> e ∈ all_pairs coins) ->
  exists s', scan_edges todo s = Ok s' /\ edges_inv (ps ++ all_pairs todo) s'.
Proof.
  induction todo as [|a rest IH]; intros ps s Hinv Hpairs; simpl.
  - exists s. by rewrite app_nil_r.
  - destruct (scan_edges_from_inv a rest ps s Hinv) as (s1 & -> & Hs1).
    { intros c Hc. apply Hpairs. simpl. apply elem_of_app. left.
      by apply list_elem_of_fmap_2. }
    simpl. destruct (IH _ _ Hs1) as (s' & -> & Hs').
    { intros e He. apply Hpairs. simpl. apply elem_of_app. by right. }
    exists s'. split; [done|]. by rewrite <- app_assoc in Hs'.
Qed.

Lemma outside_distinct e node :
  node ∈ outside coins e ->
  node ∈ coins /\ coords e.1 <> coords node /\ coords e.2 <> coords node.
Proof.
  unfold outside, in_edge, coin_eqb, coord_eqb.
  intros [Hout Hin]%list_elem_of_filter. split; [done|].
  apply orb_false_iff in Hout as [H1 H2].
  by apply bool_decide_eq_false in H1, H2.
Qed.

Lemma min_cost_to_spec c : forall nodes acc,
  (forall node, node ∈ nodes ->
     get_step_distance c (coords node) = Ok (dist c node)) ->
  min_cost_to c nodes acc =
  Ok (num_min acc (num_min_list (map (fun node => Fin (dist c node)) nodes))).
Proof.
  induction nodes as [|node rest IH]; intros acc Hok; cbn [min_cost_to map].
  - by rewrite num_min_Inf_r.
  - rewrite Hok by (by left). cbn [mbind result_bind].
    fold (num_min (Fin (dist c node)) acc).
    rewrite IH by (intros n Hn; apply Hok; by right).
    f_equal. simpl. by rewrite (num_min_comm _ acc), num_min_assoc.
Qed.

Lemma endpoint_score e c :
  e ∈ all_pairs coins -> c = e.1 \/ c = e.2 ->
  min_cost_to c (outside coins e) Inf = Ok (score coins e c) /\
  num_lt (Fin 0) (score coins e c).
Proof.
  intros He Hc. destruct (pair_distinct e He) as (H1 & H2 & _).
  assert (Hcin : c ∈ coins) by (by destruct Hc as [-> | ->]).
  assert (Hne : forall node, node ∈ outside coins e ->
            node ∈ coins /\ coords c <> coords node).
  { intros node (Hin & Hn1 & Hn2)%outside_distinct.
    split; [done|]. by destruct Hc as [-> | ->]. }
  split.
  - rewrite min_cost_to_spec; [done|].
    intros node [Hin Hn]%Hne. unfold get_step_distance, dist.
    by destruct (pop_distance _ coins_populated c node Hcin Hin Hn) as (d & -> & _).
  - apply num_min_list_bound; [|done].
    intros x (node & -> & [Hin Hn]%Hne)%list_elem_of_fmap.
    pose proof (dist_pos coins coins_populated c node Hcin Hin Hn).
    unfold num_lt. simpl. apply Z.ltb_lt. lia.
Qed.

Lemma scan_costs_inv : forall es pre st,
  cost_inv pre st ->
  (forall e, e ∈ es -> e ∈ all_pairs coins) ->
  exists st', scan_costs coins es st = Ok st' /\
              cost_inv (pre ++ candidates coins es) st'.
Proof.
  induction es as [|e rest IH]; intros pre st Hinv Hes; cbn [scan_costs].
  - exists st. split; [done|]. unfold candidates. simpl. by rewrite app_nil_r.
  - assert (He : e ∈ all_pairs coins) by (apply Hes; by left).
    destruct (endpoint_score e e.1 He) as [Hs1 Hp1]; [by left|].
    destruct (endpoint_score e e.2 He) as [Hs2 Hp2]; [by right|].
    fold (outside coins e).
    rewrite (scan_endpoints_two e.1 e.2 _ _ _ _ Hs1 Hs2). cbn [mbind result_bind].
    destruct (IH (pre ++ [(e.1, score coins e e.1)] ++ [(e.2, score coins e e.2)])
                (cost_step (cost_step st (e.1, score coins e e.1))
                   (e.2, score coins e e.2))) as (st' & -> & Hst').
    + rewrite app_assoc. apply cost_inv_step; [|done]. by apply cost_inv_step.
    + intros e' He'. apply Hes. by right.
    + exists st'. split; [done|]. unfold candidates in *. simpl.
      by rewrite <- !app_assoc in Hst'.
Qed.

End starting_node.

(** C9.  For a list of at least two coins with populated distances,
    [find_starting_node] returns a coin [r] such that, [dmin] being the
    smallest distance of a pair of coins and the candidates being the two
    endpoints of every pair at distance [dmin], pair by pair in the order
    met, each with its smallest distance to a coin outside its pair as
    score: [r] is the first candidate whose score is the largest. *)
Theorem find_starting_node_first_best (coins : list Coin) :
  populated coins ->
  (2 <= length coins)%nat ->
  exists r dmin s,
    find_starting_node coins = Ok r /\
    (forall e, e ∈ all_pairs coins -> dmin <= edge_dist e) /\
    (exists e, e ∈ all_pairs coins /\ edge_dist e = dmin /\ (r = e.1 \/ r = e.2)) /\
    first_max
      (candidates coins (filter (fun e => edge_dist e = dmin) (all_pairs coins)))
      r s.
Proof.
  intros Hpop Hlen. unfold find_starting_node.
  destruct (scan_edges_inv coins Hpop coins [] (mk_edge_scan Inf []))
    as (sc & -> & [Hlow Hedges Hhit _]); [apply edges_inv_init | done |].
  cbn [mbind result_bind]. simpl in Hlow, Hedges, Hhit.
  destruct Hhit as (e0 & He0 & Hsmall).
  { destruct coins as [|a [|c rest]]; simpl in Hlen; try lia. done. }
  set (dmin := edge_dist e0) in *.
  assert (Hes : edges sc = filter (fun e => edge_dist e = dmin) (all_pairs coins)).
  { rewrite Hedges, Hsmall. apply list_filter_iff. intros e.
    split; [by intros [= ->] | by intros ->]. }
  assert (He0in : e0 ∈ edges sc) by (rewrite Hes; by apply list_elem_of_filter).
  destruct (edges sc) as [|first es] eqn:Hedg; [by apply elem_of_nil in He0in|].
  cbn [head of_option mbind result_bind].
  destruct (scan_costs_inv coins Hpop (first :: es) [] (mk_cost_scan first.1 (Fin 0)))
    as (st & -> & Hst).
  { by left. }
  { intros e He. rewrite Hes in He. by apply list_elem_of_filter in He as [_ ?]. }
  cbn [mbind result_bind]. change ([] ++ ?x) with x in Hst.
  destruct Hst as [[Hnil _] | Hmax]; [simpl in Hnil; discriminate|].
  exists (max_cost_node st), dmin, (max_cost st). split; [done|]. split.
  - intros e He. specialize (Hlow e He). rewrite Hsmall in Hlow.
    unfold num_le, num_leb in Hlow. simpl in Hlow.
    by apply negb_true_iff, Z.ltb_ge in Hlow.
  - rewrite <- Hes. split; [|exact Hmax].
    destruct Hmax as (k & Hk & _).
    apply list_elem_of_lookup_2 in Hk.
    assert (Hcand : exists e, e ∈ first :: es /\
              (max_cost_node st = e.1 \/ max_cost_node st = e.2)).
    { unfold candidates in Hk.
      apply list_elem_of_In, in_flat_map in Hk as (e & He & Hin).
      exists e. split; [by apply list_elem_of_In|].
      destruct Hin as [[= <- _] | [[= <- _] | []]]; auto. }
    destruct Hcand as (e & He & Hr). exists e.
    rewrite Hes in He. apply list_elem_of_filter in He as [Hd Hin]. done.
Qed.

Lemma find_starting_node_first_best_witness :
  populated memo_coins /\ (2 <= length memo_coins)%nat /\
  exists r dmin s,
    find_starting_node memo_coins = Ok r /\
    first_max
      (candidates memo_coins
         (filter (fun e => edge_dist e = dmin) (all_pairs memo_coins)))
      r s.
Proof.
  assert (Hlen : (2 <= length memo_coins)%nat) by (simpl; lia).
  split; [exact memo_coins_populated|]. split; [exact Hlen|].
  destruct (find_starting_node_first_best memo_coins memo_coins_populated Hlen)
    as (r & dmin & s & Hr & _ & _ & Hmax).
  exists r, dmin, s. split; [exact Hr | exact Hmax].
Defined.

(** * Completeness of the search *)

Lemma free_walkable b p : free b p -> walkable b p = true.
Proof.
  intros (row & ch & H1 & H2 & Hr & Hc & Hw). unfold walkable.
  rewrite Hr, Hc.
  assert ((0 <=? p.1) = true) as -> by lia.
  assert ((0 <=? p.2) = true) as -> by lia. simpl.
  unfold is_char. apply negb_true_iff, Ascii.eqb_neq. done.
Qed.

Lemma elem_of_moves_of b p q : q ∈ moves_of b p <-> unit_move p q /\ free b q.
Proof.
  unfold moves_of. rewrite list_elem_of_In, filter_In, in_map_iff. split.
  - intros [(off & <- & Hoff) Hw]. split; [|by apply walkable_free].
    exists off. split; [by apply list_elem_of_In | done].
  - intros [(off & Hoff & ->) Hf]. split; [|by apply free_walkable].
    exists off. split; [done | by apply list_elem_of_In].
Qed.

Lemma unit_move_sym p q : unit_move p q -> unit_move q p.
Proof.
  intros (off & Hin & ->). exists (- off.1, - off.2). split.
  - unfold offsets in *.
    repeat (apply elem_of_cons in Hin as [-> | Hin]); simpl;
      [set_solver..|by apply elem_of_nil in Hin].
  - destruct p as [r c]. simpl. f_equal; lia.
Qed.

Lemma moves_of_nil b a : moves_of b a = [] <-> isolated b a.
Proof.
  split.
  - intros H q Hm Hf.
    assert (Hq : q ∈ moves_of b a) by (by apply elem_of_moves_of).
    rewrite H in Hq. by apply elem_of_nil in Hq.
  - intros H. destruct (moves_of b a) as [|q l] eqn:Hms; [done|].
    assert (Hq : q ∈ moves_of b a) by (rewrite Hms; by left).
    apply elem_of_moves_of in Hq as [Hm Hf]. by destruct (H q).
Qed.

Lemma head_insert_by key x l :
  head (insert_by key x l) =
  Some (match l with
        | [] => x
        | y :: _ => if key x <=? key y then x else y
        end).
Proof. destruct l as [|y ys]; simpl; [done|]. by destruct (key x <=? key y). Qed.

Lemma head_sorted_by_min key l x :
  head (sorted_by key l) = Some x -> forall y, y ∈ l -> key x <= key y.
Proof.
  revert x. induction l as [|a l IH]; intros x Hx y Hy.
  - by apply elem_of_nil in Hy.
  - simpl in Hx. rewrite head_insert_by in Hx. injection Hx as Hx.
    fold (sorted_by key l) in Hx, IH.
    destruct (sorted_by key l) as [|h s] eqn:Hs.
    + subst x. apply elem_of_cons in Hy as [-> | Hy]; [lia|].
      apply (elem_of_sorted_by key) in Hy. rewrite Hs in Hy.
      by apply elem_of_nil in Hy.
    + specialize (IH h eq_refl).
      destruct (Z.leb_spec (key a) (key h)); subst x.
      * apply elem_of_cons in Hy as [-> | Hy]; [lia|].
        specialize (IH y Hy). lia.
      * apply elem_of_cons in Hy as [-> | Hy]; [lia|]. by apply IH.
Qed.

(** The goal sorts first among the neighbours whenever it is one of them *)
Lemma goal_first goal ms :
  goal ∈ ms -> head (sorted_by (sq_distance goal) ms) = Some goal.
Proof.
  intros Hin.
  destruct (sorted_by (sq_distance goal) ms) as [|x s] eqn:Hs.
  - apply (elem_of_sorted_by (sq_distance goal)) in Hin. rewrite Hs in Hin.
    by apply elem_of_nil in Hin.
  - simpl. f_equal.
    assert (Hx : head (sorted_by (sq_distance goal) ms) = Some x) by (by rewrite Hs).
    pose proof (head_sorted_by_min _ _ _ Hx goal Hin) as Hle.
    unfold sq_distance in Hle. destruct goal as [gr gc], x as [xr xc].
    simpl in Hle. f_equal; nia.
Qed.

Lemma relax_seen d ms st x :
  x ∈ st_open (relax d ms st) ++ st_close st <->
  x ∈ ms \/ x ∈ st_open st ++ st_close st.
Proof.
  revert st. induction ms as [|m rest IH]; intros st.
  - simpl. rewrite elem_of_nil. tauto.
  - cbn [relax].
    destruct (mem m (st_close st) || mem m (st_open st)) eqn:Hseen.
    + pose proof (IH (mk_astar (<[m:=d]> (st_n_movements st)) (st_open st)
                        (st_close st))) as H.
      cbn [st_open st_close] in H. rewrite H.
      rewrite elem_of_cons, elem_of_app.
      apply orb_true_iff in Hseen as [Hm | Hm]; apply bool_decide_eq_true in Hm;
        split; try tauto; intros [[-> | ?] | ?]; tauto.
    + pose proof (IH (mk_astar (<[m:=d]> (st_n_movements st)) (m :: st_open st)
                        (st_close st))) as H.
      cbn [st_open st_close] in H. rewrite H.
      rewrite !elem_of_cons, !elem_of_app, elem_of_cons. tauto.
Qed.

Lemma astar_loop_complete fuel b a goal st :
  rectangular b ->
  search_inv b a goal st ->
  (astar_loop fuel b goal st = Err NoPath ->
   exists close : list coord,
     a ∈ close /\
     (forall x y, x ∈ close -> y ∈ moves_of b x -> y ∈ close) /\
     (forall x, x ∈ close -> goal ∉ moves_of b x)) /\
  (astar_loop fuel b goal st = Err IndexError -> moves_of b a = []).
Proof.
  intros Hrect. revert st. induction fuel as [|fuel IH]; intros st Hinv.
  - simpl. destruct (st_open st) as [|node rest] eqn:Hopen; [|split; discriminate].
    destruct Hinv as [Hs Hc Hg _ _]. rewrite Hopen in *. simpl in *.
    split; [|discriminate]. intros _. exists (st_close st). auto.
  - simpl. destruct (st_open st) as [|node rest] eqn:Hopen.
    { destruct Hinv as [Hs Hc Hg _ _]. rewrite Hopen in *. simpl in *.
      split; [|discriminate]. intros _. exists (st_close st). auto. }
    unfold astar_turn. simpl.
    destruct (st_n_movements st !! node) as [d|]; simpl; [|split; discriminate].
    rewrite get_movements_rect by done. simpl.
    destruct Hinv as [Hs Hc Hg Hf Hp]. rewrite Hopen in *.
    destruct (head (sorted_by (sq_distance goal) (moves_of b node)))
      as [first|] eqn:Hhead; simpl.
    2:{ split; [discriminate|]. intros _.
        assert (Hnil : moves_of b node = []).
        { destruct (moves_of b node) as [|q l] eqn:Hms; [done|].
          assert (Hq : q ∈ sorted_by (sq_distance goal) (q :: l))
            by (apply elem_of_sorted_by; by left).
          destruct (sorted_by (sq_distance goal) (q :: l)); [|discriminate].
          by apply elem_of_nil in Hq. }
        destruct (Hp node) as [-> | Hne]; [by left | done | done]. }
    destruct (coord_eqb goal first) eqn:Hgoal; simpl; [split; discriminate|].
    apply IH. 
    assert (Hseen : forall x,
      x ∈ st_open (relax (d + 1) (sorted_by (sq_distance goal) (moves_of b node))
                     (mk_astar (st_n_movements st) rest (node :: st_close st))) ++
          node :: st_close st <->
      x ∈ moves_of b node \/ x ∈ (node :: rest) ++ st_close st).
    { intros x.
      pose proof (relax_seen (d + 1) (sorted_by (sq_distance goal) (moves_of b node))
                    (mk_astar (st_n_movements st) rest (node :: st_close st)) x) as H.
      simpl in H. rewrite H, elem_of_sorted_by.
      simpl. rewrite !elem_of_app, !elem_of_cons, elem_of_app. tauto. }
    assert (Hnode : free b node) by (apply Hf; by left).
    split; rewrite ?relax_open_close; simpl.
    + apply Hseen. by right.
    + intros x y [-> | Hx]%elem_of_cons Hy; apply Hseen; [by left|].
      right. by eapply Hc.
    + intros x [-> | Hx]%elem_of_cons; [|by apply Hg].
      intros Hin. apply goal_first in Hin. rewrite Hhead in Hin.
      injection Hin as ->. unfold coord_eqb in Hgoal.
      by apply bool_decide_eq_false in Hgoal.
    + intros x [Hx | Hx]%Hseen; [|by apply Hf].
      by apply elem_of_moves_of in Hx as [_ ?].
    + intros x [Hx | Hx]%Hseen; [|by apply Hp].
      right. apply elem_of_moves_of in Hx as [Hm _].
      intros Hnil.
      assert (Hin : node ∈ moves_of b x)
        by (apply elem_of_moves_of; split; [by apply unit_move_sym | done]).
      rewrite Hnil in Hin. by apply elem_of_nil in Hin.
Qed.

Lemma closed_walk b a (close : list coord) :
  a ∈ close ->
  (forall x y, x ∈ close -> y ∈ moves_of b x -> y ∈ close) ->
  forall x n, walk b a x n -> x ∈ close.
Proof.
  intros Ha Hc x n Hw. induction Hw as [|x y n Hw IH Hm Hf]; [done|].
  apply (Hc x y IH). by apply elem_of_moves_of.
Qed.

Lemma walk_first_move b a x n :
  walk b a x n -> x = a \/ moves_of b a <> [].
Proof.
  induction 1 as [|x y n Hw IH Hm Hf]; [by left|]. right.
  destruct IH as [-> | IH]; [|done].
  intros Hnil.
  assert (Hin : y ∈ moves_of b a) by (by apply elem_of_moves_of).
  rewrite Hnil in Hin. by apply elem_of_nil in Hin.
Qed.

Lemma search_inv_init b a goal :
  free b a -> search_inv b a goal (mk_astar {[ a := 0 ]} [a] []).
Proof.
  intros Hf. split; simpl.
  - by left.
  - intros x y Hx. by apply elem_of_nil in Hx.
  - intros x Hx. by apply elem_of_nil in Hx.
  - intros x [-> | Hx]%elem_of_cons; [done | by apply elem_of_nil in Hx].
  - intros x [-> | Hx]%elem_of_cons; [by left | by apply elem_of_nil in Hx].
Qed.

Lemma find_path_no_path b a goal :
  rectangular b -> free b a -> a <> goal ->
  find_path_len_with_a_star a goal b = Err NoPath ->
  forall n, ~ walk b a goal n.
Proof.
  intros Hrect Hf Hne H n Hw.
  destruct (astar_loop_complete (astar_fuel b) b a goal _ Hrect
              (search_inv_init b a goal Hf)) as [Hno _].
  destruct (Hno H) as (close & Ha & Hc & Hg).
  inversion Hw as [|x y m Hw' Hm Hfy]; subst; [done|].
  apply (Hg x).
  - by eapply closed_walk.
  - by apply elem_of_moves_of.
Qed.

Lemma find_path_index_error b a goal :
  rectangular b -> free b a ->
  find_path_len_with_a_star a goal b = Err IndexError -> moves_of b a = [].
Proof.
  intros Hrect Hf H.
  by destruct (astar_loop_complete (astar_fuel b) b a goal _ Hrect
                 (search_inv_init b a goal Hf)) as [_ Hie]; apply Hie.
Qed.

Lemma find_path_isolated b a goal :
  rectangular b -> moves_of b a = [] ->
  find_path_len_with_a_star a goal b = Err IndexError.
Proof.
  intros Hrect Hnil. unfold find_path_len_with_a_star, astar_fuel.
  cbn [astar_loop st_open]. unfold astar_turn. cbn [st_n_movements].
  rewrite lookup_singleton_eq. simpl.
  rewrite get_movements_rect, Hnil by done. done.
Qed.

Lemma find_path_reachable b a goal n :
  rectangular b -> free b a -> a <> goal -> walk b a goal n ->
  exists d, find_path_len_with_a_star a goal b = Ok d.
Proof.
  intros Hrect Hf Hne Hw.
  destruct (find_path_len_with_a_star a goal b) as [d|e] eqn:H; [by eexists|].
  exfalso. destruct (find_path_len_raises _ _ _ _ H) as [-> | ->].
  - by eapply find_path_no_path.
  - apply find_path_index_error in H; [|done..].
    by destruct (walk_first_move _ _ _ _ Hw) as [-> | ?].
Qed.

(** X1.  On a rectangular board, from a free cell [a] to another cell
    [goal], [find_path_len_with_a_star] returns a count exactly when some
    walk of unit moves through free cells leads from [a] to [goal]. *)
Theorem oracle_returns_iff_reachable (b : board) (a goal : coord) :
  rectangular b -> free b a -> a <> goal ->
  (exists d, find_path_len_with_a_star a goal b = Ok d) <->
  (exists n, walk b a goal n).
Proof.
  intros Hrect Hf Hne. split.
  - intros [d Hd]. exists d. by apply find_path_len_is_walk in Hd as [? _].
  - intros [n Hn]. by eapply find_path_reachable.
Qed.

Lemma rectangular_fork_board : rectangular fork_board.
Proof. by repeat constructor. Qed.

Lemma free_fork_board_start : free fork_board (0, 0).
Proof. by apply walkable_free. Qed.

Lemma oracle_returns_iff_reachable_witness :
  rectangular fork_board /\ free fork_board (0, 0) /\ (0, 0) <> (0, 2) /\
  exists d, find_path_len_with_a_star (0, 0) (0, 2) fork_board = Ok d.
Proof.
  assert (Hne : (0, 0) <> (0, 2)) by discriminate.
  split; [exact rectangular_fork_board|].
  split; [exact free_fork_board_start|]. split; [exact Hne|].
  apply (oracle_returns_iff_reachable fork_board (0, 0) (0, 2)
           rectangular_fork_board free_fork_board_start Hne).
  exists 2. exact (proj1 fork_board_shortest).
Defined.

(** X2.  On a rectangular board, from a free cell [a], the search raises
    [IndexError] (from [movements[0]]) exactly when [a] has no free
    neighbour, whatever the goal. *)
Theorem oracle_index_error_iff_isolated (b : board) (a goal : coord) :
  rectangular b -> free b a ->
  find_path_len_with_a_star a goal b = Err IndexError <-> isolated b a.
Proof.
  intros Hrect Hf. rewrite <- moves_of_nil. split.
  - by apply find_path_index_error.
  - by apply find_path_isolated.
Qed.

Lemma rectangular_walled_board : rectangular walled_board.
Proof. by repeat constructor. Qed.

Lemma oracle_index_error_iff_isolated_witness :
  rectangular walled_board /\ free walled_board (0, 0) /\
  isolated walled_board (0, 0) /\
  find_path_len_with_a_star (0, 0) (0, 2) walled_board = Err IndexError.
Proof.
  assert (Hf : free walled_board (0, 0)) by (by apply walkable_free).
  assert (Hi : isolated walled_board (0, 0)) by (by apply moves_of_nil).
  split; [exact rectangular_walled_board|]. split; [exact Hf|].
  split; [exact Hi|].
  exact (proj2 (oracle_index_error_iff_isolated walled_board (0, 0) (0, 2)
                  rectangular_walled_board Hf) Hi).
Defined.

(** X3.  On a rectangular board, from a free cell [a] to another cell
    [goal], the search raises [NoPath] exactly when [a] has a free neighbour
    and no walk leads from [a] to [goal]. *)
Theorem oracle_no_path_iff_unreachable (b : board) (a goal : coord) :
  rectangular b -> free b a -> a <> goal ->
  find_path_len_with_a_star a goal b = Err NoPath <->
  ~ isolated b a /\ forall n, ~ walk b a goal n.
Proof.
  intros Hrect Hf Hne. split.
  - intros H. split.
    + intros Hi. apply moves_of_nil in Hi.
      rewrite (find_path_isolated _ _ goal Hrect Hi) in H. discriminate.
    + by apply find_path_no_path.
  - intros [Hi Hno].
    destruct (find_path_len_with_a_star a goal b) as [d|e] eqn:H.
    + apply find_path_len_is_walk in H as [Hw _]. by destruct (Hno d).
    + destruct (find_path_len_raises _ _ _ _ H) as [-> | ->]; [done|].
      apply find_path_index_error in H; [|done..].
      by apply moves_of_nil in H.
Qed.

Lemma oracle_no_path_iff_unreachable_witness :
  rectangular split_board /\ free split_board (0, 0) /\ (0, 0) <> (0, 3) /\
  forall n, ~ walk split_board (0, 0) (0, 3) n.
Proof.
  assert (Hr : rectangular split_board) by (by repeat constructor).
  assert (Hf : free split_board (0, 0)) by (by apply walkable_free).
  assert (Hne : (0, 0) <> (0, 3)) by discriminate.
  split; [exact Hr|]. split; [exact Hf|]. split; [exact Hne|].
  apply (proj1 (oracle_no_path_iff_unreachable split_board (0, 0) (0, 3) Hr Hf Hne)).
  vm_compute. reflexivity.
Defined.

(** X4.  On a rectangular board, when [goal] is a free cell one move away
    from [a], the search returns 1: the goal sorts first among the
    neighbours of [a]. *)
Theorem oracle_adjacent_goal (b : board) (a goal : coord) :
  rectangular b -> unit_move a goal -> free b goal ->
  find_path_len_with_a_star a goal b = Ok 1.
Proof.
  intros Hrect Hm Hf. unfold find_path_len_with_a_star, astar_fuel.
  cbn [astar_loop st_open]. unfold astar_turn. cbn [st_n_movements].
  rewrite lookup_singleton_eq. simpl.
  rewrite get_movements_rect by done. simpl.
  rewrite goal_first by (by apply elem_of_moves_of). simpl.
  unfold coord_eqb. by rewrite bool_decide_eq_true_2.
Qed.

Lemma oracle_adjacent_goal_witness :
  rectangular fork_board /\ unit_move (0, 0) (1, 0) /\ free fork_board (1, 0) /\
  find_path_len_with_a_star (0, 0) (1, 0) fork_board = Ok 1.
Proof.
  assert (Hm : unit_move (0, 0) (1, 0)).
  { exists (1, 0). split; [by left | reflexivity]. }
  assert (Hf : free fork_board (1, 0)) by (by apply walkable_free).
  split; [exact rectangular_fork_board|]. split; [exact Hm|]. split; [exact Hf|].
  exact (oracle_adjacent_goal fork_board (0, 0) (1, 0) rectangular_fork_board Hm Hf).
Defined.

(** * get_movements, on every board *)

Lemma NoDup_list_filter {A : Type} (f : A -> bool) (l : list A) :
  NoDup l -> NoDup (List.filter f l).
Proof.
  induction 1 as [|x l Hx Hl IH]; simpl; [constructor|].
  destruct (f x); [|done]. constructor; [|done].
  rewrite list_elem_of_In, filter_In, <- list_elem_of_In. tauto.
Qed.

Lemma NoDup_moves_of b p : NoDup (moves_of b p).
Proof.
  apply NoDup_list_filter. destruct p as [r c]. unfold offsets, shift. simpl.
  repeat (constructor; [rewrite ?elem_of_cons, elem_of_nil;
                        intros H; repeat destruct H as [H | H];
                        try done; injection H; lia|]).
  constructor.
Qed.

(** X5.  On a board whose rows all have the length of the first one,
    [get_movements] does not raise, and returns, without repetition, exactly
    the cells one unit move away from [position] that are inside the board
    and not a wall. *)
Theorem get_movements_free_neighbours (position : coord) (b : board) :
  rectangular b ->
  exists ms, get_movements position b = Ok ms /\ NoDup ms /\
             forall q, q ∈ ms <-> unit_move position q /\ free b q.
Proof.
  intros Hrect. exists (moves_of b position).
  split; [by apply get_movements_rect|]. split; [apply NoDup_moves_of|].
  intros q. apply elem_of_moves_of.
Qed.

Lemma get_movements_free_neighbours_witness :
  rectangular fork_board /\
  exists ms, get_movements (0, 1) fork_board = Ok ms /\
             forall q, q ∈ ms <-> unit_move (0, 1) q /\ free fork_board q.
Proof.
  split; [exact rectangular_fork_board|].
  destruct (get_movements_free_neighbours (0, 1) fork_board rectangular_fork_board)
    as (ms & Hms & _ & Hq).
  exists ms. split; [exact Hms | exact Hq].
Defined.

(** X6.  On any board, [get_movements] either returns cells that are each
    one unit move away from [position], free, and inside the [len(board)] by
    [len(board[0])] rectangle, or raises [IndexError]; it can only raise on
    a board with a row whose length differs from that of the first row. *)
Theorem get_movements_outcome (position : coord) (b : board) :
  match get_movements position b with
  | Ok ms =>
      forall q, q ∈ ms ->
        unit_move position q /\ free b q /\
        0 <= q.1 < len_board b /\ 0 <= q.2 < Z.of_nat (board_width b)
  | Err e => e = IndexError /\ ~ rectangular b
  end.
Proof.
  destruct (get_movements position b) as [ms|e] eqn:H.
  - intros q Hq.
    destruct (get_movements_sound _ _ _ H q Hq) as (Hm & Hf & Hr & Hc).
    repeat split; try done; try lia. unfold board_width.
    destruct b; unfold len_str in Hc; lia.
  - split; [by eapply get_movements_raises|].
    intros Hrect. by rewrite get_movements_rect in H.
Qed.

(** * The scan finds exactly the coins *)

Lemma string_get_list_ascii (s : string) (k : nat) :
  String.get k s = list_ascii_of_string s !! k.
Proof.
  revert k. induction s as [|ch s IH]; intros [|k]; simpl; auto.
Qed.

Lemma scan_row_cells r c row coins p :
  p ∈ map coords (scan_row r c row coins) <->
  p ∈ map coords coins \/
  exists k : nat, p = (r, c + Z.of_nat k) /\ row !! k = Some coin_char.
Proof.
  revert c coins. induction row as [|ch rest IH]; intros c coins; simpl.
  - split; [by left|]. intros [H | (k & _ & Hk)]; [done|].
    by rewrite lookup_nil in Hk.
  - rewrite IH. unfold is_char. destruct (Ascii.eqb_spec ch coin_char) as [->|Hne].
    + rewrite map_app, elem_of_app. simpl. rewrite list_elem_of_singleton. split.
      * intros [[H | ->] | (k & -> & Hk)].
        -- by left.
        -- right. exists 0%nat. split; [f_equal; lia | done].
        -- right. exists (S k). split; [f_equal; lia | done].
      * intros [H | ([|k] & -> & Hk)].
        -- by left; left.
        -- left; right. f_equal; lia.
        -- right. exists k. split; [f_equal; lia | done].
    + split.
      * intros [H | (k & -> & Hk)]; [by left|].
        right. exists (S k). split; [f_equal; lia | done].
      * intros [H | ([|k] & -> & Hk)]; [by left | |].
        -- simpl in Hk. congruence.
        -- right. exists k. split; [f_equal; lia | done].
Qed.

Lemma scan_rows_cells r rows coins p :
  p ∈ map coords (scan_rows r rows coins) <->
  p ∈ map coords coins \/
  exists (j k : nat) row,
    rows !! j = Some row /\ p = (r + Z.of_nat j, Z.of_nat k) /\
    String.get k row = Some coin_char.
Proof.
  revert r coins. induction rows as [|row rest IH]; intros r coins; simpl.
  - split; [by left|]. intros [H | (j & k & row & Hj & _)]; [done|].
    by rewrite lookup_nil in Hj.
  - rewrite IH, scan_row_cells. split.
    + intros [[H | (k & -> & Hk)] | (j & k & row' & Hj & -> & Hk)].
      * by left.
      * right. exists 0%nat, k, row. rewrite string_get_list_ascii.
        split; [done|]. split; [f_equal; lia | done].
      * right. exists (S j), k, row'. split; [done|]. split; [f_equal; lia | done].
    + intros [H | ([|j] & k & row' & Hj & -> & Hk)].
      * by left; left.
      * simpl in Hj. injection Hj as <-. left; right. exists k.
        rewrite <- string_get_list_ascii. split; [f_equal; lia | done].
      * right. exists j, k, row'. split; [done|]. split; [f_equal; lia | done].
Qed.

Lemma scan_board_cells b p : p ∈ map coords (scan_board b) <-> coin_cell b p.
Proof.
  unfold scan_board. rewrite scan_rows_cells. split.
  - intros [H | (j & k & row & Hj & -> & Hk)]; [by apply elem_of_nil in H|].
    exists row. simpl. rewrite Z.add_0_l, !Nat2Z.id. repeat split; try lia; done.
  - intros (row & H1 & H2 & Hr & Hc). right.
    exists (Z.to_nat p.1), (Z.to_nat p.2), row. split; [done|]. split; [|done].
    destruct p as [r c]. simpl in *. f_equal; lia.
Qed.

Lemma reading_sorted_snoc r c coins i :
  reading_sorted coins ->
  Forall (fun k => before r c (coords k)) coins ->
  reading_sorted (coins ++ [mkCoin (r, c) i ∅]).
Proof.
  intros Hs Hbef x y cx cy Hx Hy Hlt.
  apply lookup_app_Some in Hy as [Hy | [Hge Hy]].
  - rewrite lookup_app_l in Hx by (apply lookup_lt_Some in Hy; lia).
    by eapply Hs.
  - apply list_lookup_singleton_Some in Hy as [Hy <-].
    rewrite lookup_app_l in Hx by lia.
    rewrite Forall_forall in Hbef. apply (Hbef cx).
    by eapply list_elem_of_lookup_2.
Qed.

Lemma scan_row_sorted r c row coins :
  scan_inv r c coins -> reading_sorted coins ->
  reading_sorted (scan_row r c row coins).
Proof.
  revert c coins. induction row as [|ch rest IH]; intros c coins Hinv Hs; simpl;
    [done|].
  pose proof (scan_row_inv r c [ch] coins Hinv) as Hnext. simpl in Hnext.
  destruct (is_char ch coin_char) eqn:Hch.
  - apply IH.
    + destruct Hinv as [Hnd Hbef Hidx Hemp]. split.
      * rewrite map_app. simpl. apply NoDup_app. split; [done|]. split.
        -- intros p Hp [-> | Hx]%elem_of_cons; [|by apply elem_of_nil in Hx].
           apply list_elem_of_fmap in Hp as (k & Hk & Hin).
           rewrite Forall_forall in Hbef. apply Hbef in Hin.
           unfold before in Hin. rewrite <- Hk in Hin. simpl in Hin. lia.
        -- apply NoDup_singleton.
      * apply Forall_app. split.
        -- eapply Forall_impl; [exact Hbef|]. intros k. unfold before. lia.
        -- constructor; [|constructor]. unfold before. simpl. lia.
      * intros k ck Hk. apply lookup_app_Some in Hk as [Hk | [Hge Hk]].
        -- by apply Hidx.
        -- apply list_lookup_singleton_Some in Hk as [Hk <-]. simpl. lia.
      * apply Forall_app. split; [done|]. by constructor.
    + apply reading_sorted_snoc; [done|]. by destruct Hinv.
  - apply IH; [|done]. destruct Hinv as [Hnd Hbef Hidx Hemp]. split; try done.
    eapply Forall_impl; [exact Hbef|]. intros k. unfold before. lia.
Qed.

Lemma scan_rows_sorted r rows coins :
  scan_inv r 0 coins -> reading_sorted coins ->
  reading_sorted (scan_rows r rows coins).
Proof.
  revert r coins. induction rows as [|row rest IH]; intros r coins Hinv Hs; simpl;
    [done|].
  apply IH; [by apply scan_row_inv | by apply scan_row_sorted].
Qed.

(** X7.  The coin list built by the scan of [get_expected_length] holds one
    coin for each cell of the board that shows [*] and nothing else; the
    coins come in reading order (row by row, left to right), the attribute
    [i] of a coin is its position in the list, and every coin starts with an
    empty distance map. *)
Theorem scan_board_coins (b : board) :
  (forall p, p ∈ map coords (scan_board b) <-> coin_cell b p) /\
  reading_sorted (scan_board b) /\
  (forall k c, scan_board b !! k = Some c ->
     coin_i c = Z.of_nat k /\ step_distance c = ∅).
Proof.
  split; [apply scan_board_cells|].
  assert (Hinit : scan_inv 0 0 []).
  { split; simpl; try constructor. intros k ck Hk. by rewrite lookup_nil in Hk. }
  split.
  - apply scan_rows_sorted; [done|].
    intros i j ci cj Hi. by rewrite lookup_nil in Hi.
  - intros k c Hk. destruct (scan_board_inv b) as [r [_ _ Hidx Hemp]].
    split; [by apply Hidx|].
    rewrite Forall_forall in Hemp. apply Hemp. by eapply list_elem_of_lookup_2.
Qed.

(** * When the distance pass succeeds *)

Section distances_total.

Variable b : board.
Variable cs : list Coin.
Hypothesis cs_distinct : NoDup (map coords cs).
Hypothesis oracle_returns : forall i j ci cj,
  cs !! i = Some ci -> cs !! j = Some cj -> (i < j)%nat ->
  exists d, find_path_len_with_a_star (coords ci) (coords cj) b = Ok d.

Lemma set_distances_from_total idx others : forall done cur,
  distances_inv b cs done cur ->
  (forall j, j ∈ others -> (idx < j < length cs)%nat) ->
  exists cur', set_distances_from b idx others cur = Ok cur'.
Proof.
  induction others as [|jdx rest IH]; intros done cur Hinv Hothers; simpl;
    [by eexists|].
  destruct (Hothers jdx) as [Hlt Hlen]; [by left|].
  pose proof (dinv_length _ _ _ _ Hinv) as Hcur.
  destruct (lookup_lt_is_Some_2 cur idx) as [ca Hca]; [lia|].
  destruct (lookup_lt_is_Some_2 cur jdx) as [cb Hcb]; [lia|].
  rewrite Hca, Hcb. simpl.
  destruct (dinv_same _ _ _ _ Hinv _ _ Hca) as (a0 & Ha0 & Hac & _).
  destruct (dinv_same _ _ _ _ Hinv _ _ Hcb) as (b0 & Hb0 & Hbc & _).
  destruct (oracle_returns idx jdx a0 b0 Ha0 Hb0 Hlt) as [d Hd].
  rewrite Hac, Hbc, Hd. simpl.
  rewrite list_lookup_insert_ne, Hcb by lia. simpl.
  rewrite <- Hac, <- Hbc in Hd. rewrite <- Hac, <- Hbc.
  eapply IH.
  - by apply (distances_inv_step b cs cs_distinct done cur idx jdx ca cb d).
  - intros j Hj. apply Hothers. by right.
Qed.

Lemma set_distances_loop_total idxs : forall done cur,
  distances_inv b cs done cur ->
  exists cur', set_distances_loop b idxs cur = Ok cur'.
Proof.
  induction idxs as [|idx rest IH]; intros done cur Hinv; simpl; [by eexists|].
  pose proof (dinv_length _ _ _ _ Hinv) as Hcur.
  destruct (set_distances_from_total idx (seq (S idx) (length cur - S idx)) done cur)
    as [cur' Hcur']; [done | |].
  { intros j Hj. apply elem_of_seq in Hj. lia. }
  rewrite Hcur'. simpl. eapply IH.
  eapply set_distances_from_inv; [done | exact Hinv | | exact Hcur'].
  intros j Hj. apply elem_of_seq in Hj. lia.
Qed.

Lemma set_coin_distances_total : exists cs', set_coin_distances cs b = Ok cs'.
Proof.
  apply set_distances_loop_total with (done := []). by apply distances_inv_init.
Qed.

End distances_total.

Lemma coin_cell_free b p : coin_cell b p -> free b p.
Proof.
  intros (row & H1 & H2 & Hr & Hc). exists row, coin_char. by repeat split.
Qed.

Lemma combinations_none {A : Type} (l : list A) (r : nat) :
  (length l < r)%nat -> combinations l r = [].
Proof.
  revert r. induction l as [|y l IH]; intros [|r] Hr; simpl in *; try lia; [done|].
  rewrite !IH by lia. done.
Qed.

(** The aggregator once the distances are set *)
Lemma expected_length_total b (K : nat) coins :
  set_coin_distances (scan_board b) b = Ok coins ->
  (1 <= K <= length coins)%nat ->
  exists v, get_expected_length b (Z.of_nat K) = Ok v.
Proof.
  intros Hcoins HK.
  pose proof (set_coin_distances_populated _ _ _ (scan_board_distinct b) Hcoins)
    as Hpop.
  destruct (tour_lengths_total coins Hpop (combinations coins K) K
              (Some (Memo.init (Z.of_nat (length coins)))))
    as (lens & Hlens & Hlen); [lia | apply combinations_sublist | done |].
  rewrite length_combinations in Hlen.
  pose proof (choose_pos (length coins) K ltac:(lia)) as Hpos.
  unfold get_expected_length. rewrite Hcoins. simpl.
  destruct (Z.ltb_spec (Z.of_nat K) 0) as [?|_]; [lia|].
  rewrite Nat2Z.id, path_lengths_loop_tours, Hlens. simpl.
  destruct lens as [|l lens]; [simpl in Hlen; lia|].
  unfold mean. destruct (num_sum (l :: lens)); by eexists.
Qed.

(** X8.  On a rectangular board whose coins can all be walked to from one
    another (the precondition the docstring of [get_expected_length] states),
    the call returns a value for every [K] from 1 to the number of coins: no
    search raises, no distance is missing, and the mean is over at least
    one combination. *)
Theorem expected_length_returns (b : board) (K : nat) :
  rectangular b -> connected b ->
  (1 <= K <= length (scan_board b))%nat ->
  exists v, get_expected_length b (Z.of_nat K) = Ok v.
Proof.
  intros Hrect Hconn HK.
  destruct (set_coin_distances_total b (scan_board b) (scan_board_distinct b))
    as [coins Hcoins].
  { intros i j ci cj Hi Hj Hlt.
    assert (Hci : coin_cell b (coords ci)).
    { apply scan_board_cells, list_elem_of_fmap. exists ci.
      split; [done | by eapply list_elem_of_lookup_2]. }
    assert (Hcj : coin_cell b (coords cj)).
    { apply scan_board_cells, list_elem_of_fmap. exists cj.
      split; [done | by eapply list_elem_of_lookup_2]. }
    destruct (Hconn _ _ Hci Hcj) as [n Hn].
    eapply find_path_reachable; [done | by apply coin_cell_free | | exact Hn].
    intros Heq.
    assert (i = j); [|lia].
    eapply NoDup_lookup; [apply (scan_board_distinct b) | |];
      rewrite list_lookup_fmap.
    - by rewrite Hi.
    - rewrite Hj. simpl. by rewrite Heq. }
  apply (expected_length_total b K coins Hcoins).
  apply set_coin_distances_spec in Hcoins as [Hlen _];
    [lia | apply scan_board_distinct].
Qed.

Lemma walk_step b a x y n m :
  walk b a x n -> unit_move x y -> walkable b y = true -> m = n + 1 ->
  walk b a y m.
Proof. intros Hw Hm Hf ->. apply (walk_move b a x y n Hw Hm). by apply walkable_free. Qed.

Lemma unit_move_intro p off : off ∈ offsets -> unit_move p (shift p off).
Proof. intros Hoff. by exists off. Qed.

Lemma connected_fork_board : connected fork_board.
Proof.
  assert (Hback : walk fork_board (0, 2) (0, 0) 2).
  { apply (walk_step _ _ (0, 1) _ 1); [|apply (unit_move_intro (0, 1) (0, -1));
      set_solver | done..].
    apply (walk_step _ _ (0, 2) _ 0); [constructor | | done..].
    apply (unit_move_intro (0, 2) (0, -1)). set_solver. }
  intros p q Hp%scan_board_cells Hq%scan_board_cells.
  change (map coords (scan_board fork_board)) with [(0, 0); (0, 2)] in Hp, Hq.
  apply elem_of_cons in Hp as [-> | Hp%list_elem_of_singleton];
    apply elem_of_cons in Hq as [-> | Hq%list_elem_of_singleton]; subst.
  - exists 0. constructor.
  - exists 2. exact (proj1 fork_board_shortest).
  - by exists 2.
  - exists 0. constructor.
Qed.

Lemma expected_length_returns_witness :
  rectangular fork_board /\ connected fork_board /\
  (1 <= 2 <= length (scan_board fork_board))%nat /\
  exists v, get_expected_length fork_board 2 = Ok v.
Proof.
  assert (HK : (1 <= 2 <= length (scan_board fork_board))%nat) by (simpl; lia).
  split; [exact rectangular_fork_board|]. split; [exact connected_fork_board|].
  split; [exact HK|].
  exact (expected_length_returns fork_board 2 rectangular_fork_board
           connected_fork_board HK).
Defined.

(** * The degenerate sizes *)

Lemma traverse_no_remaining current m depth best_distance :
  traverse_graph_with_nn current [] (Some m) depth best_distance =
  Ok (Fin 0, Some (Memo.set m current [] (Fin 0))).
Proof. by destruct depth. Qed.

Lemma path_lengths_loop_singletons (l : list Coin) : forall m acc,
  path_lengths_loop (map (fun c => [c]) l) 1 (Some m) acc =
  Ok (acc ++ repeat (Fin 0) (length l)).
Proof.
  induction l as [|c l IH]; intros m acc.
  - simpl. by rewrite app_nil_r.
  - cbn [map path_lengths_loop]. unfold best_len.
    cbn [seq best_len_loop lookup list_lookup take drop app of_option].
    change (Ok c ≫= ?f) with (f c). cbn beta.
    rewrite traverse_no_remaining.
    cbn [mbind result_bind fst snd min_update of_option length repeat].
    rewrite IH. by rewrite <- app_assoc.
Qed.

Lemma combinations_one {A : Type} (l : list A) :
  combinations l 1 = map (fun c => [c]) l.
Proof.
  induction l as [|x l IH]; simpl; [done|]. rewrite IH. by destruct l.
Qed.

Lemma num_sum_zeros n : num_sum (repeat (Fin 0) n) = Fin 0.
Proof.
  rewrite num_sum_foldr. induction n as [|n IH]; simpl; [done|]. by rewrite IH.
Qed.

(** X9.  With [K = 1] every combination is a single coin, the solver is
    called with nothing remaining and returns 0, so
    [get_expected_length(board, 1)] returns [0 / N] for a board with
    [N >= 1] coins on which the distance pass succeeds. *)
Theorem expected_length_of_one_coin (b : board) (coins : list Coin) :
  set_coin_distances (scan_board b) b = Ok coins ->
  coins <> [] ->
  get_expected_length b 1 = Ok (Ratio (Qmake 0 (Pos.of_nat (length coins)))).
Proof.
  intros Hcoins Hne. unfold get_expected_length. rewrite Hcoins. simpl.
  rewrite combinations_one.
  rewrite path_lengths_loop_singletons. simpl. unfold mean. destruct coins as [|c coins]; [done|].
  cbn [length repeat]. change (Fin 0 :: repeat (Fin 0) (length coins))
    with (repeat (Fin 0) (S (length coins))).
  rewrite num_sum_zeros. simpl. by rewrite repeat_length.
Qed.

Lemma expected_length_of_one_coin_witness :
  set_coin_distances (scan_board fork_board) fork_board = Ok fork_coins /\
  fork_coins <> [] /\
  get_expected_length fork_board 1 = Ok (Ratio (Qmake 0 2)).
Proof.
  assert (H : set_coin_distances (scan_board fork_board) fork_board = Ok fork_coins)
    by (vm_compute; reflexivity).
  assert (Hne : fork_coins <> []) by discriminate.
  split; [exact H|]. split; [exact Hne|].
  exact (expected_length_of_one_coin fork_board fork_coins H Hne).
Defined.

(** X10.  Once the distance pass has succeeded on a board with [N] coins, a
    size outside [1..N] makes [get_expected_length] raise: the [ValueError]
    of [combinations] for [K < 0], the [ValueError] of [min] on an empty
    sequence for [K = 0], and [ZeroDivisionError] for [K > N], where no
    combination exists. *)
Theorem expected_length_degenerate_sizes (b : board) (K : Z) (coins : list Coin) :
  set_coin_distances (scan_board b) b = Ok coins ->
  (K < 0 -> get_expected_length b K = Err NegativeR) /\
  (K = 0 -> get_expected_length b K = Err EmptySequence) /\
  (Z.of_nat (length coins) < K -> get_expected_length b K = Err ZeroDivisionError).
Proof.
  intros Hcoins. unfold get_expected_length. rewrite Hcoins. simpl.
  repeat split.
  - intros HK. by destruct (Z.ltb_spec K 0) as [_|?]; [|lia].
  - intros ->. by destruct coins.
  - intros HK. destruct (Z.ltb_spec K 0) as [?|_]; [lia|].
    rewrite combinations_none by lia. reflexivity.
Qed.

Lemma expected_length_degenerate_sizes_witness :
  set_coin_distances (scan_board fork_board) fork_board = Ok fork_coins /\
  get_expected_length fork_board (-1) = Err NegativeR /\
  get_expected_length fork_board 0 = Err EmptySequence /\
  get_expected_length fork_board 3 = Err ZeroDivisionError.
Proof.
  assert (H : set_coin_distances (scan_board fork_board) fork_board = Ok fork_coins)
    by (vm_compute; reflexivity).
  split; [exact H|].
  destruct (expected_length_degenerate_sizes fork_board (-1) fork_coins H)
    as (Hneg & _ & _).
  destruct (expected_length_degenerate_sizes fork_board 0 fork_coins H)
    as (_ & Hzero & _).
  destruct (expected_length_degenerate_sizes fork_board 3 fork_coins H)
    as (_ & _ & Hbig).
  split; [apply Hneg; lia|]. split; [by apply Hzero|].
  apply Hbig. simpl. lia.
Defined.

(** * The keys of the memo *)

Lemma testbit_state (r : list Coin) : forall (st k : Z),
  Forall (fun c => 0 <= coin_i c) r ->
  Z.testbit
    (fold_left (fun state rem_coin => Z.lor state (Z.shiftl 1 (coin_i rem_coin)))
       r st) k =
  Z.testbit st k || bool_decide (k ∈ map coin_i r).
Proof.
  induction r as [|c r IH]; intros st k Hr; cbn [fold_left map].
  - rewrite bool_decide_eq_false_2; [by rewrite orb_false_r | apply not_elem_of_nil].
  - apply Forall_cons in Hr as [Hc Hr].
    rewrite IH, Z.lor_spec, Z.shiftl_1_l, Z.pow2_bits_eqb, <- orb_assoc by done.
    f_equal. apply eq_true_iff_eq.
    rewrite orb_true_iff, Z.eqb_eq, !bool_decide_eq_true, elem_of_cons.
    split; intros [H | H]; auto.
Qed.

Lemma get_state_same m c r r' :
  Forall (fun c => 0 <= coin_i c) r -> Forall (fun c => 0 <= coin_i c) r' ->
  same_indices r r' ->
  Memo._get_state m c r = Memo._get_state m c r'.
Proof.
  intros Hr Hr' Hsame. unfold Memo._get_state. f_equal.
  apply Z.bits_inj. intros k. rewrite !testbit_state by done. f_equal.
  apply bool_decide_ext, Hsame.
Qed.

Lemma get_state_inj m c c' r r' :
  memo_wf m ->
  indexed_below (Memo.total m) r -> indexed_below (Memo.total m) r' ->
  Memo._get_state m c r = Memo._get_state m c' r' ->
  coin_i c = coin_i c' /\ same_indices r r'.
Proof.
  intros [Htot Hbase] Hr Hr' Heq. unfold Memo._get_state in Heq.
  injection Heq as Hi Hst. split; [done|].
  assert (Hnn : forall l, indexed_below (Memo.total m) l ->
                          Forall (fun c => 0 <= coin_i c) l).
  { intros l Hl. eapply Forall_impl; [exact Hl|]. intros x Hx. simpl in Hx. lia. }
  assert (Hbit : forall l k, indexed_below (Memo.total m) l ->
            k ∈ map coin_i l ->
            Z.testbit (Memo.base m) k = false).
  { intros l k Hl Hk. apply list_elem_of_fmap in Hk as (x & -> & Hx).
    unfold indexed_below in Hl. rewrite Forall_forall in Hl.
    specialize (Hl x Hx). rewrite Hbase, Z.shiftl_1_l, Z.pow2_bits_eqb by done.
    apply Z.eqb_neq. lia. }
  intros k. apply (f_equal (fun z => Z.testbit z k)) in Hst.
  rewrite !testbit_state in Hst by auto.
  split; intros Hk.
  - rewrite (Hbit _ _ Hr Hk), (bool_decide_eq_true_2 _ Hk) in Hst. simpl in Hst.
    symmetry in Hst. by apply bool_decide_eq_true in Hst.
  - rewrite (Hbit _ _ Hr' Hk), (bool_decide_eq_true_2 _ Hk) in Hst. simpl in Hst.
    by apply bool_decide_eq_true in Hst.
Qed.

(** X11.  The key [Memo] files a value under depends on the remaining
    coins only through the set of their indices: two lists that carry the
    same (non-negative) indices, in any order, are looked up and stored
    under the same key. *)
Theorem memo_key_ignores_order (m : Memo.t) (coin : Coin) (r r' : list Coin)
    (distance : num) :
  Forall (fun c => 0 <= coin_i c) r -> Forall (fun c => 0 <= coin_i c) r' ->
  same_indices r r' ->
  Memo.get m coin r = Memo.get m coin r' /\
  Memo.set m coin r distance = Memo.set m coin r' distance.
Proof.
  intros Hr Hr' Hsame. unfold Memo.get, Memo.set.
  by rewrite (get_state_same m coin r r' Hr Hr' Hsame).
Qed.

Lemma memo_key_ignores_order_witness :
  same_indices [bare_coin 1; bare_coin 2] [bare_coin 2; bare_coin 1; bare_coin 2] /\
  Memo.get (Memo.set (Memo.init 5) (bare_coin 0) [bare_coin 1; bare_coin 2] (Fin 3))
    (bare_coin 0) [bare_coin 2; bare_coin 1; bare_coin 2]
  = Some (Fin 3).
Proof.
  assert (Hr : Forall (fun x => 0 <= coin_i x) [bare_coin 1; bare_coin 2])
    by (repeat constructor; simpl; lia).
  assert (Hr' : Forall (fun x => 0 <= coin_i x)
                  [bare_coin 2; bare_coin 1; bare_coin 2])
    by (repeat constructor; simpl; lia).
  assert (Hsame : same_indices [bare_coin 1; bare_coin 2]
                    [bare_coin 2; bare_coin 1; bare_coin 2])
    by (intros i; simpl; rewrite !elem_of_cons; tauto).
  split; [exact Hsame|].
  rewrite <- (proj1 (memo_key_ignores_order
                       (Memo.set (Memo.init 5) (bare_coin 0)
                          [bare_coin 1; bare_coin 2] (Fin 3))
                       (bare_coin 0) [bare_coin 1; bare_coin 2]
                       [bare_coin 2; bare_coin 1; bare_coin 2] (Fin 3)
                       Hr Hr' Hsame)).
  vm_compute. reflexivity.
Defined.

(** X12.  For a memo made by [Memo(total)] and coins with indices in
    [0, total), a value stored by [set] is what [get] returns for the same
    coin index and the same set of remaining indices, and [set] changes the
    answer of [get] for no other coin index or set of indices. *)
Theorem memo_set_then_get (m : Memo.t) (c c' : Coin) (r r' : list Coin)
    (distance : num) :
  memo_wf m ->
  indexed_below (Memo.total m) r -> indexed_below (Memo.total m) r' ->
  (coin_i c' = coin_i c /\ same_indices r r' ->
   Memo.get (Memo.set m c r distance) c' r' = Some distance) /\
  (~ (coin_i c' = coin_i c /\ same_indices r r') ->
   Memo.get (Memo.set m c r distance) c' r' = Memo.get m c' r').
Proof.
  intros Hwf Hr Hr'.
  assert (Hnn : forall l, indexed_below (Memo.total m) l ->
                          Forall (fun c => 0 <= coin_i c) l).
  { intros l Hl. eapply Forall_impl; [exact Hl|]. intros x Hx. simpl in Hx. lia. }
  assert (Hkey : forall x l,
            Memo._get_state (Memo.set m c r distance) x l = Memo._get_state m x l)
    by reflexivity.
  unfold Memo.get. rewrite Hkey. unfold Memo.set. cbn [Memo.memo]. split.
  - intros [Hi Hsame].
    assert (Memo._get_state m c' r' = Memo._get_state m c r) as ->.
    { rewrite <- (get_state_same m c' r r') by auto.
      unfold Memo._get_state. by rewrite Hi. }
    by rewrite lookup_insert_eq.
  - intros Hne. rewrite lookup_insert_ne; [done|].
    intros Heq. apply get_state_inj in Heq as [Hi Hsame]; [|done..]. auto.
Qed.

Lemma memo_wf_init total : 0 <= total -> memo_wf (Memo.init total).
Proof. by split. Qed.

Lemma memo_set_then_get_witness :
  memo_wf (Memo.init 5) /\
  indexed_below 5 [bare_coin 1; bare_coin 2] /\ indexed_below 5 [bare_coin 2] /\
  Memo.get (Memo.set (Memo.init 5) (bare_coin 0) [bare_coin 1; bare_coin 2] (Fin 3))
    (bare_coin 0) [bare_coin 2]
  = None.
Proof.
  assert (Hwf : memo_wf (Memo.init 5)) by (apply memo_wf_init; lia).
  assert (Hr : indexed_below (Memo.total (Memo.init 5)) [bare_coin 1; bare_coin 2])
    by (repeat constructor; simpl; lia).
  assert (Hr' : indexed_below (Memo.total (Memo.init 5)) [bare_coin 2])
    by (repeat constructor; simpl; lia).
  split; [exact Hwf|]. split; [exact Hr|]. split; [exact Hr'|].
  rewrite (proj2 (memo_set_then_get (Memo.init 5) (bare_coin 0) (bare_coin 0)
                    [bare_coin 1; bare_coin 2] [bare_coin 2] (Fin 3) Hwf Hr Hr')).
  - reflexivity.
  - intros [_ Hsame]. specialize (Hsame 1). simpl in Hsame.
    rewrite !elem_of_cons, !elem_of_nil in Hsame. lia.
Defined.

(** * The contracts of the two exact solvers *)

(** X13.  For a start coin and a non-empty list of coins with populated
    distances, [held_karp_algorithm_for_shortest_distance] returns the
    length of a shortest path that begins at the start and visits every
    coin of the list once: some ordering of the coins has that length, and
    no ordering is shorter. *)
Theorem held_karp_is_shortest_route (start : Coin) (coins : list Coin) :
  populated (start :: coins) -> coins <> [] ->
  exists h,
    held_karp_algorithm_for_shortest_distance start coins = Ok h /\
    (exists o, o ≡ₚ coins /\ path_len (start :: o) = h) /\
    (forall o, o ≡ₚ coins -> h <= path_len (start :: o)).
Proof.
  intros Hpop Hne.
  destruct (held_karp_optimal start coins Hpop Hne)
    as (h & Hh & (ro & Hro & Hcost) & Hlow).
  assert (Hlen : forall o, o ≡ₚ coins -> path_len (start :: o) = rcost start (rev o)).
  { intros o Ho. apply (path_len_rcost (start :: coins) Hpop).
    - by left.
    - intros x Hx. right. by rewrite <- Ho.
    - change (NoDup (map coords (start :: o))). rewrite Ho.
      apply (pop_distinct _ Hpop). }
  exists h. split; [done|]. split.
  - exists (rev ro). split; [by rewrite <- Permutation_rev|].
    rewrite Hlen by (by rewrite <- Permutation_rev). by rewrite rev_involutive.
  - intros o Ho. rewrite (Hlen o Ho). apply Hlow. by rewrite <- Permutation_rev.
Qed.

Lemma fork_coins_populated : populated fork_coins.
Proof.
  apply (set_coin_distances_populated fork_board (scan_board fork_board)).
  - apply scan_board_distinct.
  - vm_compute. reflexivity.
Qed.

Lemma held_karp_is_shortest_route_witness :
  exists start coins,
    fork_coins = start :: coins /\
    populated (start :: coins) /\ coins <> [] /\
    held_karp_algorithm_for_shortest_distance start coins = Ok 4 /\
    forall o, o ≡ₚ coins -> 4 <= path_len (start :: o).
Proof.
  eexists _, _. split; [reflexivity|].
  assert (Hne : tail fork_coins <> []) by discriminate.
  split; [exact fork_coins_populated|]. split; [exact Hne|].
  destruct (held_karp_is_shortest_route _ _ fork_coins_populated Hne)
    as (h & Hh & _ & Hlow).
  assert (h = 4) as -> by (vm_compute in Hh; congruence).
  split; [exact Hh | exact Hlow].
Defined.

Lemma brute_force_min coins :
  populated coins ->
  exists v,
    brute_force_find_graph_subset_distance coins = Ok (Fin v) /\
    (exists p, p ≡ₚ coins /\ path_len p = v) /\
    (forall p, p ≡ₚ coins -> v <= path_len p).
Proof.
  intros Hpop. unfold brute_force_find_graph_subset_distance.
  destruct (brute_force_loop_spec (itertools_permutations coins) Inf)
    as (r & Hr & _ & Hall & Hex).
  { intros p Hp%elem_of_itertools_permutations.
    apply (path_distance_ok coins Hpop).
    - intros x Hx. by rewrite <- Hp.
    - rewrite Hp. apply (pop_distinct _ Hpop). }
  destruct Hex as [-> | (p0 & Hp0 & ->)].
  { exfalso. specialize (Hall coins).
    rewrite elem_of_itertools_permutations in Hall. by specialize (Hall ltac:(done)). }
  exists (path_len p0). split; [done|]. split.
  - exists p0. split; [by apply elem_of_itertools_permutations | done].
  - intros p Hp. specialize (Hall p).
    rewrite elem_of_itertools_permutations in Hall. specialize (Hall Hp).
    unfold num_le, num_leb in Hall. simpl in Hall.
    by apply negb_true_iff, Z.ltb_ge in Hall.
Qed.

(** X14.  For coins with populated distances (the empty tuple included),
    [brute_force_find_graph_subset_distance] returns the length of a
    shortest path that visits every coin once, over all orderings and all
    choices of the first coin; the value does not depend on the order in
    which the coins are given. *)
Theorem brute_force_is_shortest_path (coins : list Coin) :
  populated coins ->
  exists v,
    brute_force_find_graph_subset_distance coins = Ok (Fin v) /\
    (exists p, p ≡ₚ coins /\ path_len p = v) /\
    (forall p, p ≡ₚ coins -> v <= path_len p) /\
    (forall coins', coins' ≡ₚ coins ->
       brute_force_find_graph_subset_distance coins' = Ok (Fin v)).
Proof.
  intros Hpop.
  destruct (brute_force_min coins Hpop) as (v & Hv & (p & Hp & Hlen) & Hlow).
  exists v. split; [done|]. split; [by exists p|]. split; [done|].
  intros coins' Hperm.
  destruct (brute_force_min coins') as (v' & Hv' & (p' & Hp' & Hlen') & Hlow').
  { eapply populated_perm; [|exact Hpop]. done. }
  rewrite Hv'. do 2 f_equal.
  specialize (Hlow p' ltac:(by rewrite Hp')).
  specialize (Hlow' p ltac:(by rewrite Hp)). lia.
Qed.

Lemma brute_force_is_shortest_path_witness :
  populated row_coins /\
  brute_force_find_graph_subset_distance row_coins = Ok (Fin 2) /\
  brute_force_find_graph_subset_distance (rev row_coins) = Ok (Fin 2).
Proof.
  assert (Hbf : brute_force_find_graph_subset_distance row_coins = Ok (Fin 2))
    by (vm_compute; reflexivity).
  split; [exact row_coins_populated|]. split; [exact Hbf|].
  destruct (brute_force_is_shortest_path row_coins row_coins_populated)
    as (v & Hv & _ & _ & Hany).
  rewrite Hbf in Hv. injection Hv as <-.
  apply Hany. symmetry. apply Permutation_rev.
Defined.

(** * Small inputs of find_starting_node *)

(** X15.  With fewer than two coins there is no pair, [edges] stays empty,
    and [find_starting_node] raises [IndexError] at [edges[0][0]]. *)
Theorem find_starting_node_needs_two_coins (coins : list Coin) :
  (length coins < 2)%nat ->
  find_starting_node coins = Err IndexError.
Proof.
  intros Hlen. destruct coins as [|c [|c' coins]]; simpl in Hlen; try lia;
    reflexivity.
Qed.

Lemma find_starting_node_needs_two_coins_witness :
  (length (take 1 row_coins) < 2)%nat /\
  find_starting_node (take 1 row_coins) = Err IndexError.
Proof.
  assert (Hlen : (length (take 1 row_coins) < 2)%nat) by (simpl; lia).
  split; [exact Hlen|].
  exact (find_starting_node_needs_two_coins (take 1 row_coins) Hlen).
Defined.

(** X16.  With exactly two coins, the first holding a distance for the cell
    of the second, [find_starting_node] returns the first coin: the only
    edge has no other node, both endpoints score infinity, and the first
    one to exceed the initial [max_cost] of 0 is kept. *)
Theorem find_starting_node_of_two (a c : Coin) (d : Z) :
  step_distance a !! coords c = Some d ->
  find_starting_node [a; c] = Ok a.
Proof.
  intros Hd. unfold find_starting_node.
  cbn [scan_edges scan_edges_from]. unfold get_step_distance. rewrite Hd.
  cbn [of_option mbind result_bind smallest_distance num_ltb edges head fst snd].
  cbn [scan_costs].
  assert (Hother : filter (fun node => in_edge node (a, c) = false) [a; c] = []).
  { apply filter_none. intros x Hx Hout. unfold in_edge, coin_eqb, coord_eqb in Hout.
    apply orb_false_iff in Hout as [H1 H2]. simpl in H1, H2.
    apply bool_decide_eq_false in H1, H2.
    by apply elem_of_cons in Hx as [-> | Hx%list_elem_of_singleton]; subst. }
  rewrite Hother. reflexivity.
Qed.

Lemma find_starting_node_of_two_witness :
  match fork_coins with
  | [a; c] =>
      step_distance a !! coords c = Some 4 /\ find_starting_node [a; c] = Ok a
  | _ => False
  end.
Proof.
  unfold fork_coins.
  match goal with
  | |- step_distance ?a !! coords ?c = Some ?d /\ _ =>
      assert (Hd : step_distance a !! coords c = Some d) by (vm_compute; reflexivity);
      split; [exact Hd | exact (find_starting_node_of_two a c d Hd)]
  end.
Defined.
